(** * benchcached: the open-addressing tables and the request handler

    The repository holds two copies of the table.  [Server] is the table of
    [src/server/benchcached.c] (fixed [TABLE_SIZE], operations return nothing);
    [Standalone] is the table of the standalone benchmark (capacity chosen at
    creation, [hashmap_set] returns 0 or -1).  Both are embedded as they are
    written; the handler [handle_pkt] is the server's.

    Conventions.  A [string] stands for the bytes of a NUL-terminated C string,
    the terminator left out.  A C pointer to such a string is a [ptr].  Reading
    through a pointer that is NULL or has been freed, and indexing outside the
    slot array, are undefined in C: the embedded functions then return [None]. *)

From Stdlib Require Import ZArith Lia String Ascii List Bool DecimalString
  DecimalNat.
From stdpp Require Import base list.

Local Open Scope string_scope.
Local Open Scope Z_scope.

(** ** Data shared by the two tables *)

Inductive ptr : Type :=
  | Null
  | Live (s : string)
  | Freed.

Record kv_entry : Type := mk_entry {
  key : ptr;
  val : ptr;
  used : bool;
  deleted : bool
}.

(** The three slot states of the data model, read off [used] and [deleted] in
    the order the code tests them. *)
Inductive slot_state : Type := Empty | Occupied | Tombstone.

Definition state_of (e : kv_entry) : slot_state :=
  if negb (used e) then Empty
  else if deleted e then Tombstone
  else Occupied.

(** [calloc]/[memset] zero-fill. *)
Definition zero_entry : kv_entry := mk_entry Null Null false false.

Definition is_null (p : ptr) : bool :=
  match p with Null => true | _ => false end.

(** [strdup]: a fresh copy, or NULL when the allocation fails. *)
Definition strdup (ok : bool) (s : string) : ptr :=
  if ok then Live s else Null.

(** [strcmp (p, s) == 0]; [None] when [p] cannot be read. *)
Definition strcmp (p : ptr) (s : string) : option bool :=
  match p with
  | Live t => Some (String.eqb t s)
  | Null | Freed => None
  end.

(** [free]: NULL is accepted and nothing is released; a buffer is released
    once; a pointer already freed may not be freed again.  The result counts
    the buffers released. *)
Definition free (p : ptr) : option nat :=
  match p with
  | Null => Some 0%nat
  | Live _ => Some 1%nat
  | Freed => None
  end.

(** Outcome of the allocations made by one [hashmap_set]. *)
Record alloc : Type := mk_alloc { key_ok : bool; val_ok : bool }.

Definition alloc_ok : alloc := mk_alloc true true.

(** 64-bit unsigned wrap-around. *)
Definition wrap64 (x : Z) : Z := x mod 2 ^ 64.

Definition byte_of (c : ascii) : Z := Z.of_N (N_of_ascii c).

Definition slot (es : list kv_entry) (p : Z) : option kv_entry :=
  es !! Z.to_nat p.

Definition store (es : list kv_entry) (p : Z) (e : kv_entry) : list kv_entry :=
  <[Z.to_nat p := e]> es.

(** ** FNV-1a as the specification words it *)

Module Fnv1aRef.

Definition offset_basis : Z := 0xcbf29ce484222325.
Definition prime : Z := 0x100000001b3.

Definition step (hash : Z) (byte : Z) : Z :=
  (Z.lxor hash byte * prime) mod 2 ^ 64.

Definition fnv1a (bytes : list Z) : Z := fold_left step bytes offset_basis.

Definition bytes_of (s : string) : list Z :=
  List.map byte_of (list_ascii_of_string s).

End Fnv1aRef.

(** ** The standalone table *)

Module Standalone.

Record hashmap : Type := mk_hashmap {
  entries : list kv_entry;
  cap : Z
}.

Fixpoint fnv_loop (s : string) (hash : Z) : Z :=
  match s with
  | EmptyString => hash
  | String c s' =>
      let hash := Z.lxor hash (byte_of c) in
      let hash := wrap64 (hash * 1099511628211) in
      fnv_loop s' hash
  end.

Definition fnv_hash (s : string) : Z := fnv_loop s 14695981039346656037.

(** [while (p < x) p <<= 1;] on [size_t].  Once [p] has wrapped to 0 it stays
    there, so 64 rounds decide the loop: [None] is the loop that never ends. *)
Fixpoint next_pow2_loop (fuel : nat) (x p : Z) : option Z :=
  if p <? x then
    match fuel with
    | O => None
    | S fuel' => next_pow2_loop fuel' x (wrap64 (Z.shiftl p 1))
    end
  else Some p.

Definition next_pow2 (x : Z) : option Z := next_pow2_loop 64 x 1.

Inductive created : Type :=
  | Diverges
  | NoMemory
  | Table (hm : hashmap).

(** [hashmap_create]; [mem_ok] tells whether [malloc] and [calloc] succeed. *)
Definition hashmap_create (mem_ok : bool) (expected_items : Z) : created :=
  match next_pow2 (wrap64 (expected_items * 2 + 1)) with
  | None => Diverges
  | Some c =>
      if mem_ok then Table (mk_hashmap (replicate (Z.to_nat c) zero_entry) c)
      else NoMemory
  end.

Definition home (hm : hashmap) (k : string) : Z :=
  Z.land (fnv_hash k) (wrap64 (cap hm - 1)).

Definition probe_at (hm : hashmap) (idx i : Z) : Z :=
  Z.land (wrap64 (idx + i)) (wrap64 (cap hm - 1)).

Definition put (hm : hashmap) (p : Z) (e : kv_entry) : hashmap :=
  mk_hashmap (store (entries hm) p e) (cap hm).

(** The [for] loop of [hashmap_set]: [n] rounds remain, [i] is the counter,
    [first_tomb] is -1 until a tombstone has been passed. *)
Fixpoint set_loop (a : alloc) (hm : hashmap) (k v : string) (idx : Z)
    (first_tomb : Z) (n : nat) (i : Z) : option (hashmap * Z) :=
  match n with
  | O => Some (hm, -1)
  | S n' =>
      let probe := probe_at hm idx i in
      match slot (entries hm) probe with
      | None => None
      | Some e =>
          if negb (used e) then
            let dst := if 0 <=? first_tomb then first_tomb else probe in
            let dk := strdup (key_ok a) k in
            let dv := strdup (val_ok a) v in
            if is_null dk || is_null dv
            then Some (put hm dst (mk_entry Null Null false false), -1)
            else Some (put hm dst (mk_entry dk dv true false), 0)
          else if deleted e then
            set_loop a hm k v idx
              (if first_tomb <? 0 then probe else first_tomb) n' (i + 1)
          else
            match strcmp (key e) k with
            | None => None
            | Some true =>
                let new_val := strdup (val_ok a) v in
                if is_null new_val then Some (hm, -1)
                else Some (put hm probe
                             (mk_entry (key e) new_val (used e) (deleted e)), 0)
            | Some false => set_loop a hm k v idx first_tomb n' (i + 1)
            end
      end
  end.

Definition hashmap_set (a : alloc) (hm : hashmap) (k v : string)
    : option (hashmap * Z) :=
  set_loop a hm k v (home hm k) (-1) (Z.to_nat (cap hm)) 0.

Fixpoint get_loop (hm : hashmap) (k : string) (idx : Z) (n : nat) (i : Z)
    : option ptr :=
  match n with
  | O => Some Null
  | S n' =>
      match slot (entries hm) (probe_at hm idx i) with
      | None => None
      | Some e =>
          if negb (used e) then Some Null
          else if deleted e then get_loop hm k idx n' (i + 1)
          else
            match strcmp (key e) k with
            | None => None
            | Some true => Some (val e)
            | Some false => get_loop hm k idx n' (i + 1)
            end
      end
  end.

Definition hashmap_get (hm : hashmap) (k : string) : option ptr :=
  get_loop hm k (home hm k) (Z.to_nat (cap hm)) 0.

Fixpoint delete_loop (hm : hashmap) (k : string) (idx : Z) (n : nat) (i : Z)
    : option hashmap :=
  match n with
  | O => Some hm
  | S n' =>
      let probe := probe_at hm idx i in
      match slot (entries hm) probe with
      | None => None
      | Some e =>
          if negb (used e) then Some hm
          else if deleted e then delete_loop hm k idx n' (i + 1)
          else
            match strcmp (key e) k with
            | None => None
            | Some true =>
                Some (put hm probe (mk_entry Null Null (used e) true))
            | Some false => delete_loop hm k idx n' (i + 1)
            end
      end
  end.

Definition hashmap_delete (hm : hashmap) (k : string) : option hashmap :=
  delete_loop hm k (home hm k) (Z.to_nat (cap hm)) 0.

(** The loop of [hashmap_destroy]; the result counts the key and value
    buffers released. *)
Fixpoint destroy_loop (hm : hashmap) (n : nat) (i : Z) : option nat :=
  match n with
  | O => Some 0%nat
  | S n' =>
      match slot (entries hm) i with
      | None => None
      | Some e =>
          if used e && negb (deleted e) then
            match free (key e) with
            | None => None
            | Some a =>
                match free (val e) with
                | None => None
                | Some b =>
                    match destroy_loop hm n' (i + 1) with
                    | None => None
                    | Some c => Some (a + b + c)%nat
                    end
                end
            end
          else destroy_loop hm n' (i + 1)
      end
  end.

Definition hashmap_destroy (hm : hashmap) : option nat :=
  destroy_loop hm (Z.to_nat (cap hm)) 0.

End Standalone.

(** ** The server table *)

Module Server.

Definition TABLE_SIZE : Z := 1024.
Definition FNV_OFFSET : Z := 14695981039346656037.
Definition FNV_PRIME : Z := 1099511628211.

Record hashmap : Type := mk_hashmap {
  entries : list kv_entry
}.

Fixpoint fnv_loop (p : string) (hash : Z) : Z :=
  match p with
  | EmptyString => hash
  | String c p' =>
      let hash := Z.lxor hash (byte_of c) in
      let hash := wrap64 (hash * FNV_PRIME) in
      fnv_loop p' hash
  end.

Definition fnv_hash (x : string) : Z := fnv_loop x FNV_OFFSET.

(** [hashmap_create]: NULL ([None]) when [malloc] fails. *)
Definition hashmap_create (mem_ok : bool) : option hashmap :=
  if mem_ok
  then Some (mk_hashmap (replicate (Z.to_nat TABLE_SIZE) zero_entry))
  else None.

Definition home (k : string) : Z := Z.land (fnv_hash k) (TABLE_SIZE - 1).

Definition probe_at (idx i : Z) : Z :=
  Z.land (wrap64 (idx + i)) (TABLE_SIZE - 1).

Definition put (hm : hashmap) (p : Z) (e : kv_entry) : hashmap :=
  mk_hashmap (store (entries hm) p e).

Fixpoint set_loop (a : alloc) (hm : hashmap) (k v : string) (idx : Z)
    (n : nat) (i : Z) : option hashmap :=
  match n with
  | O => Some hm
  | S n' =>
      let probe := probe_at idx i in
      match slot (entries hm) probe with
      | None => None
      | Some e =>
          if negb (used e) || deleted e then
            Some (put hm probe
                    (mk_entry (strdup (key_ok a) k) (strdup (val_ok a) v)
                       true false))
          else
            match strcmp (key e) k with
            | None => None
            | Some true =>
                Some (put hm probe
                        (mk_entry (key e) (strdup (val_ok a) v)
                           (used e) (deleted e)))
            | Some false => set_loop a hm k v idx n' (i + 1)
            end
      end
  end.

Definition hashmap_set (a : alloc) (hm : hashmap) (k v : string)
    : option hashmap :=
  set_loop a hm k v (home k) (Z.to_nat TABLE_SIZE) 0.

Fixpoint get_loop (hm : hashmap) (k : string) (idx : Z) (n : nat) (i : Z)
    : option ptr :=
  match n with
  | O => Some Null
  | S n' =>
      match slot (entries hm) (probe_at idx i) with
      | None => None
      | Some e =>
          if negb (used e) then Some Null
          else if deleted e then get_loop hm k idx n' (i + 1)
          else
            match strcmp (key e) k with
            | None => None
            | Some true => Some (val e)
            | Some false => get_loop hm k idx n' (i + 1)
            end
      end
  end.

Definition hashmap_get (hm : hashmap) (k : string) : option ptr :=
  get_loop hm k (home k) (Z.to_nat TABLE_SIZE) 0.

(** The server's delete compares the key of every used slot, tombstones
    included, whose key has been freed. *)
Fixpoint delete_loop (hm : hashmap) (k : string) (idx : Z) (n : nat) (i : Z)
    : option hashmap :=
  match n with
  | O => Some hm
  | S n' =>
      let probe := probe_at idx i in
      match slot (entries hm) probe with
      | None => None
      | Some e =>
          if negb (used e) then Some hm
          else
            match strcmp (key e) k with
            | None => None
            | Some true =>
                Some (put hm probe (mk_entry Freed Freed (used e) true))
            | Some false => delete_loop hm k idx n' (i + 1)
            end
      end
  end.

Definition hashmap_delete (hm : hashmap) (k : string) : option hashmap :=
  delete_loop hm k (home k) (Z.to_nat TABLE_SIZE) 0.

(** The loop of [hashmap_destroy]: every used slot, tombstones included, has
    its key and value freed.  The result counts the buffers released. *)
Fixpoint destroy_loop (hm : hashmap) (n : nat) (i : Z) : option nat :=
  match n with
  | O => Some 0%nat
  | S n' =>
      match slot (entries hm) i with
      | None => None
      | Some e =>
          if used e then
            match free (key e) with
            | None => None
            | Some a =>
                match free (val e) with
                | None => None
                | Some b =>
                    match destroy_loop hm n' (i + 1) with
                    | None => None
                    | Some c => Some (a + b + c)%nat
                    end
                end
            end
          else destroy_loop hm n' (i + 1)
      end
  end.

Definition hashmap_destroy (hm : hashmap) : option nat :=
  destroy_loop hm (Z.to_nat TABLE_SIZE) 0.

(** *** The request handler

    A connection is modelled by the bytes its peer sends before closing its
    side: [read] hands them out in order and returns 0 once they are used up
    (how they are split over the calls makes no difference to the loops
    below, and an interrupted call is retried).  A peer that sends less than
    the declared length and keeps the connection open blocks the second loop;
    such connections are outside this model. *)

Definition colon : ascii := ":"%char.

(** First loop of [handle_pkt]: at most 8 one-byte reads, stopped by [':'].
    [None] is the early [return] on end of input; otherwise the bytes stored
    in [buf] and the input left. *)
Fixpoint read_length (n : nat) (input : string) : option (string * string) :=
  match n with
  | O => Some ("", input)
  | S n' =>
      match input with
      | EmptyString => None
      | String c rest =>
          if Ascii.eqb c colon then Some ("", rest)
          else
            match read_length n' rest with
            | None => None
            | Some (buf, rest') => Some (String c buf, rest')
            end
      end
  end.

Definition isspace (c : ascii) : bool :=
  let n := byte_of c in (n =? 32) || ((9 <=? n) && (n <=? 13)).

Definition isdigit (c : ascii) : bool :=
  let n := byte_of c in (48 <=? n) && (n <=? 57).

Fixpoint skip_space (s : string) : string :=
  match s with
  | String c s' => if isspace c then skip_space s' else s
  | EmptyString => s
  end.

Fixpoint digits (s : string) (acc : Z) : Z :=
  match s with
  | String c s' =>
      if isdigit c then digits s' (acc * 10 + (byte_of c - 48)) else acc
  | EmptyString => acc
  end.

(** [atol] on a buffer of at most 8 bytes (no overflow of [long] there). *)
Definition atol (s : string) : Z :=
  match skip_space s with
  | String "-" s' => - digits s' 0
  | String "+" s' => digits s' 0
  | s' => digits s' 0
  end.

(** Second loop: up to [len] bytes of the input, fewer when it ends first. *)
Fixpoint read_body (len : nat) (input : string) : string :=
  match len with
  | O => ""
  | S len' =>
      match input with
      | EmptyString => ""
      | String c rest => String c (read_body len' rest)
      end
  end.

(** The C string that starts at [msg]: the bytes before the first NUL. *)
Fixpoint cstr (s : string) : string :=
  match s with
  | EmptyString => ""
  | String c s' => if Ascii.eqb c zero then "" else String c (cstr s')
  end.

(** [strtok (_, ":")].  The argument is the text at the scan position (the
    saved position for a call with NULL); the result is the token and the
    text at the new saved position, or [None] for NULL. *)
Fixpoint skip_delim (s : string) : string :=
  match s with
  | String c s' => if Ascii.eqb c colon then skip_delim s' else s
  | EmptyString => s
  end.

Fixpoint token (s : string) : string * string :=
  match s with
  | EmptyString => ("", "")
  | String c s' =>
      if Ascii.eqb c colon then ("", s')
      else let (t, rest) := token s' in (String c t, rest)
  end.

Definition strtok (s : string) : option (string * string) :=
  match skip_delim s with
  | EmptyString => None
  | s' => Some (token s')
  end.

(** What one call of [handle_pkt] does: it returns, leaving the table and
    the bytes written to the connection, or it does not return normally
    (undefined behaviour, or [exit (1)]). *)
Inductive outcome : Type :=
  | Returned (hm : hashmap) (reply : string)
  | Aborted.

Definition write_reply (hm : hashmap) (reply : ptr) : outcome :=
  match reply with
  | Null => Returned hm ""
  | Live v => Returned hm v
  | Freed => Aborted
  end.

(** From [cmd = strtok (msg, ":")] to the end of [handle_pkt]. *)
Definition dispatch (a : alloc) (msg : string) (hm : hashmap) : outcome :=
  match strtok msg with
  | None => Aborted
  | Some (cmd, r1) =>
      if String.eqb cmd "get" then
        match strtok r1 with
        | Some (k, _) =>
            match hashmap_get hm k with
            | None => Aborted
            | Some reply => write_reply hm reply
            end
        | None => Returned hm ""
        end
      else if String.eqb cmd "set" then
        match strtok r1 with
        | Some (k, r2) =>
            match strtok r2 with
            | Some (v, _) =>
                match hashmap_set a hm k v with
                | None => Aborted
                | Some hm' => Returned hm' ""
                end
            | None => Returned hm ""
            end
        | None => Returned hm ""
        end
      else if String.eqb cmd "del" then
        match strtok r1 with
        | Some (k, _) =>
            match hashmap_delete hm k with
            | None => Aborted
            | Some hm' => Returned hm' ""
            end
        | None => Returned hm ""
        end
      else Returned hm ""
  end.

(** [handle_pkt].  [msg_ok] tells whether [malloc] of the body buffer
    succeeds.  A negative length makes [len] exceed every object size, and a
    failed [malloc] leaves [msg] NULL: in both cases the body is read into,
    and terminated in, memory that is no buffer. *)
Definition handle_pkt (msg_ok : bool) (a : alloc) (input : string)
    (hm : hashmap) : outcome :=
  match read_length 8 input with
  | None => Returned hm ""
  | Some (buf, rest) =>
      let len := wrap64 (atol buf) in
      if (2 ^ 63 <=? len) || negb msg_ok then Aborted
      else dispatch a (cstr (read_body (Z.to_nat len) rest)) hm
  end.

(** The accept loop of [main] over successive connections: the replies
    written, in order, and the final table. *)
Fixpoint serve (a : alloc) (conns : list string) (hm : hashmap)
    : option (list string * hashmap) :=
  match conns with
  | [] => Some ([], hm)
  | input :: conns' =>
      match handle_pkt true a input hm with
      | Aborted => None
      | Returned hm' reply =>
          match serve a conns' hm' with
          | None => None
          | Some (replies, hm'') => Some (reply :: replies, hm'')
          end
      end
  end.

End Server.

(** ** Vocabulary of the specification *)

(** Capacities are powers of two that fit [size_t]. *)
Definition pow2 (c : Z) : Prop := exists j, 0 <= j < 64 /\ c = 2 ^ j.

(** How the probe for key [k] sees the slot at index [p] of [es]. *)
Section Scan.
Variable es : list kv_entry.
Variable k : string.

(** Occupied by [k]. *)
Definition holds (p : Z) (e : kv_entry) : Prop :=
  slot es p = Some e /\ used e = true /\ deleted e = false /\ key e = Live k.

(** Empty. *)
Definition vacant (p : Z) (e : kv_entry) : Prop :=
  slot es p = Some e /\ used e = false.

(** A tombstone, or occupied by another key: the probe goes on. *)
Definition passes (p : Z) : Prop :=
  exists e, slot es p = Some e /\ used e = true /\
    (deleted e = true \/
     (deleted e = false /\ exists k', key e = Live k' /\ k' <> k)).

(** A tombstone. *)
Definition tomb (p : Z) : Prop :=
  exists e, slot es p = Some e /\ used e = true /\ deleted e = true.

(** Occupied by another key. *)
Definition foreign (p : Z) : Prop :=
  exists e k', slot es p = Some e /\ used e = true /\ deleted e = false /\
    key e = Live k' /\ k' <> k.

(** The probe stops at [p]: Empty, or Occupied by [k]. *)
Definition stopsb (p : Z) : bool :=
  match slot es p with
  | Some e =>
      match state_of e with
      | Empty => true
      | Tombstone => false
      | Occupied =>
          match key e with Live k' => String.eqb k' k | _ => false end
      end
  | None => false
  end.

(** What a lookup that stops at [p] answers. *)
Definition answer (p : Z) : ptr :=
  match slot es p with
  | Some e =>
      match state_of e with
      | Occupied => val e
      | _ => Null
      end
  | None => Null
  end.
End Scan.

(** The probe sequence [i0, i0+1, ..., i0+capacity-1 (mod capacity)]. *)
Definition probe_seq (i0 c : Z) : list Z :=
  List.map (fun i => (i0 + Z.of_nat i) mod c) (List.seq 0 (Z.to_nat c)).

(** Lookup as the specification words it: the value of the first slot of the
    probe sequence that is Empty or Occupied by the key, tombstones and other
    keys skipped; not-found ([Null]) at an Empty slot or when none stops. *)
Definition get_spec (es : list kv_entry) (c : Z) (hash : Z) (k : string) : ptr :=
  match List.find (stopsb es k) (probe_seq (hash mod c) c) with
  | Some p => answer es p
  | None => Null
  end.

(** Every Occupied slot owns a key and a value. *)
Definition live (es : list kv_entry) : Prop :=
  forall p e, 0 <= p -> slot es p = Some e -> state_of e = Occupied ->
    exists k v, key e = Live k /\ val e = Live v.

(** At most one Occupied slot per key. *)
Definition uniq (es : list kv_entry) : Prop :=
  forall p q e1 e2 k, 0 <= p -> 0 <= q ->
    slot es p = Some e1 -> slot es q = Some e2 ->
    state_of e1 = Occupied -> state_of e2 = Occupied ->
    key e1 = Live k -> key e2 = Live k -> p = q.

(** Table operations, for runs. *)
Inductive op : Type :=
  | OSet (k v : string)
  | ODel (k : string).

Definition op_key (o : op) : string :=
  match o with OSet k _ => k | ODel k => k end.

Module StandaloneSpec.
Import Standalone.

Definition wf (hm : hashmap) : Prop :=
  pow2 (cap hm) /\ Z.of_nat (length (entries hm)) = cap hm.

(** A table as [hashmap_create] leaves it. *)
Definition fresh (hm : hashmap) : Prop :=
  pow2 (cap hm) /\ entries hm = replicate (Z.to_nat (cap hm)) zero_entry.

(** The slot [p] is reached from the home of [k] over used slots only. *)
Definition reach (hm : hashmap) (k : string) (p : Z) : Prop :=
  exists d, 0 <= d < cap hm /\ probe_at hm (home hm k) d = p /\
    forall i, 0 <= i < d ->
      exists e, slot (entries hm) (probe_at hm (home hm k) i) = Some e /\
                used e = true.

Definition chain (hm : hashmap) : Prop :=
  forall p e k, 0 <= p < cap hm -> slot (entries hm) p = Some e ->
    state_of e = Occupied -> key e = Live k -> reach hm k p.

Definition inv (hm : hashmap) : Prop :=
  wf hm /\ live (entries hm) /\ chain hm /\ uniq (entries hm).

(** One operation, every copy succeeding; the result of [hashmap_set] is
    dropped, as a failed set is still a step of the run. *)
Definition step (hm : hashmap) (o : op) : option hashmap :=
  match o with
  | OSet k v =>
      match hashmap_set alloc_ok hm k v with
      | Some (hm', _) => Some hm'
      | None => None
      end
  | ODel k => hashmap_delete hm k
  end.

Fixpoint run (ops : list op) (hm : hashmap) : option hashmap :=
  match ops with
  | [] => Some hm
  | o :: ops' =>
      match step hm o with
      | Some hm' => run ops' hm'
      | None => None
      end
  end.

(** The states the program can be in: created by [hashmap_create], then
    any operations. *)
Definition reachable (hm : hashmap) : Prop :=
  exists n ops hm0,
    hashmap_create true n = Table hm0 /\ run ops hm0 = Some hm.

(** The probe for [k] ends on a slot that holds [k] with value [v]. *)
Definition bound (hm : hashmap) (k v : string) : Prop :=
  exists d e, 0 <= d < cap hm /\
    (forall j, 0 <= j < d ->
       passes (entries hm) k (probe_at hm (home hm k) j)) /\
    holds (entries hm) k (probe_at hm (home hm k) d) e /\
    val e = Live v.

(** No Occupied slot holds [k]. *)
Definition absent (hm : hashmap) (k : string) : Prop :=
  forall q e, 0 <= q -> slot (entries hm) q = Some e ->
    state_of e = Occupied -> key e <> Live k.

End StandaloneSpec.

Module ServerSpec.
Import Server.

Definition wf (hm : hashmap) : Prop :=
  Z.of_nat (length (entries hm)) = TABLE_SIZE.

(** The server table seen with the standalone record. *)
Definition lift (hm : hashmap) : Standalone.hashmap :=
  Standalone.mk_hashmap (entries hm) TABLE_SIZE.

Definition step (hm : hashmap) (o : op) : option hashmap :=
  match o with
  | OSet k v => hashmap_set alloc_ok hm k v
  | ODel k => hashmap_delete hm k
  end.

Fixpoint run (ops : list op) (hm : hashmap) : option hashmap :=
  match ops with
  | [] => Some hm
  | o :: ops' =>
      match step hm o with
      | Some hm' => run ops' hm'
      | None => None
      end
  end.

(** The probe for [k] meets a slot that a set of [k] can write: Empty, a
    tombstone, or Occupied by [k]. *)
Definition has_room (hm : hashmap) (k : string) : Prop :=
  exists i e, 0 <= i < TABLE_SIZE /\
    slot (entries hm) (probe_at (home k) i) = Some e /\
    (used e = false \/ deleted e = true \/ key e = Live k).

(** The states the server can be in: created by [hashmap_create], then any
    operations that the C semantics defines. *)
Definition reachable (hm : hashmap) : Prop :=
  exists ops hm0, hashmap_create true = Some hm0 /\ run ops hm0 = Some hm.

(** A slot a set of [k] writes a new pair into: Empty or a tombstone. *)
Definition writable (e : kv_entry) : Prop :=
  used e = false \/ deleted e = true.

End ServerSpec.

(** No byte of [s] is the delimiter. *)
Fixpoint no_colon (s : string) : bool :=
  match s with
  | EmptyString => true
  | String c s' => negb (Ascii.eqb c Server.colon) && no_colon s'
  end.

(** [live] and [absent], decided on a given slot array. *)
Definition liveb (es : list kv_entry) : bool :=
  forallb
    (fun e =>
       match state_of e with
       | Occupied =>
           match key e, val e with
           | Live _, Live _ => true
           | _, _ => false
           end
       | _ => true
       end) es.

Definition absentb (es : list kv_entry) (k : string) : bool :=
  forallb
    (fun e =>
       match state_of e with
       | Occupied =>
           match key e with
           | Live k' => negb (String.eqb k' k)
           | _ => true
           end
       | _ => true
       end) es.

(** ** Small tables for examples *)

(** The standalone table [hashmap_create (1)] returns: capacity 4. *)
Definition small : Standalone.hashmap :=
  Standalone.mk_hashmap (replicate 4 zero_entry) 4.

(** [small] after the sets of a, b, c, d, whose home slots are 0, 1, 2, 3. *)
Definition small_full : Standalone.hashmap :=
  Standalone.mk_hashmap
    [mk_entry (Live "a") (Live "1") true false;
     mk_entry (Live "b") (Live "2") true false;
     mk_entry (Live "c") (Live "3") true false;
     mk_entry (Live "d") (Live "4") true false] 4.

(** The server table [hashmap_create] returns. *)
Definition fresh_server : Server.hashmap :=
  Server.mk_hashmap (replicate (Z.to_nat Server.TABLE_SIZE) zero_entry).

(** ** The workload of the benchmark clients *)

Definition decimal (n : nat) : string :=
  NilEmpty.string_of_uint (Nat.to_uint n).

(** [snprintf (key, sizeof (key), "k%ld", i)] and the same with "v%ld". *)
Definition bench_key (i : nat) : string := "k" ++ decimal i.
Definition bench_val (i : nat) : string := "v" ++ decimal i.

(** The warm-up loop of the clients: one set per key of the keyspace. *)
Definition populate (keyspace : nat) : list op :=
  List.map (fun i => OSet (bench_key i) (bench_val i)) (List.seq 0 keyspace).

(** Every slot is Occupied by a key other than [k]. *)
Definition occupied_by_others (es : list kv_entry) (k : string) : bool :=
  forallb
    (fun e =>
       used e && negb (deleted e) &&
       match key e with
       | Live k' => negb (String.eqb k' k)
       | _ => false
       end) es.

(** The server table after the warm-up of a client with keyspace 1024. *)
Definition warmed_up : Server.hashmap :=
  match Server.hashmap_create true with
  | Some hm0 =>
      match ServerSpec.run (populate 1024) hm0 with
      | Some hm => hm
      | None => hm0
      end
  | None => Server.mk_hashmap []
  end.

(** ** Counting *)

(** Slots that are not Empty. *)
Definition used_count (es : list kv_entry) : nat :=
  List.length (List.filter used es).

(** Buffers the slots point to. *)
Definition owned_ptr (p : ptr) : nat :=
  match p with Live _ => 1%nat | _ => 0%nat end.

Fixpoint owned (es : list kv_entry) : nat :=
  match es with
  | [] => 0%nat
  | e :: es' => (owned_ptr (key e) + owned_ptr (val e) + owned es')%nat
  end.

Fixpoint count_sets (ops : list op) : nat :=
  match ops with
  | [] => 0%nat
  | OSet _ _ :: ops' => S (count_sets ops')
  | ODel _ :: ops' => count_sets ops'
  end.

(** No byte of [s] is NUL: [s] is the content of a C string. *)
Fixpoint no_nul (s : string) : bool :=
  match s with
  | EmptyString => true
  | String c s' => negb (Ascii.eqb c zero) && no_nul s'
  end.

(** A token the protocol can carry: not empty, no ':' and no NUL. *)
Definition tokenb (s : string) : bool :=
  negb (String.eqb s "") && no_colon s && no_nul s.

(** ** The warm-up of the standalone benchmark *)

Module StandaloneMain.
Import Standalone.

(** The first loop of [main]: one [hashmap_set] per key of the keyspace,
    every copy succeeding; [failures] counts the sets that return a negative
    value.  [n] rounds remain, [i] is the counter. *)
Fixpoint warm_up (n : nat) (i : nat) (hm : hashmap) (failures : Z)
    : option (hashmap * Z) :=
  match n with
  | O => Some (hm, failures)
  | S n' =>
      match hashmap_set alloc_ok hm (bench_key i) (bench_val i) with
      | None => None
      | Some (hm', r) =>
          warm_up n' (S i) hm'
            (if r <? 0 then wrap64 (failures + 1) else failures)
      end
  end.

End StandaloneMain.

(** ** The client *)

Module Client.

(** What [snprintf (buf, size, ...)] leaves in [buf] when the formatted
    text is [s]: its first [size - 1] bytes. *)
Definition snprintf (size : nat) (s : string) : string :=
  String.substring 0 (size - 1) s.

(** The bodies [main] formats into [body[BODY_MAX]]. *)
Definition set_body (k v : string) : string :=
  snprintf 256 ("set:" ++ k ++ ":" ++ v).

Definition get_body (k : string) : string := snprintf 256 ("get:" ++ k).

Definition del_body (k : string) : string := snprintf 256 ("del:" ++ k).

(** The packet [send_cmd] formats with ["%zu:%s"] and sends; [None] when it
    returns -1 because the text does not fit [packet[512]]. *)
Definition packet (body : string) : option string :=
  let p := decimal (String.length body) ++ ":" ++ body in
  let n := Z.of_nat (String.length p) in
  if (n <=? 0) || (512 <=? n) then None else Some p.

(** The body of the request for a table operation. *)
Definition body_of (o : op) : string :=
  match o with
  | OSet k v => set_body k v
  | ODel k => del_body k
  end.

(** The key and the value of the warm-up loop of [main], formatted into
    [key[KEY_MAX]] and [val[VAL_MAX]]. *)
Definition KEY_MAX : nat := 64.
Definition VAL_MAX : nat := 128.

Definition key_of (i : nat) : string := snprintf KEY_MAX (bench_key i).
Definition val_of (i : nat) : string := snprintf VAL_MAX (bench_val i).

(** The requests of the warm-up loop, one set per key of the keyspace. *)
Definition warm_up (keyspace : nat) : list op :=
  List.map (fun i => OSet (key_of i) (val_of i)) (List.seq 0 keyspace).

(** The packets of a list of requests; [None] when one is not sent. *)
Fixpoint packets (bodies : list string) : option (list string) :=
  match bodies with
  | [] => Some []
  | b :: bodies' =>
      match packet b, packets bodies' with
      | Some p, Some ps => Some (p :: ps)
      | _, _ => None
      end
  end.

End Client.

(** ** Further invariants *)

(** Slots that are not Occupied point to nothing. *)
Definition clean (es : list kv_entry) : Prop :=
  forall p e, 0 <= p -> slot es p = Some e -> state_of e <> Occupied ->
    key e = Null /\ val e = Null.

(** No slot is Empty. *)
Definition no_empty (es : list kv_entry) : Prop :=
  forall p e, 0 <= p -> slot es p = Some e -> used e = true.

(** What the standalone operations keep whatever the allocator does. *)
Definition tidy (hm : Standalone.hashmap) : Prop :=
  StandaloneSpec.wf hm /\ live (Standalone.entries hm) /\
  clean (Standalone.entries hm).

(** A table of capacity 4 whose slots are all tombstones: [small] after the
    sets and the deletes of a, b, c, d. *)
Definition small_tombs : Standalone.hashmap :=
  Standalone.mk_hashmap (replicate 4 (mk_entry Null Null true true)) 4.

(** No slot is a tombstone. *)
Definition tombless (es : list kv_entry) : Prop :=
  forall p e, 0 <= p -> slot es p = Some e -> deleted e = false.

Definition is_set (o : op) : Prop :=
  match o with OSet _ _ => True | ODel _ => False end.

(** What the server table keeps as long as only sets are made. *)
Definition sets_only_state (hm : Server.hashmap) : Prop :=
  StandaloneSpec.inv (ServerSpec.lift hm) /\ tombless (Server.entries hm).

(** A request of the client: key and value are tokens that fit [key[KEY_MAX]]
    and [val[VAL_MAX]]. *)
Definition fits (o : op) : bool :=
  match o with
  | OSet k v =>
      tokenb k && tokenb v &&
      (String.length k <? Client.KEY_MAX)%nat &&
      (String.length v <? Client.VAL_MAX)%nat
  | ODel k => tokenb k && (String.length k <? Client.KEY_MAX)%nat
  end.

(** * Properties *)

(** ** Arithmetic of masks and probes *)

Lemma land_mask (j x : Z) : 0 <= j -> Z.land x (2 ^ j - 1) = x mod 2 ^ j.
Proof.
  intros Hj. rewrite <- Z.land_ones by assumption.
  f_equal. rewrite Z.ones_equiv. lia.
Qed.

Lemma wrap64_small (x : Z) : 0 <= x < 2 ^ 64 -> wrap64 x = x.
Proof. intros H. unfold wrap64. apply Z.mod_small. assumption. Qed.

Lemma pow2_bounds (c : Z) : pow2 c -> 1 <= c <= 2 ^ 63.
Proof.
  intros (j & Hj & ->). split.
  - assert (0 < 2 ^ j) by (apply Z.pow_pos_nonneg; lia). lia.
  - apply Z.pow_le_mono_r; lia.
Qed.

Lemma mask_mod (c x : Z) :
  pow2 c -> Z.land x (wrap64 (c - 1)) = x mod c.
Proof.
  intros Hc. pose proof (pow2_bounds c Hc) as Hb.
  rewrite wrap64_small by lia.
  destruct Hc as (j & Hj & ->). apply land_mask. lia.
Qed.

Lemma mod_add_inj (c idx d d' : Z) :
  0 < c -> 0 <= d < c -> 0 <= d' < c ->
  (idx + d) mod c = (idx + d') mod c -> d = d'.
Proof.
  intros Hc Hd Hd' H.
  pose proof (Z.div_mod (idx + d) c ltac:(lia)) as E1.
  pose proof (Z.div_mod (idx + d') c ltac:(lia)) as E2.
  rewrite H in E1.
  assert ((idx + d) / c = (idx + d') / c) by nia.
  nia.
Qed.

Lemma strcmp_same (k : string) : strcmp (Live k) k = Some true.
Proof. simpl. now rewrite String.eqb_refl. Qed.

Lemma strcmp_diff (k' k : string) : k' <> k -> strcmp (Live k') k = Some false.
Proof. intros H. simpl. apply String.eqb_neq in H. now rewrite H. Qed.

Lemma strcmp_true (p : ptr) (k : string) : strcmp p k = Some true -> p = Live k.
Proof.
  destruct p; simpl; try discriminate.
  intros H. injection H as H. apply String.eqb_eq in H. now subst.
Qed.

Lemma strcmp_false (p : ptr) (k : string) :
  strcmp p k = Some false -> exists k', p = Live k' /\ k' <> k.
Proof.
  destruct p; simpl; try discriminate.
  intros H. injection H as H. apply String.eqb_neq in H. eauto.
Qed.

(** ** The loops of the standalone table, case by case *)

Module StandaloneLoops.
Import Standalone StandaloneSpec.

Ltac use_passes H :=
  let e := fresh "e" in
  let Hs := fresh "Hs" in
  let Hu := fresh "Hu" in
  let Hd := fresh "Hd" in
  let k' := fresh "k'" in
  let Hk := fresh "Hk" in
  let Hne := fresh "Hne" in
  destruct H as (e & Hs & Hu & [Hd | (Hd & k' & Hk & Hne)]);
  rewrite Hs; simpl; rewrite Hu; simpl; rewrite Hd; simpl;
  [ | rewrite Hk, (strcmp_diff _ _ Hne) ].

Lemma probe_at_nonneg hm idx i : 0 <= probe_at hm idx i.
Proof.
  unfold probe_at. apply Z.land_nonneg. left.
  unfold wrap64. apply Z.mod_pos_bound. lia.
Qed.

Lemma probe_at_mod hm idx i :
  wf hm -> 0 <= idx + i < 2 ^ 64 ->
  probe_at hm idx i = (idx + i) mod cap hm.
Proof.
  intros [Hc _] Hr. unfold probe_at.
  rewrite (wrap64_small (idx + i)) by assumption.
  now apply mask_mod.
Qed.

Lemma fnv_loop_range s : forall h, 0 <= h < 2 ^ 64 -> 0 <= fnv_loop s h < 2 ^ 64.
Proof.
  induction s as [|c s IH]; intros h Hh; simpl; [assumption|].
  apply IH. unfold wrap64. apply Z.mod_pos_bound. lia.
Qed.

Lemma fnv_hash_range s : 0 <= fnv_hash s < 2 ^ 64.
Proof. apply fnv_loop_range. lia. Qed.

Lemma home_mod hm k : wf hm -> home hm k = fnv_hash k mod cap hm.
Proof. intros [Hc _]. unfold home. now apply mask_mod. Qed.

Lemma home_range hm k : wf hm -> 0 <= home hm k < cap hm.
Proof.
  intros Hw. rewrite home_mod by assumption.
  destruct Hw as [Hc _]. apply pow2_bounds in Hc.
  apply Z.mod_pos_bound. lia.
Qed.

Lemma probe_range hm k i :
  wf hm -> 0 <= i < cap hm ->
  0 <= probe_at hm (home hm k) i < cap hm.
Proof.
  intros Hw Hi. pose proof (home_range hm k Hw) as Hh.
  pose proof (pow2_bounds _ (proj1 Hw)) as Hb.
  rewrite probe_at_mod by (try assumption; lia).
  apply Z.mod_pos_bound. lia.
Qed.

Lemma probe_inj hm k d d' :
  wf hm -> 0 <= d < cap hm -> 0 <= d' < cap hm ->
  probe_at hm (home hm k) d = probe_at hm (home hm k) d' -> d = d'.
Proof.
  intros Hw Hd Hd'. pose proof (home_range hm k Hw) as Hh.
  pose proof (pow2_bounds _ (proj1 Hw)) as Hb.
  rewrite !probe_at_mod by (try assumption; lia).
  apply mod_add_inj; lia.
Qed.

(** Every slot index is a probe position of every key. *)
Lemma probe_surj hm k p :
  wf hm -> 0 <= p < cap hm ->
  exists d, 0 <= d < cap hm /\ probe_at hm (home hm k) d = p.
Proof.
  intros Hw Hp. pose proof (home_range hm k Hw) as Hh.
  pose proof (pow2_bounds _ (proj1 Hw)) as Hb.
  exists ((p - home hm k) mod cap hm).
  assert (Hd : 0 <= (p - home hm k) mod cap hm < cap hm)
    by (apply Z.mod_pos_bound; lia).
  split; [assumption|].
  rewrite probe_at_mod by (try assumption; lia).
  rewrite Zplus_mod_idemp_r.
  replace (home hm k + (p - home hm k)) with p by lia.
  apply Z.mod_small. lia.
Qed.

Lemma slot_in_range hm p :
  wf hm -> 0 <= p < cap hm -> exists e, slot (entries hm) p = Some e.
Proof.
  intros [_ Hl] Hp. unfold slot.
  destruct (entries hm !! Z.to_nat p) as [e|] eqn:E; [eauto|].
  apply lookup_ge_None in E. lia.
Qed.

Lemma slot_store_eq es p e :
  0 <= p < Z.of_nat (length es) -> slot (store es p e) p = Some e.
Proof.
  intros Hp. unfold slot, store. apply list_lookup_insert_eq. lia.
Qed.

Lemma slot_store_ne es p q e :
  0 <= p -> 0 <= q -> p <> q -> slot (store es p e) q = slot es q.
Proof.
  intros Hp Hq Hne. unfold slot, store. apply list_lookup_insert_ne. lia.
Qed.

Lemma length_store es p e : length (store es p e) = length es.
Proof. unfold store. apply length_insert. Qed.

(** *** [hashmap_get] *)

Lemma get_loop_S hm k idx n i :
  get_loop hm k idx (S n) i =
  match slot (entries hm) (probe_at hm idx i) with
  | None => None
  | Some e =>
      if negb (used e) then Some Null
      else if deleted e then get_loop hm k idx n (i + 1)
      else
        match strcmp (key e) k with
        | None => None
        | Some true => Some (val e)
        | Some false => get_loop hm k idx n (i + 1)
        end
  end.
Proof. reflexivity. Qed.

Lemma get_loop_skip hm k idx m : forall n i,
  (forall j, i <= j < i + Z.of_nat m ->
     passes (entries hm) k (probe_at hm idx j)) ->
  get_loop hm k idx (m + n) i = get_loop hm k idx n (i + Z.of_nat m).
Proof.
  induction m as [|m IH]; intros n i Hp.
  - simpl. f_equal. lia.
  - change (S m + n)%nat with (S (m + n)). simpl get_loop.
    pose proof (Hp i ltac:(lia)) as Hi. use_passes Hi.
    + rewrite IH by (intros; apply Hp; lia). f_equal. lia.
    + rewrite IH by (intros; apply Hp; lia). f_equal. lia.
Qed.

Lemma split_rounds c d :
  0 <= d < c -> Z.to_nat c = (Z.to_nat d + S (Z.to_nat (c - d - 1)))%nat.
Proof. lia. Qed.

Lemma get_found hm k d e :
  0 <= d < cap hm ->
  (forall j, 0 <= j < d -> passes (entries hm) k (probe_at hm (home hm k) j)) ->
  holds (entries hm) k (probe_at hm (home hm k) d) e ->
  hashmap_get hm k = Some (val e).
Proof.
  intros Hd Hp (Hs & Hu & Hdel & Hk). unfold hashmap_get.
  rewrite (split_rounds _ d Hd), get_loop_skip
    by (intros; apply Hp; lia).
  replace (0 + Z.of_nat (Z.to_nat d)) with d by lia.
  rewrite get_loop_S, Hs, Hu, Hdel, Hk. simpl. now rewrite String.eqb_refl.
Qed.

Lemma get_vacant hm k d e :
  0 <= d < cap hm ->
  (forall j, 0 <= j < d -> passes (entries hm) k (probe_at hm (home hm k) j)) ->
  vacant (entries hm) (probe_at hm (home hm k) d) e ->
  hashmap_get hm k = Some Null.
Proof.
  intros Hd Hp (Hs & Hu). unfold hashmap_get.
  rewrite (split_rounds _ d Hd), get_loop_skip
    by (intros; apply Hp; lia).
  replace (0 + Z.of_nat (Z.to_nat d)) with d by lia.
  now rewrite get_loop_S, Hs, Hu.
Qed.

Lemma get_exhausted hm k :
  (forall j, 0 <= j < cap hm ->
     passes (entries hm) k (probe_at hm (home hm k) j)) ->
  hashmap_get hm k = Some Null.
Proof.
  intros Hp. unfold hashmap_get.
  rewrite <- (Nat.add_0_r (Z.to_nat (cap hm))), get_loop_skip.
  - reflexivity.
  - intros j Hj. apply Hp. lia.
Qed.

(** *** [hashmap_delete] *)

Lemma delete_loop_S hm k idx n i :
  delete_loop hm k idx (S n) i =
  match slot (entries hm) (probe_at hm idx i) with
  | None => None
  | Some e =>
      if negb (used e) then Some hm
      else if deleted e then delete_loop hm k idx n (i + 1)
      else
        match strcmp (key e) k with
        | None => None
        | Some true =>
            Some (put hm (probe_at hm idx i) (mk_entry Null Null (used e) true))
        | Some false => delete_loop hm k idx n (i + 1)
        end
  end.
Proof. reflexivity. Qed.

Lemma delete_loop_skip hm k idx m : forall n i,
  (forall j, i <= j < i + Z.of_nat m ->
     passes (entries hm) k (probe_at hm idx j)) ->
  delete_loop hm k idx (m + n) i = delete_loop hm k idx n (i + Z.of_nat m).
Proof.
  induction m as [|m IH]; intros n i Hp.
  - simpl. f_equal. lia.
  - change (S m + n)%nat with (S (m + n)). rewrite delete_loop_S.
    pose proof (Hp i ltac:(lia)) as Hi. use_passes Hi.
    + rewrite IH by (intros; apply Hp; lia). f_equal. lia.
    + rewrite IH by (intros; apply Hp; lia). f_equal. lia.
Qed.

Lemma delete_found hm k d e :
  0 <= d < cap hm ->
  (forall j, 0 <= j < d -> passes (entries hm) k (probe_at hm (home hm k) j)) ->
  holds (entries hm) k (probe_at hm (home hm k) d) e ->
  hashmap_delete hm k =
  Some (put hm (probe_at hm (home hm k) d) (mk_entry Null Null true true)).
Proof.
  intros Hd Hp (Hs & Hu & Hdel & Hk). unfold hashmap_delete.
  rewrite (split_rounds _ d Hd), delete_loop_skip
    by (intros; apply Hp; lia).
  replace (0 + Z.of_nat (Z.to_nat d)) with d by lia.
  rewrite delete_loop_S, Hs, Hu, Hdel, Hk. simpl.
  now rewrite String.eqb_refl.
Qed.

Lemma delete_vacant hm k d e :
  0 <= d < cap hm ->
  (forall j, 0 <= j < d -> passes (entries hm) k (probe_at hm (home hm k) j)) ->
  vacant (entries hm) (probe_at hm (home hm k) d) e ->
  hashmap_delete hm k = Some hm.
Proof.
  intros Hd Hp (Hs & Hu). unfold hashmap_delete.
  rewrite (split_rounds _ d Hd), delete_loop_skip
    by (intros; apply Hp; lia).
  replace (0 + Z.of_nat (Z.to_nat d)) with d by lia.
  now rewrite delete_loop_S, Hs, Hu.
Qed.

Lemma delete_exhausted hm k :
  (forall j, 0 <= j < cap hm ->
     passes (entries hm) k (probe_at hm (home hm k) j)) ->
  hashmap_delete hm k = Some hm.
Proof.
  intros Hp. unfold hashmap_delete.
  rewrite <- (Nat.add_0_r (Z.to_nat (cap hm))), delete_loop_skip.
  - reflexivity.
  - intros j Hj. apply Hp. lia.
Qed.

(** *** [hashmap_set] *)

Lemma set_loop_S a hm k v idx ft n i :
  set_loop a hm k v idx ft (S n) i =
  match slot (entries hm) (probe_at hm idx i) with
  | None => None
  | Some e =>
      if negb (used e) then
        let dst := if 0 <=? ft then ft else probe_at hm idx i in
        if is_null (strdup (key_ok a) k) || is_null (strdup (val_ok a) v)
        then Some (put hm dst (mk_entry Null Null false false), -1)
        else Some (put hm dst
                     (mk_entry (strdup (key_ok a) k) (strdup (val_ok a) v)
                        true false), 0)
      else if deleted e then
        set_loop a hm k v idx
          (if ft <? 0 then probe_at hm idx i else ft) n (i + 1)
      else
        match strcmp (key e) k with
        | None => None
        | Some true =>
            if is_null (strdup (val_ok a) v) then Some (hm, -1)
            else Some (put hm (probe_at hm idx i)
                         (mk_entry (key e) (strdup (val_ok a) v)
                            (used e) (deleted e)), 0)
        | Some false => set_loop a hm k v idx ft n (i + 1)
        end
  end.
Proof. reflexivity. Qed.

(** Passing [m] slots leaves [first_tomb] as it was, or sets it to the
    position of a tombstone among them. *)
Lemma set_loop_skip a hm k v idx m : forall n ft i,
  (forall j, i <= j < i + Z.of_nat m ->
     passes (entries hm) k (probe_at hm idx j)) ->
  exists ft',
    set_loop a hm k v idx ft (m + n) i =
    set_loop a hm k v idx ft' n (i + Z.of_nat m) /\
    (ft' = ft \/
     (ft < 0 /\ exists t, i <= t < i + Z.of_nat m /\
        ft' = probe_at hm idx t /\ tomb (entries hm) (probe_at hm idx t))).
Proof.
  induction m as [|m IH]; intros n ft i Hp.
  - exists ft. split; [|now left]. simpl. f_equal. lia.
  - change (S m + n)%nat with (S (m + n)). rewrite set_loop_S.
    pose proof (Hp i ltac:(lia)) as Hi.
    assert (Hrest : forall j, i + 1 <= j < i + 1 + Z.of_nat m ->
              passes (entries hm) k (probe_at hm idx j))
      by (intros; apply Hp; lia).
    destruct Hi as (e & Hs & Hu & [Hd | (Hd & k' & Hk & Hne)]);
      rewrite Hs, Hu; simpl; rewrite Hd.
    + destruct (IH n (if ft <? 0 then probe_at hm idx i else ft) (i + 1) Hrest)
        as (ft' & E & Hft).
      exists ft'. split.
      { rewrite E. f_equal. lia. }
      destruct (Z.ltb_spec ft 0) as [Hneg|Hpos].
      * right. split; [assumption|].
        destruct Hft as [-> | (Hlt & _)].
        -- exists i. repeat split; try lia. exists e. auto.
        -- pose proof (probe_at_nonneg hm idx i). lia.
      * destruct Hft as [-> | (Hlt & _)]; [now left | lia].
    + rewrite Hk, (strcmp_diff _ _ Hne).
      destruct (IH n ft (i + 1) Hrest) as (ft' & E & Hft).
      exists ft'. split.
      { rewrite E. f_equal. lia. }
      destruct Hft as [-> | (Hlt & t & Ht & Eft & Htomb)]; [now left|].
      right. split; [assumption|]. exists t. repeat split; try lia; assumption.
Qed.

Lemma set_insert a hm k v d e :
  0 <= d < cap hm ->
  (forall j, 0 <= j < d -> passes (entries hm) k (probe_at hm (home hm k) j)) ->
  vacant (entries hm) (probe_at hm (home hm k) d) e ->
  exists t, 0 <= t <= d /\
    (t < d -> tomb (entries hm) (probe_at hm (home hm k) t)) /\
    hashmap_set a hm k v =
    Some (if key_ok a && val_ok a
          then (put hm (probe_at hm (home hm k) t)
                  (mk_entry (Live k) (Live v) true false), 0)
          else (put hm (probe_at hm (home hm k) t)
                  (mk_entry Null Null false false), -1)).
Proof.
  intros Hd Hp (Hs & Hu). unfold hashmap_set.
  rewrite (split_rounds _ d Hd).
  destruct (set_loop_skip a hm k v (home hm k) (Z.to_nat d)
              (S (Z.to_nat (cap hm - d - 1))) (-1) 0) as (ft' & E & Hft).
  { intros; apply Hp; lia. }
  rewrite E. replace (0 + Z.of_nat (Z.to_nat d)) with d by lia.
  rewrite set_loop_S, Hs, Hu. simpl negb. cbv iota. cbv zeta.
  destruct Hft as [-> | (_ & t & Ht & -> & Htomb)].
  - exists d. split; [lia|]. split; [lia|].
    change (0 <=? -1) with false. cbv iota.
    destruct a as [[] []]; reflexivity.
  - exists t. split; [lia|]. split; [intros _; assumption|].
    pose proof (probe_at_nonneg hm (home hm k) t) as Hn.
    apply Z.leb_le in Hn. rewrite Hn.
    destruct a as [[] []]; reflexivity.
Qed.

Lemma set_update a hm k v d e :
  0 <= d < cap hm ->
  (forall j, 0 <= j < d -> passes (entries hm) k (probe_at hm (home hm k) j)) ->
  holds (entries hm) k (probe_at hm (home hm k) d) e ->
  hashmap_set a hm k v =
  Some (if val_ok a
        then (put hm (probe_at hm (home hm k) d)
                (mk_entry (Live k) (Live v) true false), 0)
        else (hm, -1)).
Proof.
  intros Hd Hp (Hs & Hu & Hdel & Hk). unfold hashmap_set.
  rewrite (split_rounds _ d Hd).
  destruct (set_loop_skip a hm k v (home hm k) (Z.to_nat d)
              (S (Z.to_nat (cap hm - d - 1))) (-1) 0) as (ft' & E & _).
  { intros; apply Hp; lia. }
  rewrite E. replace (0 + Z.of_nat (Z.to_nat d)) with d by lia.
  rewrite set_loop_S, Hs, Hu, Hdel, Hk, strcmp_same. simpl negb. cbv iota.
  destruct a as [ka []]; reflexivity.
Qed.

Lemma set_exhausted a hm k v :
  (forall j, 0 <= j < cap hm ->
     passes (entries hm) k (probe_at hm (home hm k) j)) ->
  hashmap_set a hm k v = Some (hm, -1).
Proof.
  intros Hp. unfold hashmap_set.
  rewrite <- (Nat.add_0_r (Z.to_nat (cap hm))).
  destruct (set_loop_skip a hm k v (home hm k) (Z.to_nat (cap hm)) 0 (-1) 0)
    as (ft' & E & _).
  { intros j Hj. apply Hp. lia. }
  rewrite E. reflexivity.
Qed.

(** *** Where a probe ends *)

Lemma classify hm k p :
  wf hm -> live (entries hm) -> 0 <= p < cap hm ->
  passes (entries hm) k p \/
  (exists e, holds (entries hm) k p e) \/
  (exists e, vacant (entries hm) p e).
Proof.
  intros Hw Hl Hp. destruct (slot_in_range hm p Hw Hp) as (e & Hs).
  destruct (used e) eqn:Hu.
  - destruct (deleted e) eqn:Hd.
    + left. exists e. auto.
    + destruct (Hl p e ltac:(lia) Hs) as (k' & v' & Hk & _).
      { unfold state_of. now rewrite Hu, Hd. }
      destruct (string_dec k' k) as [->|Hne].
      * right. left. exists e. repeat split; assumption.
      * left. exists e. split; [assumption|]. split; [assumption|].
        right. eauto.
  - right. right. exists e. split; assumption.
Qed.

Lemma probe_cases hm k :
  wf hm -> live (entries hm) ->
  (forall j, 0 <= j < cap hm ->
     passes (entries hm) k (probe_at hm (home hm k) j)) \/
  exists d, 0 <= d < cap hm /\
    (forall j, 0 <= j < d ->
       passes (entries hm) k (probe_at hm (home hm k) j)) /\
    ((exists e, holds (entries hm) k (probe_at hm (home hm k) d) e) \/
     (exists e, vacant (entries hm) (probe_at hm (home hm k) d) e)).
Proof.
  intros Hw Hl.
  assert (G : forall n : nat, Z.of_nat n <= cap hm ->
    (forall j, 0 <= j < Z.of_nat n ->
       passes (entries hm) k (probe_at hm (home hm k) j)) \/
    exists d, 0 <= d < Z.of_nat n /\
      (forall j, 0 <= j < d ->
         passes (entries hm) k (probe_at hm (home hm k) j)) /\
      ((exists e, holds (entries hm) k (probe_at hm (home hm k) d) e) \/
       (exists e, vacant (entries hm) (probe_at hm (home hm k) d) e))).
  { induction n as [|n IH]; intros Hn.
    - left. intros j Hj. lia.
    - destruct IH as [Hall | (d & Hd & Hp & Hend)]; [lia| |].
      + destruct (classify hm k (probe_at hm (home hm k) (Z.of_nat n)) Hw Hl)
          as [Hpass | Hstop].
        { apply probe_range; [assumption | lia]. }
        * left. intros j Hj.
          destruct (Z.eq_dec j (Z.of_nat n)) as [->|]; [assumption|].
          apply Hall. lia.
        * right. exists (Z.of_nat n). split; [lia|]. split; [|assumption].
          intros j Hj. apply Hall. lia.
      + right. exists d. split; [lia|]. split; assumption. }
  pose proof (pow2_bounds _ (proj1 Hw)) as Hb.
  destruct (G (Z.to_nat (cap hm)) ltac:(lia)) as [Hall | (d & Hd & Hp & Hend)].
  - left. intros j Hj. apply Hall. lia.
  - right. exists d. split; [lia|]. split; assumption.
Qed.

End StandaloneLoops.

(** ** The invariant of the standalone table *)

Lemma occupied_iff e :
  state_of e = Occupied <-> used e = true /\ deleted e = false.
Proof.
  unfold state_of. destruct (used e), (deleted e); simpl; split;
    intros H; try discriminate; try tauto; destruct H; discriminate.
Qed.

Module StandaloneInv.
Import Standalone StandaloneSpec StandaloneLoops.

Lemma slot_lt hm p e :
  wf hm -> 0 <= p -> slot (entries hm) p = Some e -> p < cap hm.
Proof.
  intros [_ Hl] Hp Hs. unfold slot in Hs.
  apply lookup_lt_Some in Hs. lia.
Qed.

Lemma wf_put hm p e : wf hm -> wf (put hm p e).
Proof.
  intros [Hc Hl]. split; simpl; [assumption|]. now rewrite length_store.
Qed.

Lemma slot_put_eq hm p e :
  wf hm -> 0 <= p < cap hm -> slot (entries (put hm p e)) p = Some e.
Proof. intros [_ Hl] Hp. simpl. apply slot_store_eq. lia. Qed.

Lemma slot_put_ne hm p q e :
  0 <= p -> 0 <= q -> p <> q ->
  slot (entries (put hm p e)) q = slot (entries hm) q.
Proof. intros. simpl. now apply slot_store_ne. Qed.

Lemma fresh_slot hm p e :
  fresh hm -> slot (entries hm) p = Some e -> e = zero_entry.
Proof.
  intros [_ He] Hs. unfold slot in Hs. rewrite He in Hs.
  apply lookup_replicate in Hs. tauto.
Qed.

Lemma inv_fresh hm : fresh hm -> inv hm.
Proof.
  intros Hf. pose proof Hf as [Hc He].
  pose proof (pow2_bounds _ Hc) as Hb.
  repeat split.
  - assumption.
  - rewrite He, length_replicate. lia.
  - intros p e _ Hs Ho. rewrite (fresh_slot hm p e Hf Hs) in Ho. discriminate.
  - intros p e k _ Hs Ho. rewrite (fresh_slot hm p e Hf Hs) in Ho. discriminate.
  - intros p q e1 e2 k _ _ Hs _ Ho.
    rewrite (fresh_slot hm p e1 Hf Hs) in Ho. discriminate.
Qed.

(** Writing a used entry keeps every probe path over used slots. *)
Lemma reach_put hm p e' k q :
  wf hm -> 0 <= p < cap hm -> used e' = true ->
  reach hm k q -> reach (put hm p e') k q.
Proof.
  intros Hw Hp Hu (d & Hd & Hq & Hpath).
  exists d. split; [assumption|]. split; [assumption|].
  intros i Hi. destruct (Hpath i Hi) as (e & Hs & Hue).
  change (probe_at (put hm p e') (home (put hm p e') k) i)
    with (probe_at hm (home hm k) i).
  destruct (Z.eq_dec p (probe_at hm (home hm k) i)) as [<-|Hne].
  - exists e'. split; [now apply slot_put_eq | assumption].
  - exists e. split; [|assumption].
    rewrite slot_put_ne; try assumption; try lia.
    apply probe_at_nonneg.
Qed.

Lemma inv_put hm p e' :
  inv hm -> 0 <= p < cap hm -> used e' = true ->
  (state_of e' = Occupied ->
   exists k v, key e' = Live k /\ val e' = Live v /\ reach hm k p /\
     forall q e, 0 <= q -> q <> p -> slot (entries hm) q = Some e ->
       state_of e = Occupied -> key e <> Live k) ->
  inv (put hm p e').
Proof.
  intros (Hw & Hl & Hc & Hq) Hp Hu Hnew.
  split; [now apply wf_put|]. split; [|split].
  - intros q e Hq0 Hs Ho.
    destruct (Z.eq_dec p q) as [<-|Hne].
    + rewrite slot_put_eq in Hs by assumption. injection Hs as <-.
      destruct (Hnew Ho) as (k & v & Hk & Hv & _). eauto.
    + rewrite slot_put_ne in Hs by lia. eauto.
  - intros q e k Hq0 Hs Ho Hk.
    apply reach_put; try assumption.
    destruct (Z.eq_dec p q) as [<-|Hne].
    + rewrite slot_put_eq in Hs by assumption. injection Hs as <-.
      destruct (Hnew Ho) as (k0 & v & Hk0 & _ & Hr & _).
      rewrite Hk in Hk0. injection Hk0 as <-. assumption.
    + rewrite slot_put_ne in Hs by lia. eapply Hc; eauto.
  - intros q1 q2 e1 e2 k H1 H2 Hs1 Hs2 Ho1 Ho2 Hk1 Hk2.
    destruct (Z.eq_dec p q1) as [E1|N1]; destruct (Z.eq_dec p q2) as [E2|N2].
    + congruence.
    + subst q1. rewrite slot_put_eq in Hs1 by assumption. injection Hs1 as <-.
      rewrite slot_put_ne in Hs2 by lia.
      destruct (Hnew Ho1) as (k0 & v & Hk0 & _ & _ & Hoth).
      rewrite Hk1 in Hk0. injection Hk0 as <-.
      exfalso. eapply (Hoth q2 e2); eauto.
    + subst q2. rewrite slot_put_eq in Hs2 by assumption. injection Hs2 as <-.
      rewrite slot_put_ne in Hs1 by lia.
      destruct (Hnew Ho2) as (k0 & v & Hk0 & _ & _ & Hoth).
      rewrite Hk2 in Hk0. injection Hk0 as <-.
      exfalso. eapply (Hoth q1 e1); eauto.
    + rewrite slot_put_ne in Hs1 by lia. rewrite slot_put_ne in Hs2 by lia.
      eapply Hq; eauto.
Qed.

Lemma passes_used es k p :
  passes es k p -> exists e, slot es p = Some e /\ used e = true.
Proof. intros (e & Hs & Hu & _). eauto. Qed.

Lemma passes_not_held es k p e :
  passes es k p -> slot es p = Some e -> state_of e = Occupied ->
  key e <> Live k.
Proof.
  intros (e' & Hs' & _ & H) Hs Ho Hk.
  rewrite Hs in Hs'. injection Hs' as <-.
  apply occupied_iff in Ho as [_ Hd].
  destruct H as [Hd' | (_ & k' & Hk' & Hne)]; congruence.
Qed.

(** A probe that ends on an Empty slot, or on none, has met every Occupied
    slot that could hold the key. *)
Lemma absent_after_passes hm k d :
  inv hm -> 0 <= d <= cap hm ->
  (forall j, 0 <= j < d -> passes (entries hm) k (probe_at hm (home hm k) j)) ->
  (d < cap hm ->
   exists e, vacant (entries hm) (probe_at hm (home hm k) d) e) ->
  forall q e, 0 <= q -> slot (entries hm) q = Some e ->
    state_of e = Occupied -> key e <> Live k.
Proof.
  intros (Hw & Hl & Hc & Hq) Hd Hp Hend q e Hq0 Hs Ho Hk.
  pose proof (slot_lt hm q e Hw Hq0 Hs) as Hlt.
  destruct (Hc q e k ltac:(lia) Hs Ho Hk) as (d0 & Hd0 & Hpq & Hpath).
  destruct (Z.lt_ge_cases d0 d) as [Hlo|Hhi].
  - subst q. exact (passes_not_held _ _ _ _ (Hp d0 ltac:(lia)) Hs Ho Hk).
  - destruct (Hend ltac:(lia)) as (ev & Hsv & Huv).
    destruct (Z.eq_dec d0 d) as [->|Hne].
    + subst q. rewrite Hs in Hsv. injection Hsv as <-.
      apply occupied_iff in Ho as [Hu _]. congruence.
    + destruct (Hpath d ltac:(lia)) as (e1 & Hs1 & Hu1). congruence.
Qed.

(** *** Creation *)

Lemma shift_pow2 j : 0 <= j < 63 -> wrap64 (Z.shiftl (2 ^ j) 1) = 2 ^ (j + 1).
Proof.
  intros Hj. rewrite Z.shiftl_mul_pow2 by lia.
  rewrite <- Z.pow_add_r by lia. apply wrap64_small.
  split; [apply Z.pow_nonneg; lia | apply Z.pow_lt_mono_r; lia].
Qed.

Lemma next_pow2_loop_pow2 x : forall fuel j c,
  0 <= j < 64 -> Z.of_nat fuel + j = 64 ->
  next_pow2_loop fuel x (2 ^ j) = Some c -> pow2 c.
Proof.
  induction fuel as [|f IH]; intros j c Hj Hf; [lia|].
  simpl. destruct (Z.ltb_spec (2 ^ j) x) as [Hlt|Hge].
  - destruct (Z.eq_dec j 63) as [->|Hne].
    + assert (f = 0%nat) as -> by lia. simpl.
      change (wrap64 (Z.shiftl (2 ^ 63) 1)) with 0.
      destruct (Z.ltb_spec 0 x); [discriminate|].
      assert (0 < 2 ^ 63) by (apply Z.pow_pos_nonneg; lia). lia.
    + rewrite shift_pow2 by lia. apply IH; lia.
  - intros H. injection H as <-. exists j. auto.
Qed.

Lemma next_pow2_loop_total x : x <= 2 ^ 63 -> forall fuel j,
  0 <= j < 64 -> Z.of_nat fuel + j = 64 ->
  exists c, next_pow2_loop fuel x (2 ^ j) = Some c /\ x <= c.
Proof.
  intros Hx. induction fuel as [|f IH]; intros j Hj Hf; [lia|].
  simpl. destruct (Z.ltb_spec (2 ^ j) x) as [Hlt|Hge].
  - assert (j < 63).
    { destruct (Z.lt_ge_cases j 63) as [|Hge]; [assumption|].
      assert (2 ^ 63 <= 2 ^ j) by (apply Z.pow_le_mono_r; lia). lia. }
    rewrite shift_pow2 by lia. apply IH; lia.
  - eauto.
Qed.

Lemma create_fresh ok n hm : hashmap_create ok n = Table hm -> fresh hm.
Proof.
  unfold hashmap_create, next_pow2.
  destruct (next_pow2_loop 64 _ 1) as [c|] eqn:E; [|discriminate].
  destruct ok; [|discriminate]. intros H. injection H as <-.
  split; simpl; [|reflexivity].
  apply (next_pow2_loop_pow2 (wrap64 (n * 2 + 1)) 64%nat 0 c);
    [lia | lia | exact E].
Qed.

(** [hashmap_create] returns a table whenever memory is granted and the
    doubled hint fits: the sizing loop ends. *)
Lemma create_total n :
  0 <= n < 2 ^ 62 ->
  exists hm, hashmap_create true n = Table hm /\ 2 * n + 1 <= cap hm.
Proof.
  intros Hn. unfold hashmap_create, next_pow2.
  rewrite (wrap64_small (n * 2 + 1)) by lia.
  destruct (next_pow2_loop_total (n * 2 + 1) ltac:(lia) 64%nat 0)
    as (c & E & Hc); [lia | lia |].
  change (2 ^ 0) with 1 in E. rewrite E.
  eexists. split; [reflexivity|]. simpl. lia.
Qed.

(** *** Preservation *)

Lemma set_defined hm k v :
  inv hm ->
  exists hm' r, hashmap_set alloc_ok hm k v = Some (hm', r) /\
    (r = 0 \/ (r = -1 /\ hm' = hm)).
Proof.
  intros (Hw & Hl & Hc & Hq).
  destruct (probe_cases hm k Hw Hl)
    as [Hall | (d & Hd & Hp & [(e & Hh) | (e & Hv)])].
  - exists hm, (-1). split; [now apply set_exhausted | now right].
  - rewrite (set_update alloc_ok hm k v d e Hd Hp Hh). simpl. eauto.
  - destruct (set_insert alloc_ok hm k v d e Hd Hp Hv) as (t & Ht & _ & E).
    rewrite E. simpl. eauto.
Qed.

Lemma passes_put es k p q e' :
  0 <= p -> 0 <= q -> p <> q ->
  passes es k q -> passes (store es p e') k q.
Proof.
  intros Hp Hq0 Hne (e & Hs & H). exists e. split; [|assumption].
  rewrite slot_store_ne by assumption. assumption.
Qed.

Lemma set_ok_result a hm k v hm' :
  inv hm -> hashmap_set a hm k v = Some (hm', 0) ->
  inv hm' /\ bound hm' k v.
Proof.
  intros Hinv Hset. pose proof Hinv as (Hw & Hl & Hc & Hq).
  assert (Hother : forall d t, 0 <= d < cap hm -> 0 <= t <= d ->
            (forall j, 0 <= j < d ->
               passes (entries hm) k (probe_at hm (home hm k) j)) ->
            forall j, 0 <= j < t ->
              passes (entries (put hm (probe_at hm (home hm k) t)
                                 (mk_entry (Live k) (Live v) true false))) k
                (probe_at hm (home hm k) j)).
  { intros d t Hd Ht Hp j Hj. simpl. apply passes_put.
    - apply probe_at_nonneg.
    - apply probe_at_nonneg.
    - intros E. apply probe_inj in E; try assumption; lia.
    - apply Hp. lia. }
  destruct (probe_cases hm k Hw Hl)
    as [Hall | (d & Hd & Hp & [(e & Hh) | (e & Hv)])].
  - rewrite (set_exhausted a hm k v Hall) in Hset. discriminate.
  - rewrite (set_update a hm k v d e Hd Hp Hh) in Hset.
    destruct (val_ok a); [|discriminate]. injection Hset as <-.
    pose proof (probe_range hm k d Hw Hd) as Hr.
    destruct Hh as (Hs & Hu & Hdel & Hk).
    assert (Ho : state_of e = Occupied) by (apply occupied_iff; auto).
    split.
    + apply inv_put; try assumption; try reflexivity.
      intros _. exists k, v. repeat split.
      * eapply Hc; eauto.
      * intros q e0 Hq0 Hne Hs0 Ho0 Hk0. apply Hne.
        eapply (Hq q _ e0 e k); eauto. lia.
    + exists d, (mk_entry (Live k) (Live v) true false).
      split; [assumption|]. split; [|split; [|reflexivity]].
      * apply (Hother d d); try assumption; lia.
      * split; [|auto]. now apply slot_put_eq.
  - destruct (set_insert a hm k v d e Hd Hp Hv) as (t & Ht & Htomb & E).
    rewrite E in Hset.
    destruct (key_ok a && val_ok a); [|discriminate]. injection Hset as <-.
    pose proof (probe_range hm k t Hw ltac:(lia)) as Hr.
    split.
    + apply inv_put; try assumption; try reflexivity.
      intros _. exists k, v. repeat split.
      * exists t. split; [lia|]. split; [reflexivity|].
        intros i Hi. apply (passes_used _ k). apply Hp. lia.
      * intros q e0 Hq0 _ Hs0 Ho0.
        apply (absent_after_passes hm k d Hinv ltac:(lia) Hp
                 (fun _ => ex_intro _ e Hv) q e0); assumption.
    + exists t, (mk_entry (Live k) (Live v) true false).
      split; [simpl; lia|]. split; [|split; [|reflexivity]].
      * apply (Hother d t); try assumption; lia.
      * split; [|auto]. now apply slot_put_eq.
Qed.

Lemma set_inv hm k v :
  inv hm ->
  exists hm' r, hashmap_set alloc_ok hm k v = Some (hm', r) /\ inv hm'.
Proof.
  intros Hinv.
  destruct (set_defined hm k v Hinv) as (hm' & r & E & [-> | (-> & ->)]).
  - exists hm', 0. split; [assumption|].
    now apply (set_ok_result alloc_ok hm k v hm').
  - eauto.
Qed.

Lemma delete_inv hm k :
  inv hm -> exists hm', hashmap_delete hm k = Some hm' /\ inv hm'.
Proof.
  intros Hinv. pose proof Hinv as (Hw & Hl & Hc & Hq).
  destruct (probe_cases hm k Hw Hl)
    as [Hall | (d & Hd & Hp & [(e & Hh) | (e & Hv)])].
  - exists hm. split; [now apply delete_exhausted | assumption].
  - rewrite (delete_found hm k d e Hd Hp Hh). eexists. split; [reflexivity|].
    apply inv_put; try assumption; try reflexivity.
    + now apply probe_range.
    + intros Ho. discriminate.
  - exists hm. split; [now apply (delete_vacant hm k d e) | assumption].
Qed.

Lemma step_inv hm o :
  inv hm -> exists hm', step hm o = Some hm' /\ inv hm'.
Proof.
  intros Hinv. destruct o as [k v|k]; simpl.
  - destruct (set_inv hm k v Hinv) as (hm' & r & E & Hi). rewrite E. eauto.
  - now apply delete_inv.
Qed.

Lemma run_inv ops : forall hm,
  inv hm -> exists hm', run ops hm = Some hm' /\ inv hm'.
Proof.
  induction ops as [|o ops IH]; intros hm Hinv; simpl.
  - eauto.
  - destruct (step_inv hm o Hinv) as (hm1 & E & Hi). rewrite E. now apply IH.
Qed.

Lemma reachable_inv hm : reachable hm -> inv hm.
Proof.
  intros (n & ops & hm0 & Hc & Hr).
  destruct (run_inv ops hm0) as (hm' & E & Hi).
  - apply inv_fresh. eapply create_fresh. eassumption.
  - congruence.
Qed.

(** *** Lookups of absent and bound keys *)

Lemma absent_lookup hm k :
  wf hm -> live (entries hm) -> absent hm k ->
  hashmap_get hm k = Some Null /\ hashmap_delete hm k = Some hm.
Proof.
  intros Hw Hl Habs.
  destruct (probe_cases hm k Hw Hl)
    as [Hall | (d & Hd & Hp & [(e & Hh) | (e & Hv)])].
  - split; [now apply get_exhausted | now apply delete_exhausted].
  - destruct Hh as (Hs & Hu & Hdel & Hk). exfalso.
    apply (Habs (probe_at hm (home hm k) d) e); try assumption.
    + apply probe_at_nonneg.
    + apply occupied_iff. auto.
  - split; [now apply (get_vacant hm k d e) | now apply (delete_vacant hm k d e)].
Qed.

Lemma delete_absent hm k hm1 :
  inv hm -> hashmap_delete hm k = Some hm1 -> inv hm1 /\ absent hm1 k.
Proof.
  intros Hinv Hdel. pose proof Hinv as (Hw & Hl & Hc & Hq).
  destruct (probe_cases hm k Hw Hl)
    as [Hall | (d & Hd & Hp & [(e & Hh) | (e & Hv)])].
  - rewrite (delete_exhausted hm k Hall) in Hdel. injection Hdel as <-.
    split; [assumption|].
    pose proof (pow2_bounds _ (proj1 Hw)).
    unfold absent.
    apply (absent_after_passes hm k (cap hm) Hinv ltac:(lia) Hall).
    intros; lia.
  - rewrite (delete_found hm k d e Hd Hp Hh) in Hdel. injection Hdel as <-.
    pose proof (probe_range hm k d Hw Hd) as Hr.
    destruct Hh as (Hs & Hu & Hdl & Hk).
    split.
    + apply inv_put; try assumption; try reflexivity. discriminate.
    + intros q e0 Hq0 Hs0 Ho0 Hk0.
      destruct (Z.eq_dec (probe_at hm (home hm k) d) q) as [<-|Hne].
      * rewrite slot_put_eq in Hs0 by assumption. injection Hs0 as <-.
        discriminate.
      * rewrite slot_put_ne in Hs0 by lia. apply Hne.
        eapply (Hq _ q e e0 k); eauto; try lia. apply occupied_iff. auto.
  - rewrite (delete_vacant hm k d e Hd Hp Hv) in Hdel. injection Hdel as <-.
    split; [assumption|]. unfold absent.
    apply (absent_after_passes hm k d Hinv ltac:(lia) Hp). eauto.
Qed.

Lemma bound_get hm k v : bound hm k v -> hashmap_get hm k = Some (Live v).
Proof.
  intros (d & e & Hd & Hp & Hh & Hv). rewrite <- Hv.
  now apply (get_found hm k d e).
Qed.

(** Writing, over a slot that did not hold [k], an entry the probe for [k]
    passes keeps [k] bound. *)
Lemma bound_put hm k v p e0 e' :
  wf hm -> bound hm k v -> 0 <= p < cap hm ->
  slot (entries hm) p = Some e0 ->
  ~ (state_of e0 = Occupied /\ key e0 = Live k) ->
  used e' = true ->
  (deleted e' = true \/
   (deleted e' = false /\ exists k', key e' = Live k' /\ k' <> k)) ->
  bound (put hm p e') k v.
Proof.
  intros Hw (d & e & Hd & Hp & Hh & Hv) Hr Hs0 Hnot Hu Hpass.
  exists d, e. split; [assumption|]. split; [|split; [|assumption]].
  - intros j Hj.
    change (home (put hm p e') k) with (home hm k).
    change (probe_at (put hm p e') (home hm k) j)
      with (probe_at hm (home hm k) j).
    destruct (Z.eq_dec p (probe_at hm (home hm k) j)) as [<-|Hne].
    + exists e'. split; [now apply slot_put_eq | auto].
    + simpl. apply passes_put; try lia; [apply probe_at_nonneg | now apply Hp].
  - destruct Hh as (Hs & Hue & Hde & Hk).
    change (home (put hm p e') k) with (home hm k).
    change (probe_at (put hm p e') (home hm k) d)
      with (probe_at hm (home hm k) d).
    repeat split; try assumption.
    rewrite slot_put_ne; try assumption; try lia.
    + apply probe_at_nonneg.
    + intros ->. apply Hnot. rewrite Hs in Hs0. injection Hs0 as <-.
      split; [apply occupied_iff; auto | assumption].
Qed.

Lemma set_frame hm k v hm' r :
  inv hm -> hashmap_set alloc_ok hm k v = Some (hm', r) ->
  hm' = hm \/
  exists p e0, 0 <= p < cap hm /\ slot (entries hm) p = Some e0 /\
    (state_of e0 = Occupied -> key e0 = Live k) /\
    hm' = put hm p (mk_entry (Live k) (Live v) true false).
Proof.
  intros (Hw & Hl & Hc & Hq) Hset.
  destruct (probe_cases hm k Hw Hl)
    as [Hall | (d & Hd & Hp & [(e & Hh) | (e & Hv)])].
  - rewrite (set_exhausted _ hm k v Hall) in Hset. injection Hset as <- <-.
    now left.
  - rewrite (set_update _ hm k v d e Hd Hp Hh) in Hset. simpl in Hset.
    injection Hset as <- <-. right.
    exists (probe_at hm (home hm k) d), e.
    split; [now apply probe_range|].
    destruct Hh as (Hs & _ & _ & Hk). auto.
  - destruct (set_insert alloc_ok hm k v d e Hd Hp Hv) as (t & Ht & Htomb & E).
    rewrite E in Hset. simpl in Hset. injection Hset as <- <-. right.
    destruct (Z.eq_dec t d) as [->|Hne].
    + exists (probe_at hm (home hm k) d), e.
      split; [now apply probe_range|].
      destruct Hv as (Hs & Hu). split; [assumption|]. split; [|reflexivity].
      intros Ho. apply occupied_iff in Ho as [Hu' _]. congruence.
    + destruct (Htomb ltac:(lia)) as (e0 & Hs & Hu & Hdl).
      exists (probe_at hm (home hm k) t), e0.
      split; [apply probe_range; [assumption | lia]|].
      split; [assumption|]. split; [|reflexivity].
      intros Ho. apply occupied_iff in Ho as [_ Hd']. congruence.
Qed.

Lemma delete_frame hm k hm' :
  inv hm -> hashmap_delete hm k = Some hm' ->
  hm' = hm \/
  exists p e0, 0 <= p < cap hm /\ slot (entries hm) p = Some e0 /\
    state_of e0 = Occupied /\ key e0 = Live k /\
    hm' = put hm p (mk_entry Null Null true true).
Proof.
  intros (Hw & Hl & Hc & Hq) Hdel.
  destruct (probe_cases hm k Hw Hl)
    as [Hall | (d & Hd & Hp & [(e & Hh) | (e & Hv)])].
  - rewrite (delete_exhausted hm k Hall) in Hdel. injection Hdel as <-.
    now left.
  - rewrite (delete_found hm k d e Hd Hp Hh) in Hdel. injection Hdel as <-.
    right. exists (probe_at hm (home hm k) d), e.
    split; [now apply probe_range|].
    destruct Hh as (Hs & Hu & Hdl & Hk).
    repeat split; try assumption. apply occupied_iff. auto.
  - rewrite (delete_vacant hm k d e Hd Hp Hv) in Hdel. injection Hdel as <-.
    now left.
Qed.

Lemma bound_step hm k v o hm' :
  inv hm -> bound hm k v -> op_key o <> k -> step hm o = Some hm' ->
  bound hm' k v.
Proof.
  intros Hinv Hb Hne Hstep. pose proof Hinv as (Hw & _).
  destruct o as [k' v'|k']; simpl in Hne, Hstep.
  - destruct (hashmap_set alloc_ok hm k' v') as [[hm1 r]|] eqn:E;
      [|discriminate]. injection Hstep as ->.
    destruct (set_frame hm k' v' hm' r Hinv E)
      as [-> | (p & e0 & Hp & Hs & Hown & ->)]; [assumption|].
    apply (bound_put hm k v p e0); try assumption; try reflexivity.
    + intros [Ho Hk]. apply Hown in Ho. congruence.
    + right. split; [reflexivity|]. exists k'. auto.
  - destruct (delete_frame hm k' hm' Hinv Hstep)
      as [-> | (p & e0 & Hp & Hs & Ho & Hk & ->)]; [assumption|].
    apply (bound_put hm k v p e0); try assumption; try reflexivity.
    + intros [_ Hk']. congruence.
    + now left.
Qed.

Lemma bound_run k v ops : forall hm,
  inv hm -> bound hm k v -> Forall (fun o => op_key o <> k) ops ->
  exists hm', run ops hm = Some hm' /\ inv hm' /\ bound hm' k v.
Proof.
  induction ops as [|o ops IH]; intros hm Hinv Hb Hall; simpl.
  - eauto.
  - apply Forall_cons in Hall as [Ho Hall].
    destruct (step_inv hm o Hinv) as (hm1 & E & Hi). rewrite E.
    apply IH; try assumption. now apply (bound_step hm k v o).
Qed.

End StandaloneInv.

(** ** Lookup against its specification *)

Lemma find_first {A} (f : A -> bool) (g : nat -> A) (d : nat) : forall n s,
  (s <= d < s + n)%nat ->
  (forall j, (s <= j < d)%nat -> f (g j) = false) ->
  f (g d) = true ->
  List.find f (List.map g (List.seq s n)) = Some (g d).
Proof.
  induction n as [|n IH]; intros s Hd Hlo Hhit; [lia|].
  simpl. destruct (Nat.eq_dec s d) as [->|Hne].
  - now rewrite Hhit.
  - rewrite (Hlo s) by lia. apply IH; [lia | | assumption].
    intros j Hj. apply Hlo. lia.
Qed.

Lemma find_none {A} (f : A -> bool) (g : nat -> A) : forall n s,
  (forall j, (s <= j < s + n)%nat -> f (g j) = false) ->
  List.find f (List.map g (List.seq s n)) = None.
Proof.
  induction n as [|n IH]; intros s Hlo; [reflexivity|].
  simpl. rewrite (Hlo s) by lia. apply IH. intros j Hj. apply Hlo. lia.
Qed.

Lemma passes_stops es k p : passes es k p -> stopsb es k p = false.
Proof.
  intros (e & Hs & Hu & H). unfold stopsb, state_of. rewrite Hs, Hu. simpl.
  destruct H as [Hd | (Hd & k' & Hk & Hne)]; rewrite Hd; [reflexivity|].
  rewrite Hk. now apply String.eqb_neq.
Qed.

Lemma holds_stops es k p e :
  holds es k p e -> stopsb es k p = true /\ answer es p = val e.
Proof.
  intros (Hs & Hu & Hd & Hk). unfold stopsb, answer, state_of.
  rewrite Hs, Hu, Hd. simpl. rewrite Hk. now rewrite String.eqb_refl.
Qed.

Lemma vacant_stops es k p e :
  vacant es p e -> stopsb es k p = true /\ answer es p = Null.
Proof.
  intros (Hs & Hu). unfold stopsb, answer, state_of.
  rewrite Hs, Hu. simpl. auto.
Qed.

Module StandaloneGet.
Import Standalone StandaloneSpec StandaloneLoops.

Lemma probe_seq_at hm k (j : nat) :
  wf hm -> Z.of_nat j < cap hm ->
  (home hm k + Z.of_nat j) mod cap hm = probe_at hm (home hm k) (Z.of_nat j).
Proof.
  intros Hw Hj. pose proof (home_range hm k Hw).
  pose proof (pow2_bounds _ (proj1 Hw)).
  rewrite probe_at_mod; [reflexivity | assumption | lia].
Qed.

Lemma get_refines hm k :
  wf hm -> live (entries hm) ->
  hashmap_get hm k = Some (get_spec (entries hm) (cap hm) (fnv_hash k) k).
Proof.
  intros Hw Hl. pose proof (pow2_bounds _ (proj1 Hw)) as Hb.
  unfold get_spec, probe_seq. rewrite <- (home_mod hm k Hw).
  destruct (probe_cases hm k Hw Hl)
    as [Hall | (d & Hd & Hp & [(e & Hh) | (e & Hv)])].
  - rewrite find_none.
    + now apply get_exhausted.
    + intros j Hj. rewrite probe_seq_at by (try assumption; lia).
      apply passes_stops. apply Hall. lia.
  - rewrite (find_first _ _ (Z.to_nat d)).
    + rewrite probe_seq_at by (try assumption; lia).
      rewrite Z2Nat.id by lia.
      destruct (holds_stops _ _ _ _ Hh) as [_ ->].
      now apply (get_found hm k d e).
    + lia.
    + intros j Hj. rewrite probe_seq_at by (try assumption; lia).
      apply passes_stops. apply Hp. lia.
    + rewrite probe_seq_at by (try assumption; lia).
      rewrite Z2Nat.id by lia. now destruct (holds_stops _ _ _ _ Hh).
  - rewrite (find_first _ _ (Z.to_nat d)).
    + rewrite probe_seq_at by (try assumption; lia).
      rewrite Z2Nat.id by lia.
      destruct (vacant_stops _ k _ _ Hv) as [_ ->].
      now apply (get_vacant hm k d e).
    + lia.
    + intros j Hj. rewrite probe_seq_at by (try assumption; lia).
      apply passes_stops. apply Hp. lia.
    + rewrite probe_seq_at by (try assumption; lia).
      rewrite Z2Nat.id by lia. now destruct (vacant_stops _ k _ _ Hv).
Qed.

End StandaloneGet.

(** ** The server table through the standalone lemmas *)

Module ServerLoops.
Import Server ServerSpec.

Lemma fnv_loop_same s : forall h, fnv_loop s h = Standalone.fnv_loop s h.
Proof. induction s as [|c s IH]; intros h; simpl; [reflexivity | apply IH]. Qed.

Lemma fnv_hash_same s : fnv_hash s = Standalone.fnv_hash s.
Proof. apply fnv_loop_same. Qed.

Lemma home_lift hm k : home k = Standalone.home (lift hm) k.
Proof. unfold home, Standalone.home. now rewrite fnv_hash_same. Qed.

Lemma probe_at_lift hm idx i : probe_at idx i = Standalone.probe_at (lift hm) idx i.
Proof. reflexivity. Qed.

Lemma get_loop_lift hm k idx n : forall i,
  get_loop hm k idx n i = Standalone.get_loop (lift hm) k idx n i.
Proof.
  induction n as [|n IH]; intros i; [reflexivity|].
  rewrite StandaloneLoops.get_loop_S.
  change (Standalone.probe_at (lift hm) idx i) with (probe_at idx i).
  change (Standalone.entries (lift hm)) with (entries hm).
  simpl get_loop.
  destruct (slot (entries hm) (probe_at idx i)) as [e|]; [|reflexivity].
  destruct (negb (used e)); [reflexivity|].
  destruct (deleted e); [apply IH|].
  destruct (strcmp (key e) k) as [[]|]; [reflexivity | apply IH | reflexivity].
Qed.

Lemma get_lift hm k : hashmap_get hm k = Standalone.hashmap_get (lift hm) k.
Proof.
  unfold hashmap_get, Standalone.hashmap_get.
  rewrite get_loop_lift. unfold home, Standalone.home.
  now rewrite fnv_hash_same.
Qed.

Lemma pow2_table_size : pow2 TABLE_SIZE.
Proof. exists 10. split; [lia | reflexivity]. Qed.

Lemma wf_lift hm : wf hm -> StandaloneSpec.wf (lift hm).
Proof. intros H. split; [apply pow2_table_size | exact H]. Qed.

Lemma srv_get_refines hm k :
  wf hm -> live (entries hm) ->
  hashmap_get hm k = Some (get_spec (entries hm) TABLE_SIZE (fnv_hash k) k).
Proof.
  intros Hw Hl. rewrite get_lift, fnv_hash_same.
  apply (StandaloneGet.get_refines (lift hm) k); [now apply wf_lift | exact Hl].
Qed.

(** *** [hashmap_set] *)

Lemma srv_set_loop_S a hm k v idx n i :
  set_loop a hm k v idx (S n) i =
  match slot (entries hm) (probe_at idx i) with
  | None => None
  | Some e =>
      if negb (used e) || deleted e then
        Some (put hm (probe_at idx i)
                (mk_entry (strdup (key_ok a) k) (strdup (val_ok a) v)
                   true false))
      else
        match strcmp (key e) k with
        | None => None
        | Some true =>
            Some (put hm (probe_at idx i)
                    (mk_entry (key e) (strdup (val_ok a) v)
                       (used e) (deleted e)))
        | Some false => set_loop a hm k v idx n (i + 1)
        end
  end.
Proof. reflexivity. Qed.

Lemma srv_set_loop_skip a hm k v idx m : forall n i,
  (forall j, i <= j < i + Z.of_nat m ->
     foreign (entries hm) k (probe_at idx j)) ->
  set_loop a hm k v idx (m + n) i = set_loop a hm k v idx n (i + Z.of_nat m).
Proof.
  induction m as [|m IH]; intros n i Hp.
  - simpl. f_equal. lia.
  - change (S m + n)%nat with (S (m + n)). rewrite srv_set_loop_S.
    destruct (Hp i ltac:(lia)) as (e & k' & Hs & Hu & Hd & Hk & Hne).
    rewrite Hs, Hu, Hd, Hk, (strcmp_diff _ _ Hne). simpl.
    rewrite IH by (intros; apply Hp; lia). f_equal. lia.
Qed.

Lemma set_write a hm k v d e :
  0 <= d < TABLE_SIZE ->
  (forall j, 0 <= j < d -> foreign (entries hm) k (probe_at (home k) j)) ->
  slot (entries hm) (probe_at (home k) d) = Some e -> writable e ->
  hashmap_set a hm k v =
  Some (put hm (probe_at (home k) d)
          (mk_entry (strdup (key_ok a) k) (strdup (val_ok a) v) true false)).
Proof.
  intros Hd Hp Hs Hw. unfold hashmap_set.
  rewrite (StandaloneLoops.split_rounds _ d Hd), srv_set_loop_skip
    by (intros; apply Hp; lia).
  replace (0 + Z.of_nat (Z.to_nat d)) with d by lia.
  rewrite srv_set_loop_S, Hs.
  destruct Hw as [Hu | Hdel]; [rewrite Hu | rewrite Hdel].
  - reflexivity.
  - now rewrite orb_true_r.
Qed.

Lemma srv_set_update a hm k v d e :
  0 <= d < TABLE_SIZE ->
  (forall j, 0 <= j < d -> foreign (entries hm) k (probe_at (home k) j)) ->
  holds (entries hm) k (probe_at (home k) d) e ->
  hashmap_set a hm k v =
  Some (put hm (probe_at (home k) d)
          (mk_entry (Live k) (strdup (val_ok a) v) true false)).
Proof.
  intros Hd Hp (Hs & Hu & Hdel & Hk). unfold hashmap_set.
  rewrite (StandaloneLoops.split_rounds _ d Hd), srv_set_loop_skip
    by (intros; apply Hp; lia).
  replace (0 + Z.of_nat (Z.to_nat d)) with d by lia.
  now rewrite srv_set_loop_S, Hs, Hu, Hdel, Hk, strcmp_same.
Qed.

Lemma set_full a hm k v :
  (forall j, 0 <= j < TABLE_SIZE ->
     foreign (entries hm) k (probe_at (home k) j)) ->
  hashmap_set a hm k v = Some hm.
Proof.
  intros Hp. unfold hashmap_set.
  rewrite <- (Nat.add_0_r (Z.to_nat TABLE_SIZE)), srv_set_loop_skip.
  - reflexivity.
  - intros j Hj. apply Hp. lia.
Qed.

Lemma srv_probe_range k i :
  0 <= i < TABLE_SIZE -> 0 <= probe_at (home k) i < TABLE_SIZE.
Proof.
  intros Hi. unfold probe_at.
  change (TABLE_SIZE - 1) with (2 ^ 10 - 1). rewrite land_mask by lia.
  apply Z.mod_pos_bound. lia.
Qed.

Lemma srv_slot_in_range hm p :
  wf hm -> 0 <= p < TABLE_SIZE -> exists e, slot (entries hm) p = Some e.
Proof.
  intros Hw Hp.
  apply (StandaloneLoops.slot_in_range (lift hm) p (wf_lift hm Hw) Hp).
Qed.

Lemma set_cases hm k :
  wf hm -> live (entries hm) ->
  (forall j, 0 <= j < TABLE_SIZE ->
     foreign (entries hm) k (probe_at (home k) j)) \/
  exists d e, 0 <= d < TABLE_SIZE /\
    (forall j, 0 <= j < d -> foreign (entries hm) k (probe_at (home k) j)) /\
    slot (entries hm) (probe_at (home k) d) = Some e /\
    (writable e \/ holds (entries hm) k (probe_at (home k) d) e).
Proof.
  intros Hw Hl.
  assert (G : forall n : nat, Z.of_nat n <= TABLE_SIZE ->
    (forall j, 0 <= j < Z.of_nat n ->
       foreign (entries hm) k (probe_at (home k) j)) \/
    exists d e, 0 <= d < Z.of_nat n /\
      (forall j, 0 <= j < d -> foreign (entries hm) k (probe_at (home k) j)) /\
      slot (entries hm) (probe_at (home k) d) = Some e /\
      (writable e \/ holds (entries hm) k (probe_at (home k) d) e)).
  { induction n as [|n IH]; intros Hn.
    - left. intros j Hj. lia.
    - destruct IH as [Hall | (d & e & Hd & Hrest)]; [lia| |].
      + pose proof (srv_probe_range k (Z.of_nat n) ltac:(lia)) as Hr.
        destruct (srv_slot_in_range hm _ Hw Hr) as (e & Hs).
        assert (Hstop : forall P : Prop,
                  (writable e \/
                   holds (entries hm) k (probe_at (home k) (Z.of_nat n)) e -> P) ->
                  (foreign (entries hm) k (probe_at (home k) (Z.of_nat n)) -> P) ->
                  P).
        { intros P Hyes Hno. destruct (used e) eqn:Hu.
          - destruct (deleted e) eqn:Hd.
            + apply Hyes. left. now right.
            + destruct (Hl (probe_at (home k) (Z.of_nat n)) e ltac:(lia) Hs)
                as (k' & v' & Hk & _).
              { apply occupied_iff. auto. }
              destruct (string_dec k' k) as [->|Hne].
              * apply Hyes. right. repeat split; assumption.
              * apply Hno. exists e, k'. auto.
          - apply Hyes. left. now left. }
        apply Hstop.
        * intros Hy. right. exists (Z.of_nat n), e.
          split; [lia|]. split; [intros j Hj; apply Hall; lia|]. auto.
        * intros Hf. left. intros j Hj.
          destruct (Z.eq_dec j (Z.of_nat n)) as [->|]; [assumption|].
          apply Hall. lia.
      + right. exists d, e. split; [lia | assumption]. }
  assert (HT : TABLE_SIZE = 1024) by reflexivity.
  destruct (G (Z.to_nat TABLE_SIZE) ltac:(lia)) as [Hall | (d & e & Hd & Hrest)].
  - left. intros j Hj. apply Hall. lia.
  - right. exists d, e. split; [lia | assumption].
Qed.

(** *** [hashmap_delete] *)

Lemma srv_delete_loop_S hm k idx n i :
  delete_loop hm k idx (S n) i =
  match slot (entries hm) (probe_at idx i) with
  | None => None
  | Some e =>
      if negb (used e) then Some hm
      else
        match strcmp (key e) k with
        | None => None
        | Some true =>
            Some (put hm (probe_at idx i) (mk_entry Freed Freed (used e) true))
        | Some false => delete_loop hm k idx n (i + 1)
        end
  end.
Proof. reflexivity. Qed.

(** *** What one operation changes *)

Lemma srv_probe_at_nonneg idx i : 0 <= probe_at idx i.
Proof. apply (StandaloneLoops.probe_at_nonneg (Standalone.mk_hashmap [] TABLE_SIZE)). Qed.

Lemma set_loop_frame hm k v idx n : forall i hm',
  set_loop alloc_ok hm k v idx n i = Some hm' ->
  hm' = hm \/
  exists p e0, 0 <= p /\ slot (entries hm) p = Some e0 /\
    (state_of e0 = Occupied -> key e0 = Live k) /\
    hm' = put hm p (mk_entry (Live k) (Live v) true false).
Proof.
  induction n as [|n IH]; intros i hm' H.
  - injection H as <-. now left.
  - rewrite srv_set_loop_S in H.
    destruct (slot (entries hm) (probe_at idx i)) as [e|] eqn:Hs;
      [|discriminate].
    destruct (negb (used e) || deleted e) eqn:Hw.
    + injection H as <-. right. exists (probe_at idx i), e.
      split; [apply srv_probe_at_nonneg|]. split; [assumption|].
      split; [|reflexivity].
      intros Ho. apply occupied_iff in Ho as [Hu Hd].
      rewrite Hu, Hd in Hw. discriminate.
    + apply orb_false_iff in Hw as [Hu Hd]. apply negb_false_iff in Hu.
      destruct (strcmp (key e) k) as [[]|] eqn:Hc; [| |discriminate].
      * injection H as <-. right. exists (probe_at idx i), e.
        apply strcmp_true in Hc.
        split; [apply srv_probe_at_nonneg|]. split; [assumption|].
        split; [auto|]. now rewrite Hc, Hu, Hd.
      * eapply IH. eassumption.
Qed.

Lemma delete_loop_frame hm k idx n : forall i hm',
  delete_loop hm k idx n i = Some hm' ->
  hm' = hm \/
  exists p e0, 0 <= p /\ slot (entries hm) p = Some e0 /\
    used e0 = true /\ key e0 = Live k /\
    hm' = put hm p (mk_entry Freed Freed true true).
Proof.
  induction n as [|n IH]; intros i hm' H.
  - injection H as <-. now left.
  - rewrite srv_delete_loop_S in H.
    destruct (slot (entries hm) (probe_at idx i)) as [e|] eqn:Hs;
      [|discriminate].
    destruct (used e) eqn:Hu; simpl in H.
    + destruct (strcmp (key e) k) as [[]|] eqn:Hc; [| |discriminate].
      * injection H as <-. right. exists (probe_at idx i), e.
        apply strcmp_true in Hc.
        split; [apply srv_probe_at_nonneg|]. auto.
      * eapply IH. eassumption.
    + injection H as <-. now left.
Qed.

Lemma slot_range es p e :
  slot es p = Some e -> (Z.to_nat p < length es)%nat.
Proof. unfold slot. apply lookup_lt_Some. Qed.

Lemma live_store es p e0 e' :
  live es -> 0 <= p -> slot es p = Some e0 ->
  (state_of e' = Occupied -> exists k v, key e' = Live k /\ val e' = Live v) ->
  live (store es p e').
Proof.
  intros Hl Hp Hs0 Hnew q e Hq Hs Ho.
  destruct (Z.eq_dec p q) as [<-|Hne].
  - rewrite StandaloneLoops.slot_store_eq in Hs.
    + injection Hs as <-. auto.
    + apply slot_range in Hs0. lia.
  - rewrite StandaloneLoops.slot_store_ne in Hs by assumption. eauto.
Qed.

Lemma srv_wf_put hm p e : wf hm -> wf (put hm p e).
Proof.
  unfold wf. simpl. now rewrite StandaloneLoops.length_store.
Qed.

Lemma step_keeps hm o hm' :
  wf hm -> live (entries hm) -> step hm o = Some hm' ->
  wf hm' /\ live (entries hm').
Proof.
  intros Hw Hl Hstep. destruct o as [k v|k]; simpl in Hstep.
  - destruct (set_loop_frame _ _ _ _ _ _ _ Hstep)
      as [-> | (p & e0 & Hp & Hs & _ & ->)]; [auto|].
    split; [now apply srv_wf_put|]. simpl.
    apply (live_store _ p e0); try assumption. intros _. simpl. eauto.
  - destruct (delete_loop_frame _ _ _ _ _ _ Hstep)
      as [-> | (p & e0 & Hp & Hs & _ & _ & ->)]; [auto|].
    split; [now apply srv_wf_put|]. simpl.
    apply (live_store _ p e0); try assumption. discriminate.
Qed.

Lemma run_keeps ops : forall hm hm',
  wf hm -> live (entries hm) -> run ops hm = Some hm' ->
  wf hm' /\ live (entries hm').
Proof.
  induction ops as [|o ops IH]; intros hm hm' Hw Hl Hrun; simpl in Hrun.
  - injection Hrun as <-. auto.
  - destruct (step hm o) as [hm1|] eqn:E; [|discriminate].
    destruct (step_keeps hm o hm1 Hw Hl E). eapply IH; eassumption.
Qed.

Lemma create_keeps hm0 :
  hashmap_create true = Some hm0 -> wf hm0 /\ live (entries hm0).
Proof.
  intros H.
  assert (E : hm0 = mk_hashmap (replicate (Z.to_nat TABLE_SIZE) zero_entry))
    by (unfold hashmap_create in H; congruence).
  subst hm0. clear H. split.
  - unfold wf. cbn [entries]. rewrite length_replicate. reflexivity.
  - intros p e _ Hs Ho. unfold slot in Hs. cbn [entries] in Hs.
    apply lookup_replicate in Hs as [-> _]. discriminate.
Qed.

Lemma reachable_keeps hm : reachable hm -> wf hm /\ live (entries hm).
Proof.
  intros (ops & hm0 & Hc & Hr).
  destruct (create_keeps hm0 Hc). eapply run_keeps; eassumption.
Qed.

(** *** Bound keys on the server *)

Lemma foreign_passes es k p : foreign es k p -> passes es k p.
Proof.
  intros (e & k' & Hs & Hu & Hd & Hk & Hne). exists e.
  split; [assumption|]. split; [assumption|]. right. eauto.
Qed.

Lemma srv_bound_get hm k v :
  StandaloneSpec.bound (lift hm) k v -> hashmap_get hm k = Some (Live v).
Proof. intros H. rewrite get_lift. now apply StandaloneInv.bound_get. Qed.

Lemma bound_intro hm k v d e :
  0 <= d < TABLE_SIZE ->
  (forall j, 0 <= j < d -> passes (entries hm) k (probe_at (home k) j)) ->
  holds (entries hm) k (probe_at (home k) d) e ->
  val e = Live v ->
  StandaloneSpec.bound (lift hm) k v.
Proof.
  intros Hd Hp Hh Hv. exists d, e.
  assert (E : Standalone.home (lift hm) k = home k)
    by (symmetry; apply home_lift).
  rewrite E. auto.
Qed.

Lemma set_binds hm k v :
  wf hm -> live (entries hm) -> has_room hm k ->
  exists hm1, hashmap_set alloc_ok hm k v = Some hm1 /\
    StandaloneSpec.bound (lift hm1) k v.
Proof.
  intros Hw Hl (i & ei & Hi & Hsi & Hroom).
  assert (Hb : forall d, 0 <= d < TABLE_SIZE ->
    (forall j, 0 <= j < d -> foreign (entries hm) k (probe_at (home k) j)) ->
    StandaloneSpec.bound
      (lift (put hm (probe_at (home k) d)
               (mk_entry (Live k) (Live v) true false))) k v).
  { intros d Hd Hp. pose proof (srv_probe_range k d Hd) as Hr.
    apply (bound_intro _ k v d (mk_entry (Live k) (Live v) true false));
      [exact Hd | | | reflexivity].
    - intros j Hj. simpl. apply StandaloneInv.passes_put.
      + apply srv_probe_at_nonneg.
      + apply srv_probe_at_nonneg.
      + rewrite (home_lift hm k). intros E.
        apply (StandaloneLoops.probe_inj (lift hm)) in E;
          [lia | now apply wf_lift | exact Hd | simpl; lia].
      + apply foreign_passes. now apply Hp.
    - split; [|auto]. simpl. apply StandaloneLoops.slot_store_eq.
      unfold wf in Hw. lia. }
  destruct (set_cases hm k Hw Hl)
    as [Hall | (d & e & Hd & Hp & Hs & [Hwr | Hh])].
  - exfalso. destruct (Hall i Hi) as (e & k' & Hs & Hu & Hd & Hk & Hne).
    rewrite Hsi in Hs. injection Hs as <-.
    destruct Hroom as [H | [H | H]]; congruence.
  - rewrite (set_write alloc_ok hm k v d e Hd Hp Hs Hwr). eauto.
  - rewrite (srv_set_update alloc_ok hm k v d e Hd Hp Hh). eauto.
Qed.

Lemma srv_bound_step hm k v o hm' :
  wf hm -> StandaloneSpec.bound (lift hm) k v -> op_key o <> k ->
  step hm o = Some hm' -> StandaloneSpec.bound (lift hm') k v.
Proof.
  intros Hw Hb Hne Hstep.
  assert (Hlt : forall p e0, 0 <= p -> slot (entries hm) p = Some e0 ->
            0 <= p < Standalone.cap (lift hm)).
  { intros p e0 Hp Hs. apply slot_range in Hs. unfold wf in Hw. simpl. lia. }
  destruct o as [k' v'|k']; simpl in Hne, Hstep.
  - destruct (set_loop_frame _ _ _ _ _ _ _ Hstep)
      as [-> | (p & e0 & Hp & Hs & Hown & ->)]; [assumption|].
    apply (StandaloneInv.bound_put (lift hm) k v p e0);
      [now apply wf_lift | assumption | now apply (Hlt p e0) | exact Hs
      | | reflexivity | ].
    + intros [Ho Hk]. apply Hown in Ho. congruence.
    + right. split; [reflexivity|]. exists k'. auto.
  - destruct (delete_loop_frame _ _ _ _ _ _ Hstep)
      as [-> | (p & e0 & Hp & Hs & Hu & Hk & ->)]; [assumption|].
    apply (StandaloneInv.bound_put (lift hm) k v p e0);
      [now apply wf_lift | assumption | now apply (Hlt p e0) | exact Hs
      | | reflexivity | ].
    + intros [_ Hk']. congruence.
    + now left.
Qed.

Lemma srv_bound_run k v ops : forall hm hm',
  wf hm -> live (entries hm) -> StandaloneSpec.bound (lift hm) k v ->
  Forall (fun o => op_key o <> k) ops ->
  run ops hm = Some hm' -> StandaloneSpec.bound (lift hm') k v.
Proof.
  induction ops as [|o ops IH]; intros hm hm' Hw Hl Hb Hall Hrun;
    simpl in Hrun.
  - now injection Hrun as <-.
  - apply Forall_cons in Hall as [Ho Hall].
    destruct (step hm o) as [hm1|] eqn:E; [|discriminate].
    destruct (step_keeps hm o hm1 Hw Hl E).
    apply (IH hm1); try assumption. now apply (srv_bound_step hm k v o).
Qed.

End ServerLoops.

(** * The properties of the specification *)

(** ** C9: the hash is FNV-1a and the mask is the remainder *)

Lemma fnv_loop_fold s : forall h,
  Standalone.fnv_loop s h = fold_left Fnv1aRef.step (Fnv1aRef.bytes_of s) h.
Proof.
  induction s as [|c s IH]; intros h; [reflexivity|].
  simpl. rewrite IH. reflexivity.
Qed.

Lemma standalone_fnv_hash_ref k :
  Standalone.fnv_hash k = Fnv1aRef.fnv1a (Fnv1aRef.bytes_of k).
Proof. apply fnv_loop_fold. Qed.

Lemma server_fnv_hash_ref k :
  Server.fnv_hash k = Fnv1aRef.fnv1a (Fnv1aRef.bytes_of k).
Proof. rewrite ServerLoops.fnv_hash_same. apply standalone_fnv_hash_ref. Qed.

(** The reference vectors of FNV-1a. *)
Example fnv1a_empty : Server.fnv_hash "" = 0xcbf29ce484222325.
Proof. reflexivity. Qed.

Example fnv1a_a : Server.fnv_hash "a" = 0xaf63dc4c8601ec8c.
Proof. reflexivity. Qed.

Example fnv1a_foobar : Standalone.fnv_hash "foobar" = 0x85944171f73967e8.
Proof. reflexivity. Qed.

(** C9.  For every key, the hash computed by the server table and by the
    standalone table is the FNV-1a reference value (offset basis
    0xcbf29ce484222325, then [hash = (hash XOR byte) * 0x100000001b3] modulo
    2^64 for each byte); the index at which set, get and delete start
    probing, obtained with the mask [hash & (capacity - 1)], is that value
    modulo the capacity. *)
Theorem fnv_hash_is_fnv1a (k : string) :
  let h := Fnv1aRef.fnv1a (Fnv1aRef.bytes_of k) in
  Server.fnv_hash k = h /\
  Standalone.fnv_hash k = h /\
  Server.fnv_hash k = Standalone.fnv_hash k /\
  0 <= h < 2 ^ 64 /\
  Server.home k = Z.land h (Server.TABLE_SIZE - 1) /\
  Server.home k = h mod Server.TABLE_SIZE /\
  (forall hm, StandaloneSpec.wf hm ->
     Standalone.home hm k = Z.land h (Standalone.cap hm - 1) /\
     Standalone.home hm k = h mod Standalone.cap hm) /\
  (forall a hm v,
     Server.hashmap_set a hm k v =
       Server.set_loop a hm k v (h mod Server.TABLE_SIZE)
         (Z.to_nat Server.TABLE_SIZE) 0 /\
     Server.hashmap_get hm k =
       Server.get_loop hm k (h mod Server.TABLE_SIZE)
         (Z.to_nat Server.TABLE_SIZE) 0 /\
     Server.hashmap_delete hm k =
       Server.delete_loop hm k (h mod Server.TABLE_SIZE)
         (Z.to_nat Server.TABLE_SIZE) 0) /\
  (forall a hm v, StandaloneSpec.wf hm ->
     Standalone.hashmap_set a hm k v =
       Standalone.set_loop a hm k v (h mod Standalone.cap hm) (-1)
         (Z.to_nat (Standalone.cap hm)) 0 /\
     Standalone.hashmap_get hm k =
       Standalone.get_loop hm k (h mod Standalone.cap hm)
         (Z.to_nat (Standalone.cap hm)) 0 /\
     Standalone.hashmap_delete hm k =
       Standalone.delete_loop hm k (h mod Standalone.cap hm)
         (Z.to_nat (Standalone.cap hm)) 0).
Proof.
  intros h.
  assert (Hs : Server.fnv_hash k = h) by apply server_fnv_hash_ref.
  assert (Ha : Standalone.fnv_hash k = h) by apply standalone_fnv_hash_ref.
  split; [exact Hs|]. split; [exact Ha|]. split; [congruence|].
  split; [rewrite <- Ha; apply StandaloneLoops.fnv_hash_range|].
  assert (Hh : Server.home k = h mod Server.TABLE_SIZE).
  { unfold Server.home. rewrite Hs.
    change (Server.TABLE_SIZE - 1) with (2 ^ 10 - 1).
    now rewrite land_mask by lia. }
  split; [unfold Server.home; now rewrite Hs|].
  split; [exact Hh|].
  split.
  { intros hm Hw. split.
    - unfold Standalone.home. rewrite Ha.
      pose proof (pow2_bounds _ (proj1 Hw)).
      now rewrite wrap64_small by lia.
    - rewrite <- Ha. now apply StandaloneLoops.home_mod. }
  split.
  - intros a hm v.
    unfold Server.hashmap_set, Server.hashmap_get, Server.hashmap_delete.
    now rewrite Hh.
  - intros a hm v Hw.
    pose proof (StandaloneLoops.home_mod hm k Hw) as Hh'. rewrite Ha in Hh'.
    unfold Standalone.hashmap_set, Standalone.hashmap_get,
      Standalone.hashmap_delete.
    now rewrite Hh'.
Qed.

(** ** C4: lookup walks the probe sequence *)

(** C4.  On a well-formed table (capacity a power of two, every Occupied
    slot owning its key and value), [hashmap_get] of either table returns
    what the walk of the probe sequence from [hash mod capacity] returns:
    the value of the first slot that is Empty or Occupied by the key, which
    is not-found when that slot is Empty; tombstones and other keys are
    passed over, and not-found is returned when no slot of the sequence
    stops the walk. *)
Theorem get_walks_probe_sequence :
  (forall hm k, StandaloneSpec.wf hm -> live (Standalone.entries hm) ->
     Standalone.hashmap_get hm k =
     Some (get_spec (Standalone.entries hm) (Standalone.cap hm)
             (Standalone.fnv_hash k) k)) /\
  (forall hm k, ServerSpec.wf hm -> live (Server.entries hm) ->
     Server.hashmap_get hm k =
     Some (get_spec (Server.entries hm) Server.TABLE_SIZE
             (Server.fnv_hash k) k)).
Proof.
  split.
  - apply StandaloneGet.get_refines.
  - apply ServerLoops.srv_get_refines.
Qed.

(** The walk on a table of capacity 4 whose slot 0 is a tombstone and whose
    slot 1 holds e (home slot 0, like i): e is found past the tombstone, i is
    not found at the Empty slot 2. *)
Example get_spec_past_tombstone :
  let es := [mk_entry Null Null true true;
             mk_entry (Live "e") (Live "5") true false;
             zero_entry; zero_entry] in
  probe_seq (Standalone.fnv_hash "e" mod 4) 4 = [0; 1; 2; 3] /\
  get_spec es 4 (Standalone.fnv_hash "e") "e" = Live "5" /\
  get_spec es 4 (Standalone.fnv_hash "i") "i" = Null /\
  Standalone.hashmap_get (Standalone.mk_hashmap es 4) "e" = Some (Live "5") /\
  Standalone.hashmap_get (Standalone.mk_hashmap es 4) "i" = Some Null.
Proof. repeat split; vm_compute; reflexivity. Qed.

(** ** C1: one Occupied slot per key *)

(** The standalone table keeps the invariant: in every state reached from
    [hashmap_create] by sets and deletes whose copies succeed, no two
    Occupied slots hold the same key. *)
Theorem standalone_one_slot_per_key hm :
  StandaloneSpec.reachable hm -> uniq (Standalone.entries hm).
Proof. intros H. apply StandaloneInv.reachable_inv in H. apply H. Qed.

(** A set of a key the standalone table holds writes the new value into the
    slot that holds the key, and returns 0. *)
Theorem standalone_set_updates_in_place hm k v0 v :
  StandaloneSpec.reachable hm -> StandaloneSpec.bound hm k v0 ->
  exists p e,
    holds (Standalone.entries hm) k p e /\ val e = Live v0 /\
    Standalone.hashmap_set alloc_ok hm k v =
    Some (Standalone.put hm p (mk_entry (Live k) (Live v) true false), 0).
Proof.
  intros _ (d & e & Hd & Hp & Hh & Hv).
  exists (Standalone.probe_at hm (Standalone.home hm k) d), e.
  split; [exact Hh|]. split; [exact Hv|].
  now rewrite (StandaloneLoops.set_update alloc_ok hm k v d e Hd Hp Hh).
Qed.

(** C1, on the server table.  The keys k0 and k109 share the home slot 782.
    After set k0, set k109, delete k0, set k109 the server table holds k109
    in two Occupied slots, 782 and 783: [hashmap_set] writes into the first
    tombstone it meets without looking further for the key. *)
Theorem server_set_duplicates_key :
  exists hm0 hm,
    Server.hashmap_create true = Some hm0 /\
    ServerSpec.run
      [OSet "k0" "v0"; OSet "k109" "v109"; ODel "k0"; OSet "k109" "w109"]
      hm0 = Some hm /\
    Server.home "k0" = 782 /\ Server.home "k109" = 782 /\
    slot (Server.entries hm) 782 =
      Some (mk_entry (Live "k109") (Live "w109") true false) /\
    slot (Server.entries hm) 783 =
      Some (mk_entry (Live "k109") (Live "v109") true false) /\
    ~ uniq (Server.entries hm).
Proof.
  eexists. eexists.
  split; [reflexivity|].
  split; [vm_compute; reflexivity|].
  split; [vm_compute; reflexivity|].
  split; [vm_compute; reflexivity|].
  split; [vm_compute; reflexivity|].
  split; [vm_compute; reflexivity|].
  intros Hu.
  specialize (Hu 782 783
                (mk_entry (Live "k109") (Live "w109") true false)
                (mk_entry (Live "k109") (Live "v109") true false)
                "k109" ltac:(lia) ltac:(lia)).
  assert (E : 782 = 783).
  { apply Hu; try reflexivity; vm_compute; reflexivity. }
  discriminate E.
Qed.

(** ** C2: delete, then get and delete again *)

(** On the standalone table, in every reachable state, after a delete of a
    key the key is not found and a second delete changes nothing. *)
Theorem standalone_delete_then_get hm k :
  StandaloneSpec.reachable hm ->
  exists hm1,
    Standalone.hashmap_delete hm k = Some hm1 /\
    Standalone.hashmap_get hm1 k = Some Null /\
    Standalone.hashmap_delete hm1 k = Some hm1.
Proof.
  intros H. apply StandaloneInv.reachable_inv in H.
  destruct (StandaloneInv.delete_inv hm k H) as (hm1 & E & _).
  exists hm1. split; [assumption|].
  destruct (StandaloneInv.delete_absent hm k hm1 H E) as ((Hw & Hl & _) & Ha).
  now apply StandaloneInv.absent_lookup.
Qed.

(** C2, on the server table.  From the state with two copies of k109, a
    delete of k109 turns the first copy into a tombstone; the get that
    follows skips it and returns the value of the second copy; a second
    delete compares the freed key of the tombstone, which C leaves
    undefined. *)
Theorem server_delete_leaves_stale_copy :
  exists hm0 hm1 hm2,
    Server.hashmap_create true = Some hm0 /\
    ServerSpec.run
      [OSet "k0" "v0"; OSet "k109" "v109"; ODel "k0"; OSet "k109" "w109"]
      hm0 = Some hm1 /\
    Server.hashmap_delete hm1 "k109" = Some hm2 /\
    Server.hashmap_get hm2 "k109" = Some (Live "v109") /\
    Server.hashmap_delete hm2 "k109" = None.
Proof.
  eexists. eexists. eexists.
  split; [reflexivity|].
  split; [vm_compute; reflexivity|].
  split; [vm_compute; reflexivity|].
  split; vm_compute; reflexivity.
Qed.

(** ** C3: set, then get *)

(** C3, as far as it holds.  Standalone table: from a reachable state, when
    [hashmap_set] of [k], [v] returns 0, then after any further operations
    on other keys (their copies succeeding) the run is defined and
    [hashmap_get] of [k] returns [v]; with no further operation this is the
    get right after the set.  Server table, whose set returns nothing: from
    a reachable state in which the probe for [k] meets a slot the set can
    write, the set is defined, and after any further defined operations on
    other keys [hashmap_get] of [k] returns [v]. *)
Theorem set_get_round_trip :
  (forall a hm k v hm1 ops,
     StandaloneSpec.reachable hm ->
     Standalone.hashmap_set a hm k v = Some (hm1, 0) ->
     Forall (fun o => op_key o <> k) ops ->
     exists hm2,
       StandaloneSpec.run ops hm1 = Some hm2 /\
       Standalone.hashmap_get hm2 k = Some (Live v)) /\
  (forall hm k v,
     ServerSpec.reachable hm -> ServerSpec.has_room hm k ->
     exists hm1,
       Server.hashmap_set alloc_ok hm k v = Some hm1 /\
       forall ops hm2,
         Forall (fun o => op_key o <> k) ops ->
         ServerSpec.run ops hm1 = Some hm2 ->
         Server.hashmap_get hm2 k = Some (Live v)).
Proof.
  split.
  - intros a hm k v hm1 ops Hr Hset Hops.
    apply StandaloneInv.reachable_inv in Hr.
    destruct (StandaloneInv.set_ok_result a hm k v hm1 Hr Hset) as [Hi Hb].
    destruct (StandaloneInv.bound_run k v ops hm1 Hi Hb Hops)
      as (hm2 & E & _ & Hb2).
    exists hm2. split; [assumption|]. now apply StandaloneInv.bound_get.
  - intros hm k v Hr Hroom.
    destruct (ServerLoops.reachable_keeps hm Hr) as [Hw Hl].
    destruct (ServerLoops.set_binds hm k v Hw Hl Hroom) as (hm1 & E & Hb).
    exists hm1. split; [assumption|].
    intros ops hm2 Hops Hrun.
    destruct (ServerLoops.step_keeps hm (OSet k v) hm1 Hw Hl E) as [Hw1 Hl1].
    apply ServerLoops.srv_bound_get.
    now apply (ServerLoops.srv_bound_run k v ops hm1 hm2).
Qed.

(** C3, where it fails.  Standalone table of capacity 4, on which the keys
    a, e, i share the home slot 0: after set a, the set of e, 5 returns 0
    and e is found; after delete a it still is; then a set of i whose key
    copy fails returns -1, and e, never deleted nor set again, is not
    found any more: the failed set zeroed the tombstone in slot 0, which
    carried the probe for e to slot 1.  Server table: after set k0, set
    k109, delete k0 (k0 and k109 share the home slot 782), k109 is found;
    a set of k0 whose key copy fails leaves slot 782 Occupied with a NULL
    key, and the get of k109 then passes that NULL key to [strcmp]; and a
    second delete of k0 compares the freed key of the tombstone, after
    which nothing is guaranteed for k109 either. *)
Theorem stored_key_lost_after_failed_copy :
  (exists hm0 hm1 hm2 hm3,
     Standalone.hashmap_create true 1 = Standalone.Table small /\
     StandaloneSpec.run [OSet "a" "1"] small = Some hm0 /\
     Standalone.hashmap_set alloc_ok hm0 "e" "5" = Some (hm1, 0) /\
     Standalone.hashmap_get hm1 "e" = Some (Live "5") /\
     Standalone.hashmap_delete hm1 "a" = Some hm2 /\
     Standalone.hashmap_get hm2 "e" = Some (Live "5") /\
     Standalone.hashmap_set (mk_alloc false true) hm2 "i" "9"
       = Some (hm3, -1) /\
     slot (Standalone.entries hm2) 0 = Some (mk_entry Null Null true true) /\
     slot (Standalone.entries hm3) 0 = Some zero_entry /\
     slot (Standalone.entries hm3) 1 =
       Some (mk_entry (Live "e") (Live "5") true false) /\
     Standalone.hashmap_get hm3 "e" = Some Null) /\
  (exists hm0 hm1 hm2,
     Server.hashmap_create true = Some fresh_server /\
     ServerSpec.run [OSet "k0" "v0"] fresh_server = Some hm0 /\
     Server.hashmap_set alloc_ok hm0 "k109" "v109" = Some hm1 /\
     Server.hashmap_get hm1 "k109" = Some (Live "v109") /\
     Server.hashmap_delete hm1 "k0" = Some hm2 /\
     Server.hashmap_get hm2 "k109" = Some (Live "v109") /\
     (exists hm3,
        Server.hashmap_set (mk_alloc false true) hm2 "k0" "v0" = Some hm3 /\
        slot (Server.entries hm3) 782 =
          Some (mk_entry Null (Live "v0") true false) /\
        slot (Server.entries hm3) 783 =
          Some (mk_entry (Live "k109") (Live "v109") true false) /\
        Server.hashmap_get hm3 "k109" = None) /\
     Server.hashmap_delete hm2 "k0" = None).
Proof.
  split.
  - eexists. eexists. eexists. eexists.
    split; [reflexivity|].
    split; [vm_compute; reflexivity|].
    split; [vm_compute; reflexivity|].
    split; [vm_compute; reflexivity|].
    split; [vm_compute; reflexivity|].
    split; [vm_compute; reflexivity|].
    split; [vm_compute; reflexivity|].
    split; [vm_compute; reflexivity|].
    split; [vm_compute; reflexivity|].
    split; vm_compute; reflexivity.
  - eexists. eexists. eexists.
    split; [reflexivity|].
    split; [vm_compute; reflexivity|].
    split; [vm_compute; reflexivity|].
    split; [vm_compute; reflexivity|].
    split; [vm_compute; reflexivity|].
    split; [vm_compute; reflexivity|].
    split; [|vm_compute; reflexivity].
    eexists.
    split; [vm_compute; reflexivity|].
    split; [vm_compute; reflexivity|].
    split; vm_compute; reflexivity.
Qed.

(** ** C5: a set on a table full of other keys *)

Lemma occupied_by_others_foreign es k p e :
  occupied_by_others es k = true -> slot es p = Some e -> foreign es k p.
Proof.
  intros Hall Hs. unfold occupied_by_others in Hall.
  rewrite forallb_forall in Hall.
  assert (Hin : In e es).
  { apply list_elem_of_In. eapply list_elem_of_lookup_2. exact Hs. }
  specialize (Hall e Hin).
  apply andb_prop in Hall as [Hall Hk]. apply andb_prop in Hall as [Hu Hd].
  apply negb_true_iff in Hd.
  destruct (key e) as [|k'|] eqn:Ek; try discriminate.
  apply negb_true_iff, String.eqb_neq in Hk.
  exists e, k'. auto.
Qed.

(** C5, as the code has it.  When every slot of the probe sequence of [k]
    is Occupied by another key, [hashmap_set] leaves the table unchanged and
    a get of [k] finds nothing; the standalone set returns -1, the server
    set, which returns nothing, has no result that tells the caller. *)
Theorem full_table_set_dropped :
  (forall a hm k v,
     (forall j, 0 <= j < Standalone.cap hm ->
        foreign (Standalone.entries hm) k
          (Standalone.probe_at hm (Standalone.home hm k) j)) ->
     Standalone.hashmap_set a hm k v = Some (hm, -1) /\
     Standalone.hashmap_get hm k = Some Null) /\
  (forall a hm k v,
     (forall j, 0 <= j < Server.TABLE_SIZE ->
        foreign (Server.entries hm) k
          (Server.probe_at (Server.home k) j)) ->
     Server.hashmap_set a hm k v = Some hm /\
     Server.hashmap_get hm k = Some Null).
Proof.
  split.
  - intros a hm k v Hall.
    assert (Hp : forall j, 0 <= j < Standalone.cap hm ->
              passes (Standalone.entries hm) k
                (Standalone.probe_at hm (Standalone.home hm k) j))
      by (intros; apply ServerLoops.foreign_passes; auto).
    split; [now apply StandaloneLoops.set_exhausted
           | now apply StandaloneLoops.get_exhausted].
  - intros a hm k v Hall. split; [now apply ServerLoops.set_full|].
    rewrite ServerLoops.get_lift. apply StandaloneLoops.get_exhausted.
    intros j Hj. apply ServerLoops.foreign_passes.
    rewrite <- (ServerLoops.home_lift hm k). now apply Hall.
Qed.

(** C5 as stated fails on the server.  After the warm-up of a client with
    keyspace 1024 the server table is full of the keys k0 .. k1023.  A set of
    the new key k1024 is dropped, a set of the present pair k0, v0 is carried
    out, and both calls hand back the same thing, the table as it was:
    nothing signals the dropped set. *)
Lemma server_dropped_set_not_signalled :
  ~ (forall hm k v k' v',
       ServerSpec.reachable hm ->
       (forall j, 0 <= j < Server.TABLE_SIZE ->
          foreign (Server.entries hm) k (Server.probe_at (Server.home k) j)) ->
       ServerSpec.has_room hm k' ->
       Server.hashmap_set alloc_ok hm k v <>
       Server.hashmap_set alloc_ok hm k' v').
Proof.
  intros H.
  assert (Hreach : ServerSpec.reachable warmed_up).
  { exists (populate 1024). eexists. split; [reflexivity|].
    vm_compute. reflexivity. }
  destruct (ServerLoops.reachable_keeps _ Hreach) as [Hw Hl].
  assert (Hfull : forall j, 0 <= j < Server.TABLE_SIZE ->
            foreign (Server.entries warmed_up) "k1024"
              (Server.probe_at (Server.home "k1024") j)).
  { intros j Hj.
    destruct (ServerLoops.srv_slot_in_range warmed_up
                (Server.probe_at (Server.home "k1024") j) Hw
                (ServerLoops.srv_probe_range "k1024" j Hj)) as (e & Hs).
    apply (occupied_by_others_foreign _ _ _ e); [|exact Hs].
    vm_compute. reflexivity. }
  apply (H warmed_up "k1024" "v1024" "k0" "v0" Hreach Hfull).
  - exists 0. eexists. split; [unfold Server.TABLE_SIZE; lia|].
    split; [vm_compute; reflexivity|]. right. right. reflexivity.
  - rewrite (ServerLoops.set_full alloc_ok warmed_up "k1024" "v1024" Hfull).
    vm_compute. reflexivity.
Qed.

(** ** C8: a copy that fails *)

Module InsertTarget.
Import Standalone StandaloneSpec StandaloneLoops.

(** Passing [m] slots sets [first_tomb], when it was not set, to the first
    tombstone among them. *)
Lemma set_loop_first a hm k v idx m : forall n ft i,
  (forall j, i <= j < i + Z.of_nat m ->
     passes (entries hm) k (probe_at hm idx j)) ->
  exists ft',
    set_loop a hm k v idx ft (m + n) i =
    set_loop a hm k v idx ft' n (i + Z.of_nat m) /\
    (0 <= ft -> ft' = ft) /\
    (ft < 0 ->
     (ft' = ft /\
      forall j, i <= j < i + Z.of_nat m ->
        ~ tomb (entries hm) (probe_at hm idx j)) \/
     (exists t, i <= t < i + Z.of_nat m /\
        ft' = probe_at hm idx t /\ tomb (entries hm) (probe_at hm idx t) /\
        forall j, i <= j < t -> ~ tomb (entries hm) (probe_at hm idx j))).
Proof.
  induction m as [|m IH]; intros n ft i Hp.
  - exists ft. split; [simpl; f_equal; lia|]. split; [reflexivity|].
    intros _. left. split; [reflexivity|]. intros j Hj. lia.
  - change (S m + n)%nat with (S (m + n)). rewrite set_loop_S.
    pose proof (Hp i ltac:(lia)) as Hi.
    assert (Hrest : forall j, i + 1 <= j < i + 1 + Z.of_nat m ->
              passes (entries hm) k (probe_at hm idx j))
      by (intros; apply Hp; lia).
    pose proof (probe_at_nonneg hm idx i) as Hnn.
    destruct Hi as (e & Hs & Hu & [Hd | (Hd & k' & Hk & Hne)]);
      rewrite Hs, Hu; simpl; rewrite Hd.
    + destruct (IH n (if ft <? 0 then probe_at hm idx i else ft) (i + 1) Hrest)
        as (ft' & E & Hkeep & _).
      exists ft'. split; [rewrite E; f_equal; lia|].
      destruct (Z.ltb_spec ft 0) as [Hneg|Hpos].
      * split; [lia|]. intros _. right. exists i.
        split; [lia|]. split; [now apply Hkeep|].
        split; [exists e; auto|]. intros j Hj. lia.
      * split; [intros _; now apply Hkeep | lia].
    + rewrite Hk, (strcmp_diff _ _ Hne).
      destruct (IH n ft (i + 1) Hrest) as (ft' & E & Hkeep & Hfirst).
      exists ft'. split; [rewrite E; f_equal; lia|].
      split; [exact Hkeep|]. intros Hneg.
      assert (Hnot : ~ tomb (entries hm) (probe_at hm idx i)).
      { intros (e1 & Hs1 & _ & Hd1). congruence. }
      destruct (Hfirst Hneg) as [(-> & Hno) | (t & Ht & Eft & Htomb & Hno)].
      * left. split; [reflexivity|]. intros j Hj.
        destruct (Z.eq_dec j i) as [->|Hji]; [exact Hnot | apply Hno; lia].
      * right. exists t. split; [lia|]. split; [exact Eft|].
        split; [exact Htomb|]. intros j Hj.
        destruct (Z.eq_dec j i) as [->|Hji]; [exact Hnot | apply Hno; lia].
Qed.

(** The slot an insert targets: the first tombstone the probe passed, or,
    when it passed none, the Empty slot it reached. *)
Lemma set_insert_first a hm k v d e :
  0 <= d < cap hm ->
  (forall j, 0 <= j < d -> passes (entries hm) k (probe_at hm (home hm k) j)) ->
  vacant (entries hm) (probe_at hm (home hm k) d) e ->
  exists t, 0 <= t <= d /\
    (t < d -> tomb (entries hm) (probe_at hm (home hm k) t)) /\
    (forall j, 0 <= j < t ->
       ~ tomb (entries hm) (probe_at hm (home hm k) j)) /\
    hashmap_set a hm k v =
    Some (if key_ok a && val_ok a
          then (put hm (probe_at hm (home hm k) t)
                  (mk_entry (Live k) (Live v) true false), 0)
          else (put hm (probe_at hm (home hm k) t)
                  (mk_entry Null Null false false), -1)).
Proof.
  intros Hd Hp (Hs & Hu). unfold hashmap_set.
  rewrite (split_rounds _ d Hd).
  destruct (set_loop_first a hm k v (home hm k) (Z.to_nat d)
              (S (Z.to_nat (cap hm - d - 1))) (-1) 0) as (ft' & E & _ & Hft).
  { intros; apply Hp; lia. }
  rewrite E. replace (0 + Z.of_nat (Z.to_nat d)) with d by lia.
  rewrite set_loop_S, Hs, Hu. simpl negb. cbv iota. cbv zeta.
  destruct (Hft ltac:(lia)) as [(-> & Hno) | (t & Ht & -> & Htomb & Hno)].
  - exists d. split; [lia|]. split; [lia|].
    split; [intros j Hj; apply Hno; lia|].
    change (0 <=? -1) with false. cbv iota.
    destruct a as [[] []]; reflexivity.
  - exists t. split; [lia|]. split; [intros _; assumption|].
    split; [intros j Hj; apply Hno; lia|].
    pose proof (probe_at_nonneg hm (home hm k) t) as Hn.
    apply Z.leb_le in Hn. rewrite Hn.
    destruct a as [[] []]; reflexivity.
Qed.

(** A probe that reaches an Empty slot does not find the key. *)
Lemma vacant_not_bound hm k d e v0 :
  0 <= d ->
  (forall j, 0 <= j < d -> passes (entries hm) k (probe_at hm (home hm k) j)) ->
  vacant (entries hm) (probe_at hm (home hm k) d) e ->
  bound hm k v0 -> False.
Proof.
  intros Hd Hp (Hs & Hu) (d0 & e0 & Hd0 & Hp0 & (Hs0 & Hu0 & Hdl0 & Hk0) & _).
  destruct (Z.lt_trichotomy d0 d) as [Hlt | [-> | Hgt]].
  - apply (StandaloneInv.passes_not_held _ _ _ _ (Hp d0 ltac:(lia)) Hs0);
      [apply occupied_iff; auto | exact Hk0].
  - congruence.
  - destruct (Hp0 d ltac:(lia)) as (e1 & Hs1 & Hu1 & _). congruence.
Qed.

End InsertTarget.

(** C8 on the standalone table, in any state: on every well-formed table
    whose Occupied slots own a key and a value (what [hashmap_create]
    establishes and every set and delete keeps, whatever the allocator does)
    [hashmap_set] returns, 0 or -1.  It returns -1 when the value copy
    fails, and when the key copy fails for a key the table does not hold.
    Whenever it returns -1 the table it leaves is again such a table; if the
    probe finds the key, the table is unchanged, the old value in place; and
    otherwise either the table is unchanged or the one slot that differs is
    the target of the insert, left zeroed (Empty): the probe passed the
    slots before [d], reached the Empty slot at [d], and the target [t] is
    the first tombstone it passed, or [d] when it passed none. *)
Theorem standalone_failed_copy (a : alloc) hm k v :
  StandaloneSpec.wf hm -> live (Standalone.entries hm) ->
  exists hm' r,
    Standalone.hashmap_set a hm k v = Some (hm', r) /\
    (r = 0 \/ r = -1) /\
    (val_ok a = false -> r = -1) /\
    (key_ok a = false -> StandaloneSpec.absent hm k -> r = -1) /\
    (r = -1 ->
     StandaloneSpec.wf hm' /\ live (Standalone.entries hm') /\
     (forall v0, StandaloneSpec.bound hm k v0 -> hm' = hm) /\
     (hm' = hm \/
      exists d t e0,
        0 <= t <= d /\ d < Standalone.cap hm /\
        (forall j, 0 <= j < d ->
           passes (Standalone.entries hm) k
             (Standalone.probe_at hm (Standalone.home hm k) j)) /\
        (exists e, vacant (Standalone.entries hm)
                     (Standalone.probe_at hm (Standalone.home hm k) d) e) /\
        (t < d -> tomb (Standalone.entries hm)
                    (Standalone.probe_at hm (Standalone.home hm k) t)) /\
        (forall j, 0 <= j < t ->
           ~ tomb (Standalone.entries hm)
               (Standalone.probe_at hm (Standalone.home hm k) j)) /\
        slot (Standalone.entries hm)
          (Standalone.probe_at hm (Standalone.home hm k) t) = Some e0 /\
        state_of e0 <> Occupied /\
        hm' = Standalone.put hm
                (Standalone.probe_at hm (Standalone.home hm k) t)
                zero_entry)).
Proof.
  intros Hw Hl.
  destruct (StandaloneLoops.probe_cases hm k Hw Hl)
    as [Hall | (d & Hd & Hp & [(e & Hh) | (e & Hv)])].
  - exists hm, (-1).
    split; [now apply StandaloneLoops.set_exhausted|].
    split; [now right|]. split; [reflexivity|]. split; [reflexivity|].
    intros _. split; [assumption|]. split; [assumption|].
    split; [reflexivity | now left].
  - rewrite (StandaloneLoops.set_update a hm k v d e Hd Hp Hh).
    destruct (val_ok a) eqn:Ev.
    + eexists. exists 0. split; [reflexivity|]. split; [now left|].
      split; [discriminate|]. split; [|discriminate].
      intros _ Habs. exfalso. destruct Hh as (Hs & Hu & Hdl & Hk).
      apply (Habs _ e (StandaloneLoops.probe_at_nonneg _ _ _) Hs);
        [apply occupied_iff; auto | assumption].
    + exists hm, (-1). split; [reflexivity|]. split; [now right|].
      split; [reflexivity|]. split; [reflexivity|].
      intros _. split; [assumption|]. split; [assumption|].
      split; [reflexivity | now left].
  - destruct (InsertTarget.set_insert_first a hm k v d e Hd Hp Hv)
      as (t & Ht & Htomb & Hfirst & E).
    rewrite E.
    assert (Hold : exists e0,
              slot (Standalone.entries hm)
                (Standalone.probe_at hm (Standalone.home hm k) t) = Some e0 /\
              state_of e0 <> Occupied).
    { destruct (Z.eq_dec t d) as [->|Hne].
      - destruct Hv as (Hs & Hu). exists e. split; [assumption|].
        intros Ho. apply occupied_iff in Ho as [Hu' _]. congruence.
      - destruct (Htomb ltac:(lia)) as (e0 & Hs & Hu & Hdl).
        exists e0. split; [assumption|].
        intros Ho. apply occupied_iff in Ho as [_ Hd']. congruence. }
    destruct Hold as (e0 & Hs0 & Hno).
    destruct (key_ok a && val_ok a) eqn:Eok.
    + apply andb_prop in Eok as [Ek Ev].
      eexists. exists 0. split; [reflexivity|]. split; [now left|].
      split; [congruence|]. split; [congruence | discriminate].
    + eexists. exists (-1). split; [reflexivity|]. split; [now right|].
      split; [reflexivity|]. split; [reflexivity|].
      intros _. split; [|split; [|split]].
      * now apply StandaloneInv.wf_put.
      * simpl. apply (ServerLoops.live_store _ _ e0); try assumption.
        -- apply StandaloneLoops.probe_at_nonneg.
        -- discriminate.
      * intros v0 Hb. exfalso.
        exact (InsertTarget.vacant_not_bound hm k d e v0 (proj1 Hd) Hp Hv Hb).
      * right. exists d, t, e0.
        split; [lia|]. split; [lia|]. split; [exact Hp|].
        split; [eauto|]. split; [exact Htomb|]. split; [exact Hfirst|].
        split; [exact Hs0|]. split; [exact Hno | reflexivity].
Qed.

(** The zeroed slot can be a tombstone, and then it no longer carries the
    probes that went over it.  On the table of capacity 4 the keys a, e, i
    share the home slot 0: after set a, set e, delete a, a set of i whose key
    copy fails zeroes slot 0, and e, in slot 1, is not found any more. *)
Example standalone_failed_set_hides_key :
  exists hm1 hm2,
    StandaloneSpec.run [OSet "a" "1"; OSet "e" "5"; ODel "a"] small = Some hm1 /\
    Standalone.hashmap_get hm1 "e" = Some (Live "5") /\
    Standalone.hashmap_set (mk_alloc false true) hm1 "i" "9" = Some (hm2, -1) /\
    slot (Standalone.entries hm2) 0 = Some zero_entry /\
    Standalone.hashmap_get hm2 "e" = Some Null.
Proof.
  eexists. eexists.
  split; [vm_compute; reflexivity|].
  split; [vm_compute; reflexivity|].
  split; [vm_compute; reflexivity|].
  split; vm_compute; reflexivity.
Qed.

(** C8 as stated fails on the server table, whose [hashmap_set] returns
    nothing and does not test its copies: on the fresh table a set whose key
    copy fails leaves the home slot of the key Occupied with a NULL key. *)
Lemma server_failed_copy_occupies_slot :
  ~ (forall a hm k v hm',
       ServerSpec.reachable hm ->
       key_ok a = false \/ val_ok a = false ->
       Server.hashmap_set a hm k v = Some hm' ->
       live (Server.entries hm')).
Proof.
  intros H.
  pose (hm0 := Server.mk_hashmap
                 (replicate (Z.to_nat Server.TABLE_SIZE) zero_entry)).
  pose (bad := mk_entry Null (Live "v") true false).
  assert (Hreach : ServerSpec.reachable hm0).
  { exists [], hm0. split; reflexivity. }
  assert (E : Server.hashmap_set (mk_alloc false true) hm0 "k" "v"
              = Some (Server.put hm0 (Server.home "k") bad))
    by (vm_compute; reflexivity).
  specialize (H (mk_alloc false true) hm0 "k" "v" _ Hreach
                (or_introl eq_refl) E).
  destruct (H (Server.home "k") bad) as (k' & v' & Hk & _).
  - vm_compute. discriminate.
  - vm_compute. reflexivity.
  - reflexivity.
  - discriminate Hk.
Qed.

Module FailedCopy.
Import Server ServerSpec ServerLoops.

(** The server's get when its probe, after slots it passes, reads a slot
    that is Occupied with a NULL key. *)
Lemma get_null_key hm k d e :
  0 <= d < TABLE_SIZE ->
  (forall j, 0 <= j < d -> passes (entries hm) k (probe_at (home k) j)) ->
  slot (entries hm) (probe_at (home k) d) = Some e ->
  used e = true -> deleted e = false -> key e = Null ->
  hashmap_get hm k = None.
Proof.
  intros Hd Hp Hs Hu Hdel Hk. rewrite get_lift.
  unfold Standalone.hashmap_get. rewrite <- (home_lift hm k).
  change (Standalone.cap (lift hm)) with TABLE_SIZE.
  rewrite (StandaloneLoops.split_rounds _ d Hd),
    StandaloneLoops.get_loop_skip by (intros; apply Hp; lia).
  replace (0 + Z.of_nat (Z.to_nat d)) with d by lia.
  rewrite StandaloneLoops.get_loop_S.
  change (Standalone.probe_at (lift hm) (home k) d) with (probe_at (home k) d).
  change (Standalone.entries (lift hm)) with (entries hm).
  now rewrite Hs, Hu, Hdel, Hk.
Qed.

(** The same probe, when the slot holds the key. *)
Lemma get_held hm k d e :
  0 <= d < TABLE_SIZE ->
  (forall j, 0 <= j < d -> passes (entries hm) k (probe_at (home k) j)) ->
  holds (entries hm) k (probe_at (home k) d) e ->
  hashmap_get hm k = Some (val e).
Proof.
  intros Hd Hp Hh. rewrite get_lift.
  apply (StandaloneLoops.get_found (lift hm) k d e Hd).
  - intros j Hj. rewrite <- (home_lift hm k). now apply Hp.
  - rewrite <- (home_lift hm k). exact Hh.
Qed.

(** Writing the slot at probe [d] leaves the slots probed before it. *)
Lemma passes_before hm k d e' :
  wf hm -> 0 <= d < TABLE_SIZE ->
  (forall j, 0 <= j < d -> foreign (entries hm) k (probe_at (home k) j)) ->
  forall j, 0 <= j < d ->
    passes (entries (put hm (probe_at (home k) d) e')) k (probe_at (home k) j).
Proof.
  intros Hw Hd Hp j Hj. apply foreign_passes.
  destruct (Hp j Hj) as (e & k' & Hs & Hrest).
  exists e, k'. split; [|exact Hrest].
  simpl. rewrite StandaloneLoops.slot_store_ne; try apply srv_probe_at_nonneg.
  - exact Hs.
  - intros Heq.
    assert (d = j); [|lia].
    apply (StandaloneLoops.probe_inj (lift hm) k d j (wf_lift hm Hw));
      try (change (Standalone.cap (lift hm)) with TABLE_SIZE; lia).
    rewrite <- (home_lift hm k). exact Heq.
Qed.

Lemma slot_written hm k d e' :
  wf hm -> 0 <= d < TABLE_SIZE ->
  slot (entries (put hm (probe_at (home k) d) e')) (probe_at (home k) d)
    = Some e'.
Proof.
  intros Hw Hd. simpl. apply StandaloneLoops.slot_store_eq.
  pose proof (srv_probe_range k d Hd). unfold wf in Hw. lia.
Qed.

End FailedCopy.

(** C8, on the server table.  [hashmap_set] of the server does not test
    what [strdup] returns, and returns nothing.  Whenever it inserts (its
    probe, after slots of other keys, reaches an Empty slot or a tombstone)
    and the key copy fails, that slot is left Occupied with a NULL key, and
    the [hashmap_get] of the key that follows passes the NULL key to
    [strcmp].  Whenever it updates (the probe reaches the slot of the key)
    and the value copy fails, the old value has been freed and the slot is
    left Occupied with a NULL value, which [hashmap_get] returns: the key
    reads as not found.  So it is on the fresh table for the set of k0, v0
    with a failing key copy (slot 782), and for the set of k0, w0 with a
    failing value copy after the set of k0, v0. *)
Theorem server_failed_copy_corrupts_slot :
  (forall a hm k v d e,
     ServerSpec.wf hm -> 0 <= d < Server.TABLE_SIZE ->
     (forall j, 0 <= j < d ->
        foreign (Server.entries hm) k (Server.probe_at (Server.home k) j)) ->
     slot (Server.entries hm) (Server.probe_at (Server.home k) d) = Some e ->
     ServerSpec.writable e -> key_ok a = false ->
     exists hm',
       Server.hashmap_set a hm k v = Some hm' /\
       slot (Server.entries hm') (Server.probe_at (Server.home k) d) =
         Some (mk_entry Null (strdup (val_ok a) v) true false) /\
       Server.hashmap_get hm' k = None) /\
  (forall a hm k v d e,
     ServerSpec.wf hm -> 0 <= d < Server.TABLE_SIZE ->
     (forall j, 0 <= j < d ->
        foreign (Server.entries hm) k (Server.probe_at (Server.home k) j)) ->
     holds (Server.entries hm) k (Server.probe_at (Server.home k) d) e ->
     val_ok a = false ->
     exists hm',
       Server.hashmap_set a hm k v = Some hm' /\
       slot (Server.entries hm') (Server.probe_at (Server.home k) d) =
         Some (mk_entry (Live k) Null true false) /\
       Server.hashmap_get hm' k = Some Null) /\
  (exists hm1,
     Server.hashmap_set (mk_alloc false true) fresh_server "k0" "v0"
       = Some hm1 /\
     slot (Server.entries hm1) 782 =
       Some (mk_entry Null (Live "v0") true false) /\
     state_of (mk_entry Null (Live "v0") true false) = Occupied /\
     Server.hashmap_get hm1 "k0" = None /\
     Server.hashmap_set alloc_ok hm1 "k0" "v0" = None) /\
  (exists hm1 hm2,
     Server.hashmap_set alloc_ok fresh_server "k0" "v0" = Some hm1 /\
     Server.hashmap_get hm1 "k0" = Some (Live "v0") /\
     Server.hashmap_set (mk_alloc true false) hm1 "k0" "w0" = Some hm2 /\
     slot (Server.entries hm2) 782 =
       Some (mk_entry (Live "k0") Null true false) /\
     Server.hashmap_get hm2 "k0" = Some Null).
Proof.
  split; [|split; [|split]].
  - intros a hm k v d e Hw Hd Hp Hs Hwr Hk.
    rewrite (ServerLoops.set_write a hm k v d e Hd Hp Hs Hwr), Hk.
    eexists. split; [reflexivity|]. split.
    + now apply FailedCopy.slot_written.
    + apply (FailedCopy.get_null_key _ k d
               (mk_entry Null (strdup (val_ok a) v) true false) Hd);
        try reflexivity.
      * now apply FailedCopy.passes_before.
      * now apply FailedCopy.slot_written.
  - intros a hm k v d e Hw Hd Hp Hh Hv.
    rewrite (ServerLoops.srv_set_update a hm k v d e Hd Hp Hh), Hv.
    eexists. split; [reflexivity|]. split.
    + now apply FailedCopy.slot_written.
    + apply (FailedCopy.get_held _ k d (mk_entry (Live k) Null true false) Hd).
      * now apply FailedCopy.passes_before.
      * split; [now apply FailedCopy.slot_written|]. auto.
  - eexists.
    split; [vm_compute; reflexivity|].
    split; [vm_compute; reflexivity|].
    split; [reflexivity|].
    split; vm_compute; reflexivity.
  - eexists. eexists.
    split; [vm_compute; reflexivity|].
    split; [vm_compute; reflexivity|].
    split; [vm_compute; reflexivity|].
    split; vm_compute; reflexivity.
Qed.

(** ** The request handler *)

Module HandlerFacts.
Import Server.

Lemma skip_delim_head s c s' : skip_delim s = String c s' -> Ascii.eqb c colon = false.
Proof.
  induction s as [|c0 s IH]; simpl; [discriminate|].
  destruct (Ascii.eqb c0 colon) eqn:E; [exact IH|].
  intros H. injection H as <- _. exact E.
Qed.

Lemma token_no_colon s : forall t r, token s = (t, r) -> no_colon t = true.
Proof.
  induction s as [|c s IH]; simpl; intros t r H.
  - injection H as <- _. reflexivity.
  - destruct (Ascii.eqb c colon) eqn:E.
    + injection H as <- _. reflexivity.
    + destruct (token s) as [t' r'] eqn:Et. injection H as <- _.
      simpl. rewrite E. simpl. eapply IH. reflexivity.
Qed.

Lemma strtok_token s t r :
  strtok s = Some (t, r) -> t <> "" /\ no_colon t = true.
Proof.
  unfold strtok. destruct (skip_delim s) as [|c s'] eqn:Es; [discriminate|].
  intros H. injection H as H. split.
  - pose proof H as H'. simpl in H'.
    rewrite (skip_delim_head _ _ _ Es) in H'.
    destruct (token s') as [t' r']. injection H' as <- _. discriminate.
  - apply (token_no_colon (String c s') t r). exact H.
Qed.

Lemma strtok_colon s : strtok (String colon s) = strtok s.
Proof. reflexivity. Qed.

Lemma token_app t : forall r,
  no_colon t = true -> token (t ++ String colon r) = (t, r).
Proof.
  induction t as [|c t IH]; intros r H; simpl.
  - reflexivity.
  - simpl in H. apply andb_prop in H as [Hc Ht].
    apply negb_true_iff in Hc. rewrite Hc, (IH r Ht). reflexivity.
Qed.

Lemma token_end t : no_colon t = true -> token t = (t, "").
Proof.
  induction t as [|c t IH]; intros H; simpl.
  - reflexivity.
  - simpl in H. apply andb_prop in H as [Hc Ht].
    apply negb_true_iff in Hc. rewrite Hc, (IH Ht). reflexivity.
Qed.

Lemma skip_delim_token t s :
  t <> "" -> no_colon t = true -> skip_delim (t ++ s) = t ++ s.
Proof.
  destruct t as [|c t]; [congruence|]. intros _ H. simpl in *.
  apply andb_prop in H as [Hc _]. apply negb_true_iff in Hc.
  now rewrite Hc.
Qed.

Lemma strtok_app t r :
  t <> "" -> no_colon t = true -> strtok (t ++ String colon r) = Some (t, r).
Proof.
  intros Hne Hc. unfold strtok. rewrite skip_delim_token by assumption.
  destruct t as [|c t]; [congruence|].
  change (String c t ++ String colon r) with (String c (t ++ String colon r)).
  change (String c (t ++ String colon r)) with (String c t ++ String colon r).
  rewrite <- (token_app (String c t) r Hc). reflexivity.
Qed.

Lemma strtok_end t :
  t <> "" -> no_colon t = true -> strtok t = Some (t, "").
Proof.
  intros Hne Hc. unfold strtok.
  pose proof (skip_delim_token t "" Hne Hc) as E.
  assert (Et : t ++ "" = t) by (clear; induction t; simpl; congruence).
  rewrite Et in E. rewrite E.
  destruct t as [|c t]; [congruence|].
  rewrite <- (token_end (String c t) Hc). reflexivity.
Qed.

Lemma dispatch_set a k r2 hm :
  k <> "" -> no_colon k = true ->
  dispatch a ("set" ++ String colon (k ++ String colon r2)) hm =
  match strtok r2 with
  | Some (v, _) =>
      match hashmap_set a hm k v with
      | None => Aborted
      | Some hm' => Returned hm' ""
      end
  | None => Returned hm ""
  end.
Proof.
  intros Hk Hc. unfold dispatch.
  rewrite (strtok_app "set" _ ltac:(discriminate) eq_refl).
  change (String.eqb "set" "get") with false.
  change (String.eqb "set" "set") with true. cbv iota.
  now rewrite (strtok_app k r2 Hk Hc).
Qed.

(** What a request that returns can have done to the table. *)
Lemma dispatch_effect a msg hm hm' reply :
  dispatch a msg hm = Returned hm' reply ->
  hm' = hm \/
  (exists k v, (k <> "" /\ no_colon k = true) /\
     (v <> "" /\ no_colon v = true) /\
     hashmap_set a hm k v = Some hm') \/
  (exists k, (k <> "" /\ no_colon k = true) /\
     hashmap_delete hm k = Some hm').
Proof.
  unfold dispatch.
  destruct (strtok msg) as [[cmd r1]|] eqn:E0; [|discriminate].
  destruct (String.eqb cmd "get").
  { destruct (strtok r1) as [[k r2]|].
    - destruct (hashmap_get hm k) as [[| |]|]; simpl; try discriminate;
        intros H; injection H as <- _; now left.
    - intros H. injection H as <- _. now left. }
  destruct (String.eqb cmd "set").
  { destruct (strtok r1) as [[k r2]|] eqn:E1.
    - destruct (strtok r2) as [[v r3]|] eqn:E2.
      + destruct (hashmap_set a hm k v) as [hm1|] eqn:Es; [|discriminate].
        intros H. injection H as <- _. right. left. exists k, v.
        split; [now apply (strtok_token r1 k r2)|].
        split; [now apply (strtok_token r2 v r3) | exact Es].
      + intros H. injection H as <- _. now left.
    - intros H. injection H as <- _. now left. }
  destruct (String.eqb cmd "del").
  { destruct (strtok r1) as [[k r2]|] eqn:E1.
    - destruct (hashmap_delete hm k) as [hm1|] eqn:Ed; [|discriminate].
      intros H. injection H as <- _. right. right. exists k.
      split; [now apply (strtok_token r1 k r2) | exact Ed].
    - intros H. injection H as <- _. now left. }
  intros H. injection H as <- _. now left.
Qed.

(** A body whose first token is no command, or whose command lacks a token,
    changes nothing and is not answered. *)
Lemma dispatch_ignored a msg hm cmd r1 :
  strtok msg = Some (cmd, r1) ->
  (cmd <> "get" /\ cmd <> "set" /\ cmd <> "del") \/
  strtok r1 = None \/
  (cmd = "set" /\ exists k r2, strtok r1 = Some (k, r2) /\ strtok r2 = None) ->
  dispatch a msg hm = Returned hm "".
Proof.
  intros E0 H. unfold dispatch. rewrite E0.
  destruct H as [(Hg & Hs & Hd) | [Hn | (-> & k & r2 & E1 & E2)]].
  - apply String.eqb_neq in Hg, Hs, Hd. now rewrite Hg, Hs, Hd.
  - rewrite Hn.
    destruct (String.eqb cmd "get"); [reflexivity|].
    destruct (String.eqb cmd "set"); [reflexivity|].
    destruct (String.eqb cmd "del"); reflexivity.
  - change (String.eqb "set" "get") with false.
    change (String.eqb "set" "set") with true. cbv iota.
    now rewrite E1, E2.
Qed.

End HandlerFacts.

(** ** C6: requests that are not commands *)

(** A request with the body xyz, and any whose first token is no command or
    whose command lacks a token, returns with the table as it was and
    nothing written. *)
Theorem malformed_request_ignored :
  (forall a hm, Server.handle_pkt true a "3:xyz" hm = Server.Returned hm "") /\
  (forall a msg hm cmd r1,
     Server.strtok msg = Some (cmd, r1) ->
     (cmd <> "get" /\ cmd <> "set" /\ cmd <> "del") \/
     Server.strtok r1 = None \/
     (cmd = "set" /\
      exists k r2, Server.strtok r1 = Some (k, r2) /\ Server.strtok r2 = None) ->
     Server.dispatch a msg hm = Server.Returned hm "").
Proof.
  split; [reflexivity | apply HandlerFacts.dispatch_ignored].
Qed.

(** C6, at the empty body.  For a body without a token (empty, or made of
    delimiters only) [strtok] returns NULL and [handle_pkt] passes it to
    [strcmp]: the call does not return normally.  So it is for the requests
    0: and 2::: on any table. *)
Theorem empty_body_dereferences_null :
  (forall a msg hm, Server.strtok msg = None ->
     Server.dispatch a msg hm = Server.Aborted) /\
  (forall a hm, Server.handle_pkt true a "0:" hm = Server.Aborted) /\
  (forall a hm, Server.handle_pkt true a "2:::" hm = Server.Aborted).
Proof.
  split; [|split; reflexivity].
  intros a msg hm H. unfold Server.dispatch. now rewrite H.
Qed.

(** ** C7: the framing examples *)


(** ** C10: what the tokenizer lets through *)

(** C10.  Every token [strtok] returns is non-empty and free of ':'; a
    leading ':' is skipped, so runs of delimiters collapse.  Hence a request
    that returns has left the table as it was, or has made one
    [hashmap_set] or [hashmap_delete] whose key and value are such tokens.
    A set body stores the third token alone: what follows its next ':' does
    not matter.  The body set:k: stores nothing. *)
Theorem strtok_keys_and_values :
  (forall s t r, Server.strtok s = Some (t, r) ->
     t <> "" /\ no_colon t = true) /\
  (forall s, Server.strtok (String Server.colon s) = Server.strtok s) /\
  (forall a msg hm hm' reply,
     Server.dispatch a msg hm = Server.Returned hm' reply ->
     hm' = hm \/
     (exists k v, (k <> "" /\ no_colon k = true) /\
        (v <> "" /\ no_colon v = true) /\
        Server.hashmap_set a hm k v = Some hm') \/
     (exists k, (k <> "" /\ no_colon k = true) /\
        Server.hashmap_delete hm k = Some hm')) /\
  (forall a k v rest hm,
     k <> "" -> no_colon k = true -> v <> "" -> no_colon v = true ->
     Server.dispatch a ("set:" ++ k ++ ":" ++ v ++ ":" ++ rest) hm =
     Server.dispatch a ("set:" ++ k ++ ":" ++ v) hm /\
     Server.dispatch a ("set:" ++ k ++ ":" ++ v) hm =
     match Server.hashmap_set a hm k v with
     | None => Server.Aborted
     | Some hm' => Server.Returned hm' ""
     end) /\
  (forall a hm,
     Server.dispatch a "set:k:" hm = Server.Returned hm "" /\
     Server.handle_pkt true a "6:set:k:" hm = Server.Returned hm "" /\
     Server.handle_pkt true a "7:set::k:" hm = Server.Returned hm "").
Proof.
  split; [exact HandlerFacts.strtok_token|].
  split; [exact HandlerFacts.strtok_colon|].
  split; [exact HandlerFacts.dispatch_effect|].
  split; [|intros a hm; repeat split; reflexivity].
  intros a k v rest hm Hk Hck Hv Hcv.
  change ("set:" ++ k ++ ":" ++ v ++ ":" ++ rest)
    with ("set" ++ String Server.colon
            (k ++ String Server.colon (v ++ String Server.colon rest))).
  change ("set:" ++ k ++ ":" ++ v)
    with ("set" ++ String Server.colon (k ++ String Server.colon v)).
  rewrite !HandlerFacts.dispatch_set by assumption.
  rewrite (HandlerFacts.strtok_app v rest Hv Hcv).
  rewrite (HandlerFacts.strtok_end v Hv Hcv).
  split; reflexivity.
Qed.

(** ** The theorems at concrete tables *)

Lemma liveb_live es : liveb es = true -> live es.
Proof.
  intros H p e _ Hs Ho. unfold liveb in H. rewrite forallb_forall in H.
  assert (Hin : In e es).
  { apply list_elem_of_In. eapply list_elem_of_lookup_2. exact Hs. }
  specialize (H e Hin). rewrite Ho in H.
  destruct (key e) as [|k|]; try discriminate.
  destruct (val e) as [|v|]; try discriminate. eauto.
Qed.

Lemma absentb_absent hm k :
  absentb (Standalone.entries hm) k = true -> StandaloneSpec.absent hm k.
Proof.
  intros H q e _ Hs Ho Hk. unfold absentb in H. rewrite forallb_forall in H.
  assert (Hin : In e (Standalone.entries hm)).
  { apply list_elem_of_In. eapply list_elem_of_lookup_2. exact Hs. }
  specialize (H e Hin). rewrite Ho, Hk, String.eqb_refl in H. discriminate.
Qed.

Lemma standalone_full hm k :
  StandaloneSpec.wf hm ->
  occupied_by_others (Standalone.entries hm) k = true ->
  forall j, 0 <= j < Standalone.cap hm ->
    foreign (Standalone.entries hm) k
      (Standalone.probe_at hm (Standalone.home hm k) j).
Proof.
  intros Hw Hall j Hj.
  destruct (StandaloneLoops.slot_in_range hm
              (Standalone.probe_at hm (Standalone.home hm k) j) Hw
              (StandaloneLoops.probe_range hm k j Hw Hj)) as (e & Hs).
  now apply (occupied_by_others_foreign _ _ _ e).
Qed.

Lemma server_full hm k :
  ServerSpec.wf hm ->
  occupied_by_others (Server.entries hm) k = true ->
  forall j, 0 <= j < Server.TABLE_SIZE ->
    foreign (Server.entries hm) k (Server.probe_at (Server.home k) j).
Proof.
  intros Hw Hall j Hj.
  destruct (ServerLoops.srv_slot_in_range hm
              (Server.probe_at (Server.home k) j) Hw
              (ServerLoops.srv_probe_range k j Hj)) as (e & Hs).
  now apply (occupied_by_others_foreign _ _ _ e).
Qed.

Lemma wf_small : StandaloneSpec.wf small.
Proof. split; [exists 2; split; [lia | reflexivity] | reflexivity]. Qed.

Lemma wf_small_full : StandaloneSpec.wf small_full.
Proof. split; [exists 2; split; [lia | reflexivity] | reflexivity]. Qed.

Lemma reachable_small : StandaloneSpec.reachable small.
Proof. exists 1, [], small. split; reflexivity. Qed.

Lemma reachable_small_full : StandaloneSpec.reachable small_full.
Proof.
  exists 1, [OSet "a" "1"; OSet "b" "2"; OSet "c" "3"; OSet "d" "4"], small.
  split; reflexivity.
Qed.

Lemma reachable_fresh_server : ServerSpec.reachable fresh_server.
Proof. exists [], fresh_server. split; reflexivity. Qed.

Lemma reachable_warmed_up : ServerSpec.reachable warmed_up.
Proof.
  exists (populate 1024), fresh_server. split; [reflexivity|].
  vm_compute. reflexivity.
Qed.

Lemma set_get_round_trip_witness :
  (exists hm2,
     StandaloneSpec.run [OSet "e" "5"; ODel "e"]
       (Standalone.put small 0 (mk_entry (Live "a") (Live "1") true false))
     = Some hm2 /\
     Standalone.hashmap_get hm2 "a" = Some (Live "1")) /\
  (exists hm1,
     Server.hashmap_set alloc_ok fresh_server "k109" "v109" = Some hm1 /\
     forall ops hm2,
       Forall (fun o => op_key o <> "k109") ops ->
       ServerSpec.run ops hm1 = Some hm2 ->
       Server.hashmap_get hm2 "k109" = Some (Live "v109")).
Proof.
  split.
  - apply (proj1 set_get_round_trip alloc_ok small "a" "1"
             (Standalone.put small 0 (mk_entry (Live "a") (Live "1") true false))
             [OSet "e" "5"; ODel "e"]).
    + exact reachable_small.
    + vm_compute. reflexivity.
    + repeat constructor; simpl; discriminate.
  - apply (proj2 set_get_round_trip fresh_server "k109" "v109").
    + exact reachable_fresh_server.
    + exists 0, zero_entry.
      split; [unfold Server.TABLE_SIZE; lia|].
      split; [vm_compute; reflexivity | left; reflexivity].
Defined.

Lemma get_walks_probe_sequence_witness :
  Standalone.hashmap_get small_full "c" =
    Some (get_spec (Standalone.entries small_full) 4
            (Standalone.fnv_hash "c") "c") /\
  Server.hashmap_get warmed_up "k1024" =
    Some (get_spec (Server.entries warmed_up) Server.TABLE_SIZE
            (Server.fnv_hash "k1024") "k1024").
Proof.
  split.
  - apply (proj1 get_walks_probe_sequence small_full "c").
    + exact wf_small_full.
    + apply liveb_live. vm_compute. reflexivity.
  - apply (proj2 get_walks_probe_sequence warmed_up "k1024").
    + vm_compute. reflexivity.
    + apply liveb_live. vm_compute. reflexivity.
Defined.

Lemma full_table_set_dropped_witness :
  (Standalone.hashmap_set alloc_ok small_full "e" "5" = Some (small_full, -1) /\
   Standalone.hashmap_get small_full "e" = Some Null) /\
  (Server.hashmap_set alloc_ok warmed_up "k1024" "v1024" = Some warmed_up /\
   Server.hashmap_get warmed_up "k1024" = Some Null).
Proof.
  split.
  - apply (proj1 full_table_set_dropped alloc_ok small_full "e" "5").
    apply standalone_full; [exact wf_small_full | vm_compute; reflexivity].
  - apply (proj2 full_table_set_dropped alloc_ok warmed_up "k1024" "v1024").
    apply server_full; vm_compute; reflexivity.
Defined.

Lemma standalone_failed_copy_witness :
  exists hm' r,
    Standalone.hashmap_set (mk_alloc true false) small "a" "1" = Some (hm', r) /\
    (r = 0 \/ r = -1) /\
    (val_ok (mk_alloc true false) = false -> r = -1) /\
    (key_ok (mk_alloc true false) = false ->
     StandaloneSpec.absent small "a" -> r = -1) /\
    (r = -1 ->
     StandaloneSpec.wf hm' /\ live (Standalone.entries hm') /\
     (forall v0, StandaloneSpec.bound small "a" v0 -> hm' = small) /\
     (hm' = small \/
      exists d t e0,
        0 <= t <= d /\ d < Standalone.cap small /\
        (forall j, 0 <= j < d ->
           passes (Standalone.entries small) "a"
             (Standalone.probe_at small (Standalone.home small "a") j)) /\
        (exists e, vacant (Standalone.entries small)
                     (Standalone.probe_at small (Standalone.home small "a") d) e) /\
        (t < d -> tomb (Standalone.entries small)
                    (Standalone.probe_at small (Standalone.home small "a") t)) /\
        (forall j, 0 <= j < t ->
           ~ tomb (Standalone.entries small)
               (Standalone.probe_at small (Standalone.home small "a") j)) /\
        slot (Standalone.entries small)
          (Standalone.probe_at small (Standalone.home small "a") t) = Some e0 /\
        state_of e0 <> Occupied /\
        hm' = Standalone.put small
                (Standalone.probe_at small (Standalone.home small "a") t)
                zero_entry)).
Proof.
  apply (standalone_failed_copy (mk_alloc true false) small "a" "1").
  - exact wf_small.
  - apply liveb_live. vm_compute. reflexivity.
Defined.

Lemma server_failed_copy_corrupts_slot_witness :
  (exists hm',
     Server.hashmap_set (mk_alloc false true) fresh_server "k109" "v109"
       = Some hm' /\
     slot (Server.entries hm')
       (Server.probe_at (Server.home "k109") 0) =
       Some (mk_entry Null (strdup (val_ok (mk_alloc false true)) "v109")
               true false) /\
     Server.hashmap_get hm' "k109" = None) /\
  (exists hm',
     Server.hashmap_set (mk_alloc true false)
       (Server.put fresh_server 782
          (mk_entry (Live "k0") (Live "v0") true false)) "k0" "w0"
       = Some hm' /\
     slot (Server.entries hm') (Server.probe_at (Server.home "k0") 0) =
       Some (mk_entry (Live "k0") Null true false) /\
     Server.hashmap_get hm' "k0" = Some Null).
Proof.
  split.
  - apply (proj1 server_failed_copy_corrupts_slot (mk_alloc false true)
             fresh_server "k109" "v109" 0 zero_entry).
    + vm_compute. reflexivity.
    + vm_compute. split; [discriminate | reflexivity].
    + intros j Hj. lia.
    + vm_compute. reflexivity.
    + left. reflexivity.
    + reflexivity.
  - apply (proj1 (proj2 server_failed_copy_corrupts_slot) (mk_alloc true false)
             (Server.put fresh_server 782
                (mk_entry (Live "k0") (Live "v0") true false))
             "k0" "w0" 0 (mk_entry (Live "k0") (Live "v0") true false)).
    + vm_compute. reflexivity.
    + vm_compute. split; [discriminate | reflexivity].
    + intros j Hj. lia.
    + split; [vm_compute; reflexivity|]. auto.
    + reflexivity.
Defined.


Lemma fnv_hash_is_fnv1a_witness :
  Server.fnv_hash "k0" = 0x08be0e07b562230e /\
  Standalone.hashmap_get small_full "c" =
    Standalone.get_loop small_full "c"
      (Fnv1aRef.fnv1a (Fnv1aRef.bytes_of "c") mod 4) 4 0.
Proof.
  pose proof (fnv_hash_is_fnv1a "k0") as H0. cbv zeta in H0.
  destruct H0 as (E0 & _).
  split.
  - rewrite E0. vm_compute. reflexivity.
  - pose proof (fnv_hash_is_fnv1a "c") as Hc. cbv zeta in Hc.
    destruct Hc as (_ & _ & _ & _ & _ & _ & _ & _ & Hc).
    destruct (Hc alloc_ok small_full "1" wf_small_full) as (_ & Hg & _).
    exact Hg.
Defined.

Lemma strtok_keys_and_values_witness :
  Server.dispatch alloc_ok "set:k:v:junk" fresh_server =
  Server.dispatch alloc_ok "set:k:v" fresh_server /\
  ("k" <> "" /\ no_colon "k" = true).
Proof.
  destruct strtok_keys_and_values as (Htok & _ & _ & Hset & _).
  split.
  - destruct (Hset alloc_ok "k" "v" "junk" fresh_server) as [E _];
      [discriminate | reflexivity | discriminate | reflexivity | exact E].
  - apply (Htok "::k:v" "k" "v"). reflexivity.
Defined.

(** * Further properties of the code *)

(** ** Sizing and creation of the standalone table *)

Module Sizing.
Import Standalone StandaloneSpec.

Lemma next_pow2_loop_least x : forall fuel j c,
  0 <= j < 64 -> Z.of_nat fuel + j = 64 ->
  (j = 0 \/ 2 ^ (j - 1) < x) ->
  next_pow2_loop fuel x (2 ^ j) = Some c ->
  c = 1 \/ c < 2 * x.
Proof.
  induction fuel as [|f IH]; intros j c Hj Hf Hlow; [lia|].
  simpl. destruct (Z.ltb_spec (2 ^ j) x) as [Hlt|Hge].
  - destruct (Z.eq_dec j 63) as [->|Hne].
    + assert (f = 0%nat) as -> by lia. simpl.
      change (wrap64 (Z.shiftl (2 ^ 63) 1)) with 0.
      destruct (Z.ltb_spec 0 x); [discriminate|].
      assert (0 < 2 ^ 63) by (apply Z.pow_pos_nonneg; lia). lia.
    + rewrite StandaloneInv.shift_pow2 by lia. apply IH; try lia.
      right. now replace (j + 1 - 1) with j by lia.
  - intros H. injection H as <-.
    destruct Hlow as [->|Hlow]; [now left|].
    destruct (Z.eq_dec j 0) as [->|Hj0]; [now left|]. right.
    replace (2 ^ j) with (2 ^ Z.succ (j - 1)) by (f_equal; lia).
    rewrite Z.pow_succ_r by lia. lia.
Qed.

Lemma next_pow2_loop_diverges x : 2 ^ 63 < x -> forall fuel j,
  0 <= j < 64 -> Z.of_nat fuel + j = 64 ->
  next_pow2_loop fuel x (2 ^ j) = None.
Proof.
  intros Hx. induction fuel as [|f IH]; intros j Hj Hf; [lia|].
  assert (Hp : 2 ^ j <= 2 ^ 63) by (apply Z.pow_le_mono_r; lia).
  simpl. destruct (Z.ltb_spec (2 ^ j) x) as [Hlt|Hge]; [|lia].
  destruct (Z.eq_dec j 63) as [->|Hne].
  - assert (f = 0%nat) as -> by lia. simpl.
    change (wrap64 (Z.shiftl (2 ^ 63) 1)) with 0.
    destruct (Z.ltb_spec 0 x); [reflexivity|].
    assert (0 < 2 ^ 63) by (apply Z.pow_pos_nonneg; lia). lia.
  - rewrite StandaloneInv.shift_pow2 by lia. apply IH; lia.
Qed.

Lemma next_pow2_spec x :
  (x <= 2 ^ 63 ->
   exists c, next_pow2 x = Some c /\ pow2 c /\ x <= c /\
             (c = 1 \/ c < 2 * x)) /\
  (2 ^ 63 < x -> next_pow2 x = None).
Proof.
  split.
  - intros Hx. unfold next_pow2.
    destruct (StandaloneInv.next_pow2_loop_total x Hx 64%nat 0) as (c & E & Hc);
      [lia | lia |].
    change (2 ^ 0) with 1 in E. exists c. split; [exact E|].
    split; [|split; [exact Hc|]].
    + apply (StandaloneInv.next_pow2_loop_pow2 x 64%nat 0 c); [lia | lia | exact E].
    + apply (next_pow2_loop_least x 64%nat 0 c);
        [lia | lia | now left | exact E].
  - intros Hx. apply (next_pow2_loop_diverges x Hx 64%nat 0); lia.
Qed.

End Sizing.

(** X1.  [next_pow2]: for an argument of at most 2^63 the loop ends with the
    least power of two that is not below the argument (1 for an argument of
    0 or 1); for a larger argument the doubling wraps to 0 and the loop
    never ends. *)
Theorem next_pow2_least_power (x : Z) :
  (x <= 2 ^ 63 ->
   exists c, Standalone.next_pow2 x = Some c /\ pow2 c /\ x <= c /\
             (c = 1 \/ c < 2 * x)) /\
  (2 ^ 63 < x -> Standalone.next_pow2 x = None).
Proof. apply Sizing.next_pow2_spec. Qed.

Lemma next_pow2_least_power_witness :
  (exists c, Standalone.next_pow2 2049 = Some c /\ pow2 c /\ 2049 <= c /\
             (c = 1 \/ c < 2 * 2049)) /\
  Standalone.next_pow2 (2 ^ 63 + 1) = None.
Proof.
  split.
  - apply (proj1 (next_pow2_least_power 2049)). vm_compute. discriminate.
  - apply (proj2 (next_pow2_least_power (2 ^ 63 + 1))). vm_compute. reflexivity.
Defined.

(** X2.  [hashmap_create]: for a hint below 2^62 and memory granted, the
    table returned has a power-of-two capacity of at least twice the hint
    plus one and below four times the hint plus two, as many slots as its
    capacity, all of them Empty, so that every get finds nothing and every
    delete changes nothing; for a hint from 2^62 up to 2^63 - 1 (the largest
    [main] can pass) the call never returns. *)
Theorem create_sized_and_empty (n : Z) :
  (0 <= n < 2 ^ 62 ->
   exists hm,
     Standalone.hashmap_create true n = Standalone.Table hm /\
     pow2 (Standalone.cap hm) /\
     2 * n + 1 <= Standalone.cap hm < 2 * (2 * n + 1) /\
     Standalone.entries hm =
       replicate (Z.to_nat (Standalone.cap hm)) zero_entry /\
     forall k,
       Standalone.hashmap_get hm k = Some Null /\
       Standalone.hashmap_delete hm k = Some hm) /\
  (2 ^ 62 <= n < 2 ^ 63 ->
   forall ok, Standalone.hashmap_create ok n = Standalone.Diverges).
Proof.
  split.
  - intros Hn.
    destruct (StandaloneInv.create_total n Hn) as (hm & E & Hcap).
    pose proof (StandaloneInv.create_fresh _ _ _ E) as Hf.
    pose proof (StandaloneInv.inv_fresh hm Hf) as (Hw & Hl & _).
    exists hm. split; [exact E|]. split; [apply Hf|].
    split; [|split; [apply Hf|]].
    + split; [exact Hcap|].
      unfold Standalone.hashmap_create in E.
      rewrite (wrap64_small (n * 2 + 1)) in E by lia.
      destruct (proj1 (Sizing.next_pow2_spec (n * 2 + 1)) ltac:(lia))
        as (c & Ec & _ & _ & Hc).
      rewrite Ec in E. injection E as <-. simpl. lia.
    + intros k. apply StandaloneInv.absent_lookup; try assumption.
      intros q e _ Hs Ho. rewrite (StandaloneInv.fresh_slot hm q e Hf Hs) in Ho.
      discriminate.
  - intros Hn ok. unfold Standalone.hashmap_create.
    rewrite (wrap64_small (n * 2 + 1)) by lia.
    now rewrite (proj2 (Sizing.next_pow2_spec (n * 2 + 1)) ltac:(lia)).
Qed.

Lemma create_sized_and_empty_witness :
  (exists hm,
     Standalone.hashmap_create true 1024 = Standalone.Table hm /\
     pow2 (Standalone.cap hm) /\
     2 * 1024 + 1 <= Standalone.cap hm < 2 * (2 * 1024 + 1) /\
     Standalone.entries hm =
       replicate (Z.to_nat (Standalone.cap hm)) zero_entry /\
     forall k,
       Standalone.hashmap_get hm k = Some Null /\
       Standalone.hashmap_delete hm k = Some hm) /\
  (forall ok, Standalone.hashmap_create ok (2 ^ 62) = Standalone.Diverges).
Proof.
  split.
  - apply (proj1 (create_sized_and_empty 1024)). vm_compute. split; [discriminate | reflexivity].
  - apply (proj2 (create_sized_and_empty (2 ^ 62))). vm_compute. split; [discriminate | reflexivity].
Defined.

(** ** The standalone table under any allocator *)

Module Tidy.
Import Standalone StandaloneSpec StandaloneLoops.

Lemma clean_store es p e0 e' :
  clean es -> 0 <= p -> slot es p = Some e0 ->
  (state_of e' <> Occupied -> key e' = Null /\ val e' = Null) ->
  clean (store es p e').
Proof.
  intros Hc Hp Hs0 Hnew q e Hq Hs Ho.
  destruct (Z.eq_dec p q) as [<-|Hne].
  - rewrite slot_store_eq in Hs.
    + injection Hs as <-. auto.
    + apply ServerLoops.slot_range in Hs0. lia.
  - rewrite slot_store_ne in Hs by assumption. eauto.
Qed.

Lemma tidy_put hm p e0 e' :
  tidy hm -> 0 <= p -> slot (entries hm) p = Some e0 ->
  (e' = zero_entry \/ e' = mk_entry Null Null true true \/
   exists k v, e' = mk_entry (Live k) (Live v) true false) ->
  tidy (put hm p e').
Proof.
  intros (Hw & Hl & Hc) Hp Hs He.
  split; [now apply StandaloneInv.wf_put|]. split; simpl.
  - apply (ServerLoops.live_store _ p e0); try assumption.
    destruct He as [->|[->|(k & v & ->)]]; try discriminate. simpl. eauto.
  - apply (clean_store _ p e0); try assumption.
    destruct He as [->|[->|(k & v & ->)]]; simpl; auto.
    intros H. exfalso. apply H. reflexivity.
Qed.

Lemma tidy_fresh hm : fresh hm -> tidy hm.
Proof.
  intros Hf. destruct (StandaloneInv.inv_fresh hm Hf) as (Hw & Hl & _).
  split; [assumption|]. split; [assumption|].
  intros p e _ Hs _. now rewrite (StandaloneInv.fresh_slot hm p e Hf Hs).
Qed.

Lemma tidy_set a hm k v :
  tidy hm ->
  exists hm' r, hashmap_set a hm k v = Some (hm', r) /\
    (r = 0 \/ r = -1) /\ tidy hm'.
Proof.
  intros Ht. pose proof Ht as (Hw & Hl & Hc).
  destruct (probe_cases hm k Hw Hl)
    as [Hall | (d & Hd & Hp & [(e & Hh) | (e & Hv)])].
  - exists hm, (-1). split; [now apply set_exhausted|]. auto.
  - rewrite (set_update a hm k v d e Hd Hp Hh).
    destruct (val_ok a).
    + eexists. exists 0. split; [reflexivity|]. split; [now left|].
      destruct Hh as (Hs & _).
      apply (tidy_put hm _ e); try assumption; [apply probe_at_nonneg|].
      right. right. eauto.
    + exists hm, (-1). auto.
  - destruct (set_insert a hm k v d e Hd Hp Hv) as (t & Ht' & Htomb & E).
    rewrite E.
    assert (Hold : exists e0,
              slot (entries hm) (probe_at hm (home hm k) t) = Some e0).
    { destruct (Z.eq_dec t d) as [->|Hne].
      - destruct Hv as (Hs & _). eauto.
      - destruct (Htomb ltac:(lia)) as (e0 & Hs & _). eauto. }
    destruct Hold as (e0 & Hs0).
    destruct (key_ok a && val_ok a).
    + eexists. exists 0. split; [reflexivity|]. split; [now left|].
      apply (tidy_put hm _ e0); try assumption; [apply probe_at_nonneg|].
      right. right. eauto.
    + eexists. exists (-1). split; [reflexivity|]. split; [now right|].
      apply (tidy_put hm _ e0); try assumption; [apply probe_at_nonneg|].
      now left.
Qed.

Lemma tidy_delete hm k :
  tidy hm -> exists hm', hashmap_delete hm k = Some hm' /\ tidy hm'.
Proof.
  intros Ht. pose proof Ht as (Hw & Hl & Hc).
  destruct (probe_cases hm k Hw Hl)
    as [Hall | (d & Hd & Hp & [(e & Hh) | (e & Hv)])].
  - exists hm. split; [now apply delete_exhausted | assumption].
  - rewrite (delete_found hm k d e Hd Hp Hh). eexists. split; [reflexivity|].
    destruct Hh as (Hs & _).
    apply (tidy_put hm _ e); try assumption; [apply probe_at_nonneg|].
    right. now left.
  - exists hm. split; [now apply (delete_vacant hm k d e) | assumption].
Qed.

Lemma get_defined hm k :
  wf hm -> live (entries hm) ->
  exists r, hashmap_get hm k = Some r /\ (r = Null \/ exists v, r = Live v).
Proof.
  intros Hw Hl.
  destruct (probe_cases hm k Hw Hl)
    as [Hall | (d & Hd & Hp & [(e & Hh) | (e & Hv)])].
  - exists Null. split; [now apply get_exhausted | now left].
  - exists (val e). split; [now apply (get_found hm k d e)|].
    destruct Hh as (Hs & Hu & Hdl & Hk).
    destruct (Hl _ e (probe_at_nonneg _ _ _) Hs) as (k' & v' & _ & Hv).
    { apply occupied_iff. auto. }
    right. eauto.
  - exists Null. split; [now apply (get_vacant hm k d e) | now left].
Qed.

Lemma tidy_get hm k :
  tidy hm ->
  exists r, hashmap_get hm k = Some r /\ (r = Null \/ exists v, r = Live v).
Proof. intros (Hw & Hl & _). now apply get_defined. Qed.

(** The loop of [hashmap_destroy] releases what the slots from [i] on own. *)
Lemma destroy_loop_owned hm : forall n i,
  live (entries hm) -> clean (entries hm) -> 0 <= i ->
  (Z.to_nat i + n = length (entries hm))%nat ->
  destroy_loop hm n i = Some (owned (drop (Z.to_nat i) (entries hm))).
Proof.
  induction n as [|n IH]; intros i Hl Hc Hi Hlen.
  - simpl. rewrite drop_ge by lia. reflexivity.
  - simpl.
    destruct (slot (entries hm) i) as [e|] eqn:Hs.
    2:{ unfold slot in Hs. apply lookup_ge_None in Hs. lia. }
    pose proof Hs as Hs'. unfold slot in Hs'.
    rewrite (drop_S _ _ _ Hs'). simpl owned.
    rewrite (IH (i + 1)); try assumption; try lia.
    replace (Z.to_nat (i + 1)) with (S (Z.to_nat i)) by lia.
    destruct (used e && negb (deleted e)) eqn:Eo.
    + apply andb_prop in Eo as [Hu Hd]. apply negb_true_iff in Hd.
      destruct (Hl i e Hi Hs) as (k & v & -> & ->).
      { apply occupied_iff. auto. }
      reflexivity.
    + destruct (Hc i e Hi Hs) as [-> ->]; [|reflexivity].
      intros Ho. apply occupied_iff in Ho as [Hu Hd].
      rewrite Hu, Hd in Eo. discriminate.
Qed.

Lemma tidy_destroy hm :
  tidy hm -> hashmap_destroy hm = Some (owned (entries hm)).
Proof.
  intros ((Hp & Hlen) & Hl & Hc). unfold hashmap_destroy.
  pose proof (pow2_bounds _ Hp).
  rewrite (destroy_loop_owned hm _ 0); try assumption; try lia.
  reflexivity.
Qed.

End Tidy.

(** X3.  Whatever the allocator does, the standalone table stays well
    formed: a created table is, and on a well-formed table every
    [hashmap_set] returns 0 or -1, every [hashmap_delete] returns, both
    leaving a well-formed table, and every [hashmap_get] returns NULL or a
    value.  No operation reads a NULL key or indexes outside the slots. *)
Theorem standalone_operations_defined :
  (forall n hm, Standalone.hashmap_create true n = Standalone.Table hm ->
     tidy hm) /\
  (forall hm, tidy hm ->
     (forall a k v, exists hm' r,
        Standalone.hashmap_set a hm k v = Some (hm', r) /\
        (r = 0 \/ r = -1) /\ tidy hm') /\
     (forall k, exists hm',
        Standalone.hashmap_delete hm k = Some hm' /\ tidy hm') /\
     (forall k, exists r,
        Standalone.hashmap_get hm k = Some r /\
        (r = Null \/ exists v, r = Live v))).
Proof.
  split.
  - intros n hm E. apply Tidy.tidy_fresh. eapply StandaloneInv.create_fresh.
    exact E.
  - intros hm Ht. split; [|split].
    + intros a k v. now apply Tidy.tidy_set.
    + intros k. now apply Tidy.tidy_delete.
    + intros k. now apply Tidy.tidy_get.
Qed.

Lemma tidy_small : tidy small.
Proof. apply Tidy.tidy_fresh. split; [exists 2; split; [lia|]|]; reflexivity. Qed.

Lemma standalone_operations_defined_witness :
  tidy small /\
  (exists hm' r,
     Standalone.hashmap_set (mk_alloc false true) small "a" "1"
     = Some (hm', r) /\ (r = 0 \/ r = -1) /\ tidy hm') /\
  (exists hm', Standalone.hashmap_delete small "a" = Some hm' /\ tidy hm').
Proof.
  split; [apply (proj1 standalone_operations_defined 1 small); reflexivity|].
  split.
  - apply (proj2 standalone_operations_defined small tidy_small).
  - apply (proj2 standalone_operations_defined small tidy_small).
Defined.

(** X4.  [hashmap_destroy] of the standalone table, on any well-formed
    table: it returns and has released every key and value buffer the slots
    point to, each once; tombstones and Empty slots hold none. *)
Theorem standalone_destroy_releases_all hm :
  tidy hm ->
  Standalone.hashmap_destroy hm = Some (owned (Standalone.entries hm)) /\
  owned (Standalone.entries hm) =
    (2 * List.length (List.filter
                        (fun e => used e && negb (deleted e))
                        (Standalone.entries hm)))%nat.
Proof.
  intros Ht. split; [now apply Tidy.tidy_destroy|].
  destruct Ht as (_ & Hl & Hc).
  revert Hl Hc. generalize (Standalone.entries hm). clear hm.
  induction l as [|e l IH]; intros Hl Hc; [reflexivity|].
  assert (Hl' : live l).
  { intros p e0 Hp Hs. apply (Hl (p + 1)); [lia|].
    unfold slot in *. replace (Z.to_nat (p + 1)) with (S (Z.to_nat p)) by lia.
    exact Hs. }
  assert (Hc' : clean l).
  { intros p e0 Hp Hs. apply (Hc (p + 1)); [lia|].
    unfold slot in *. replace (Z.to_nat (p + 1)) with (S (Z.to_nat p)) by lia.
    exact Hs. }
  simpl. rewrite (IH Hl' Hc').
  destruct (used e && negb (deleted e)) eqn:Eo.
  - apply andb_prop in Eo as [Hu Hd]. apply negb_true_iff in Hd.
    destruct (Hl 0 e ltac:(lia) eq_refl) as (k & v & -> & ->).
    { apply occupied_iff. auto. }
    simpl. lia.
  - destruct (Hc 0 e ltac:(lia) eq_refl) as [-> ->]; [|simpl; lia].
    intros Ho. apply occupied_iff in Ho as [Hu Hd].
    rewrite Hu, Hd in Eo. discriminate.
Qed.

Lemma standalone_destroy_releases_all_witness :
  Standalone.hashmap_destroy small_full = Some 8%nat.
Proof.
  assert (Ht : tidy small_full).
  { split; [exact wf_small_full|]. split.
    - apply liveb_live. reflexivity.
    - intros p e Hp Hs Ho. exfalso.
      assert (Hin : In e (Standalone.entries small_full)).
      { apply list_elem_of_In. eapply list_elem_of_lookup_2. exact Hs. }
      simpl in Hin. apply Ho.
      destruct Hin as [<-|[<-|[<-|[<-|[]]]]]; reflexivity. }
  destruct (standalone_destroy_releases_all small_full Ht) as [E _].
  exact E.
Defined.

(** ** Keys of the standalone table do not disturb each other *)

Module Others.
Import Standalone StandaloneSpec StandaloneLoops StandaloneInv.

(** In a table that keeps its invariant a key is bound or absent. *)
Lemma bound_or_absent hm k :
  inv hm -> (exists v, bound hm k v) \/ absent hm k.
Proof.
  intros Hinv. pose proof Hinv as (Hw & Hl & Hc & Hq).
  destruct (probe_cases hm k Hw Hl)
    as [Hall | (d & Hd & Hp & [(e & Hh) | (e & Hv)])].
  - right. unfold absent. pose proof (pow2_bounds _ (proj1 Hw)).
    apply (absent_after_passes hm k (cap hm) Hinv ltac:(lia) Hall).
    intros; lia.
  - left. pose proof Hh as (Hs & Hu & Hdl & Hk).
    destruct (Hl _ e (probe_at_nonneg _ _ _) Hs) as (k' & v' & _ & Hv).
    { apply occupied_iff. auto. }
    exists v', d, e. auto.
  - right. unfold absent.
    apply (absent_after_passes hm k d Hinv ltac:(lia) Hp). eauto.
Qed.

Lemma absent_put hm k p e' :
  wf hm -> absent hm k -> 0 <= p < cap hm ->
  (state_of e' = Occupied -> key e' <> Live k) ->
  absent (put hm p e') k.
Proof.
  intros Hw Ha Hp Hnew q e Hq Hs Ho.
  destruct (Z.eq_dec p q) as [<-|Hne].
  - rewrite slot_put_eq in Hs by assumption. injection Hs as <-. auto.
  - rewrite slot_put_ne in Hs by lia. eauto.
Qed.

Lemma absent_step hm k o hm' :
  inv hm -> absent hm k -> op_key o <> k -> step hm o = Some hm' ->
  absent hm' k.
Proof.
  intros Hinv Ha Hne Hstep. pose proof Hinv as (Hw & _).
  destruct o as [k' v'|k']; simpl in Hne, Hstep.
  - destruct (hashmap_set alloc_ok hm k' v') as [[hm1 r]|] eqn:E;
      [|discriminate]. injection Hstep as ->.
    destruct (set_frame hm k' v' hm' r Hinv E)
      as [-> | (p & e0 & Hp & Hs & Hown & ->)]; [assumption|].
    apply absent_put; try assumption. simpl. congruence.
  - destruct (delete_frame hm k' hm' Hinv Hstep)
      as [-> | (p & e0 & Hp & Hs & Ho & Hk & ->)]; [assumption|].
    apply absent_put; try assumption. discriminate.
Qed.

Lemma get_step_other hm k o hm' :
  inv hm -> op_key o <> k -> step hm o = Some hm' ->
  hashmap_get hm' k = hashmap_get hm k.
Proof.
  intros Hinv Hne Hstep.
  destruct (step_inv hm o Hinv) as (hm1 & E & Hinv').
  rewrite Hstep in E. injection E as <-.
  destruct (bound_or_absent hm k Hinv) as [(v & Hb) | Ha].
  - rewrite (bound_get hm k v Hb).
    apply bound_get. now apply (bound_step hm k v o).
  - pose proof Hinv as (Hw & Hl & _). destruct Hinv' as (Hw' & Hl' & _).
    rewrite (proj1 (absent_lookup hm k Hw Hl Ha)).
    apply absent_lookup; try assumption.
    now apply (absent_step hm k o).
Qed.

Lemma reachable_step hm o hm' :
  reachable hm -> step hm o = Some hm' -> reachable hm'.
Proof.
  intros (n & ops & hm0 & Hc & Hr) Hs.
  exists n, (ops ++ [o])%list, hm0. split; [assumption|].
  clear Hc. revert hm0 Hr. induction ops as [|o' ops IH]; intros hm0 Hr.
  - simpl in *. injection Hr as ->. now rewrite Hs.
  - simpl in *. destruct (step hm0 o'); [|discriminate]. now apply IH.
Qed.

End Others.

(** X5.  Standalone table, copies succeeding: from a reachable state a set
    or delete of one key is defined and leaves what [hashmap_get] returns
    for every other key as it was, a value or not-found. *)
Theorem standalone_other_keys_untouched hm o k :
  StandaloneSpec.reachable hm -> op_key o <> k ->
  exists hm',
    StandaloneSpec.step hm o = Some hm' /\
    StandaloneSpec.reachable hm' /\
    Standalone.hashmap_get hm' k = Standalone.hashmap_get hm k.
Proof.
  intros Hr Hne. pose proof (StandaloneInv.reachable_inv hm Hr) as Hinv.
  destruct (StandaloneInv.step_inv hm o Hinv) as (hm' & E & _).
  exists hm'. split; [exact E|].
  split; [now apply (Others.reachable_step hm o)|].
  now apply (Others.get_step_other hm k o).
Qed.

Lemma standalone_other_keys_untouched_witness :
  exists hm',
    StandaloneSpec.step small_full (ODel "b") = Some hm' /\
    StandaloneSpec.reachable hm' /\
    Standalone.hashmap_get hm' "c" = Standalone.hashmap_get small_full "c".
Proof.
  apply (standalone_other_keys_untouched small_full (ODel "b") "c").
  - exact reachable_small_full.
  - simpl. discriminate.
Defined.

(** X6.  Standalone [hashmap_set] of a key its probe finds, on any
    well-formed table (so also after failed copies) and whatever the
    allocator does.  No key is copied on this path.  When the value copy
    succeeds the set returns 0, [hashmap_get] returns the new value, and
    nothing else changes: the capacity is the same and every slot keeps its
    state and its key.  When the value copy fails the set returns -1 and
    the table is unchanged, the old value in place. *)
Theorem standalone_update_in_place a hm k v0 v :
  StandaloneSpec.wf hm -> StandaloneSpec.bound hm k v0 ->
  (val_ok a = true ->
   exists hm',
     Standalone.hashmap_set a hm k v = Some (hm', 0) /\
     Standalone.hashmap_get hm' k = Some (Live v) /\
     Standalone.cap hm' = Standalone.cap hm /\
     forall p, 0 <= p ->
       state_of <$> slot (Standalone.entries hm') p =
         state_of <$> slot (Standalone.entries hm) p /\
       key <$> slot (Standalone.entries hm') p =
         key <$> slot (Standalone.entries hm) p) /\
  (val_ok a = false ->
   Standalone.hashmap_set a hm k v = Some (hm, -1) /\
   Standalone.hashmap_get hm k = Some (Live v0)).
Proof.
  intros Hw Hb. pose proof Hb as (d & e & Hd & Hp & Hh & Hv).
  pose proof (StandaloneLoops.set_update a hm k v d e Hd Hp Hh) as E.
  pose proof (StandaloneLoops.probe_range hm k d Hw Hd) as Hr.
  split; intros Ha; rewrite Ha in E.
  - eexists. split; [exact E|]. split; [|split; [reflexivity|]].
    + set (e' := mk_entry (Live k) (Live v) true false).
      apply (StandaloneLoops.get_found _ k d e'); [exact Hd | |].
      * intros j Hj. destruct (Hp j Hj) as (e1 & Hs1 & Hrest).
        exists e1. split; [|exact Hrest].
        change (slot (Standalone.entries
                        (Standalone.put hm
                           (Standalone.probe_at hm (Standalone.home hm k) d) e'))
                  (Standalone.probe_at hm (Standalone.home hm k) j) = Some e1).
        rewrite StandaloneInv.slot_put_ne;
          try apply StandaloneLoops.probe_at_nonneg; [exact Hs1|].
        intros Heq.
        apply (StandaloneLoops.probe_inj hm k d j Hw) in Heq; lia.
      * split; [|auto].
        change (slot (Standalone.entries
                        (Standalone.put hm
                           (Standalone.probe_at hm (Standalone.home hm k) d) e'))
                  (Standalone.probe_at hm (Standalone.home hm k) d) = Some e').
        now apply StandaloneInv.slot_put_eq.
    + intros p Hp0. destruct Hh as (Hs & Hu & Hdl & Hk).
      destruct (Z.eq_dec (Standalone.probe_at hm (Standalone.home hm k) d) p)
        as [<-|Hne].
      * rewrite StandaloneInv.slot_put_eq, Hs by assumption.
        simpl. unfold state_of. simpl. now rewrite Hu, Hdl, Hk.
      * rewrite StandaloneInv.slot_put_ne; try assumption; [auto|].
        apply StandaloneLoops.probe_at_nonneg.
  - split; [exact E|]. now apply StandaloneInv.bound_get.
Qed.

Lemma bound_small_full : StandaloneSpec.bound small_full "c" "3".
Proof.
  exists 0, (mk_entry (Live "c") (Live "3") true false).
  split; [vm_compute; split; [discriminate | reflexivity]|].
  split; [intros j Hj; lia|].
  split; [|reflexivity].
  split; [vm_compute; reflexivity|]. auto.
Qed.

Lemma standalone_update_in_place_witness :
  (exists hm',
     Standalone.hashmap_set alloc_ok small_full "c" "9" = Some (hm', 0) /\
     Standalone.hashmap_get hm' "c" = Some (Live "9") /\
     Standalone.cap hm' = Standalone.cap small_full /\
     forall p, 0 <= p ->
       state_of <$> slot (Standalone.entries hm') p =
         state_of <$> slot (Standalone.entries small_full) p /\
       key <$> slot (Standalone.entries hm') p =
         key <$> slot (Standalone.entries small_full) p) /\
  (Standalone.hashmap_set (mk_alloc true false) small_full "c" "9"
     = Some (small_full, -1) /\
   Standalone.hashmap_get small_full "c" = Some (Live "3")).
Proof.
  split.
  - apply (proj1 (standalone_update_in_place alloc_ok small_full "c" "3" "9"
                    wf_small_full bound_small_full)).
    reflexivity.
  - apply (proj2 (standalone_update_in_place (mk_alloc true false) small_full
                    "c" "3" "9" wf_small_full bound_small_full)).
    reflexivity.
Defined.

(** ** Room in the standalone table *)

Module Room.
Import Standalone StandaloneSpec StandaloneLoops StandaloneInv.

Lemma all_pass hm k :
  wf hm -> live (entries hm) -> no_empty (entries hm) -> absent hm k ->
  forall j, 0 <= j < cap hm ->
    passes (entries hm) k (probe_at hm (home hm k) j).
Proof.
  intros Hw Hl Hn Ha j Hj.
  pose proof (probe_range hm k j Hw Hj) as Hr.
  destruct (classify hm k _ Hw Hl Hr) as [Hp | [(e & Hh) | (e & Hv)]].
  - exact Hp.
  - exfalso. destruct Hh as (Hs & Hu & Hd & Hk).
    apply (Ha _ e (proj1 Hr) Hs); [apply occupied_iff; auto | exact Hk].
  - exfalso. destruct Hv as (Hs & Hu).
    rewrite (Hn _ e (proj1 Hr) Hs) in Hu. discriminate.
Qed.

Lemma no_empty_store es p e0 e' :
  no_empty es -> 0 <= p -> slot es p = Some e0 -> used e' = true ->
  no_empty (store es p e').
Proof.
  intros Hn Hp Hs0 Hu q e Hq Hs.
  destruct (Z.eq_dec p q) as [<-|Hne].
  - rewrite slot_store_eq in Hs.
    + now injection Hs as <-.
    + apply ServerLoops.slot_range in Hs0. lia.
  - rewrite slot_store_ne in Hs by assumption. eauto.
Qed.

Lemma stuck_step hm k o hm' :
  inv hm -> no_empty (entries hm) -> absent hm k -> step hm o = Some hm' ->
  inv hm' /\ no_empty (entries hm') /\ absent hm' k.
Proof.
  intros Hinv Hn Ha Hstep. pose proof Hinv as (Hw & Hl & _).
  destruct (step_inv hm o Hinv) as (hm1 & E & Hinv').
  rewrite Hstep in E. injection E as <-. split; [exact Hinv'|].
  destruct (string_dec (op_key o) k) as [Heq|Hne].
  - assert (hm' = hm) as ->; [|auto].
    destruct o as [k' v'|k']; simpl in Heq, Hstep; subst k'.
    + rewrite (set_exhausted alloc_ok hm k v' (all_pass hm k Hw Hl Hn Ha))
        in Hstep. now injection Hstep.
    + rewrite (proj2 (absent_lookup hm k Hw Hl Ha)) in Hstep.
      now injection Hstep.
  - split; [|now apply (Others.absent_step hm k o)].
    destruct o as [k' v'|k']; simpl in Hstep.
    + destruct (hashmap_set alloc_ok hm k' v') as [[hm1 r]|] eqn:E;
        [|discriminate]. injection Hstep as ->.
      destruct (set_frame hm k' v' hm' r Hinv E)
        as [-> | (p & e0 & Hp & Hs & _ & ->)]; [assumption|].
      simpl. apply (no_empty_store _ p e0); try assumption; [lia | reflexivity].
    + destruct (delete_frame hm k' hm' Hinv Hstep)
        as [-> | (p & e0 & Hp & Hs & _ & _ & ->)]; [assumption|].
      simpl. apply (no_empty_store _ p e0); try assumption; [lia | reflexivity].
Qed.

Lemma stuck_run k ops : forall hm,
  inv hm -> no_empty (entries hm) -> absent hm k ->
  exists hm', run ops hm = Some hm' /\
    inv hm' /\ no_empty (entries hm') /\ absent hm' k.
Proof.
  induction ops as [|o ops IH]; intros hm Hinv Hn Ha; simpl.
  - eauto.
  - destruct (step_inv hm o Hinv) as (hm1 & E & _). rewrite E.
    destruct (stuck_step hm k o hm1 Hinv Hn Ha E) as (Hi & Hn1 & Ha1).
    now apply IH.
Qed.

(** *** Counting used slots *)

Lemma used_count_insert_le (e : kv_entry) : forall (es : list kv_entry) (i : nat),
  (used_count (<[i:=e]> es) <= S (used_count es))%nat.
Proof.
  unfold used_count.
  induction es as [|e0 es IH]; intros i; simpl; [lia|].
  destruct i as [|i]; simpl.
  - destruct (used e), (used e0); simpl; lia.
  - specialize (IH i). destruct (used e0); simpl; lia.
Qed.

Lemma used_count_insert_same (e : kv_entry) :
  forall (es : list kv_entry) (i : nat) e0,
  es !! i = Some e0 -> used e = used e0 ->
  used_count (<[i:=e]> es) = used_count es.
Proof.
  unfold used_count.
  induction es as [|e1 es IH]; intros i e0 Hs Hu; [discriminate|].
  destruct i as [|i]; simpl in *.
  - injection Hs as ->. rewrite Hu. destruct (used e0); reflexivity.
  - specialize (IH i e0 Hs Hu). destruct (used e1); simpl; lia.
Qed.

Lemma used_count_replicate n : used_count (replicate n zero_entry) = 0%nat.
Proof. unfold used_count. induction n; simpl; auto. Qed.

Lemma used_count_room : forall es : list kv_entry,
  (used_count es < length es)%nat ->
  exists i e, es !! i = Some e /\ used e = false.
Proof.
  unfold used_count.
  induction es as [|e es IH]; simpl; intros H; [lia|].
  destruct (used e) eqn:Hu.
  - simpl in H. destruct IH as (i & e' & Hs & Hu'); [lia|].
    exists (S i), e'. auto.
  - exists 0%nat, e. auto.
Qed.

Lemma step_used_count hm o hm' :
  inv hm -> step hm o = Some hm' ->
  (used_count (entries hm') <=
   used_count (entries hm) + count_sets [o])%nat.
Proof.
  intros Hinv Hstep. destruct o as [k v|k]; simpl in *.
  - destruct (hashmap_set alloc_ok hm k v) as [[hm1 r]|] eqn:E;
      [|discriminate]. injection Hstep as ->.
    destruct (set_frame hm k v hm' r Hinv E)
      as [-> | (p & e0 & _ & _ & _ & ->)]; [lia|].
    simpl. unfold store. pose proof (used_count_insert_le
      (mk_entry (Live k) (Live v) true false) (entries hm) (Z.to_nat p)). lia.
  - destruct (delete_frame hm k hm' Hinv Hstep)
      as [-> | (p & e0 & _ & Hs & Ho & _ & ->)]; [lia|].
    simpl. unfold store.
    rewrite (used_count_insert_same _ _ _ e0); [lia | exact Hs|].
    apply occupied_iff in Ho as [-> _]. reflexivity.
Qed.

Lemma run_used_count ops : forall hm hm',
  inv hm -> run ops hm = Some hm' ->
  (used_count (entries hm') <= used_count (entries hm) + count_sets ops)%nat.
Proof.
  induction ops as [|o ops IH]; intros hm hm' Hinv Hrun; simpl in Hrun.
  - injection Hrun as <-. simpl. lia.
  - destruct (step_inv hm o Hinv) as (hm1 & E & Hinv1).
    rewrite E in Hrun.
    pose proof (step_used_count hm o hm1 Hinv E) as H1.
    pose proof (IH hm1 hm' Hinv1 Hrun) as H2.
    destruct o; simpl in *; lia.
Qed.

Lemma step_length hm o hm' :
  inv hm -> step hm o = Some hm' ->
  length (entries hm') = length (entries hm).
Proof.
  intros Hinv E. destruct o as [k v|k]; simpl in E.
  - destruct (hashmap_set alloc_ok hm k v) as [[h r]|] eqn:Es;
      [|discriminate]. injection E as ->.
    destruct (set_frame hm k v hm' r Hinv Es)
      as [-> | (p & e0 & _ & _ & _ & ->)];
      [reflexivity | simpl; apply length_store].
  - destruct (delete_frame hm k hm' Hinv E)
      as [-> | (p & e0 & _ & _ & _ & _ & ->)];
      [reflexivity | simpl; apply length_store].
Qed.

Lemma run_length ops : forall hm hm',
  inv hm -> run ops hm = Some hm' ->
  length (entries hm') = length (entries hm).
Proof.
  induction ops as [|o ops IH]; intros hm hm' Hinv Hrun; simpl in Hrun.
  - now injection Hrun as <-.
  - destruct (step_inv hm o Hinv) as (hm1 & E & Hinv1).
    rewrite E in Hrun. rewrite (IH hm1 hm' Hinv1 Hrun).
    now apply (step_length hm o).
Qed.

Lemma room_set hm k v :
  inv hm -> (used_count (entries hm) < length (entries hm))%nat ->
  exists hm', hashmap_set alloc_ok hm k v = Some (hm', 0).
Proof.
  intros Hinv Hroom. pose proof Hinv as (Hw & Hl & _).
  destruct (probe_cases hm k Hw Hl)
    as [Hall | (d & Hd & Hp & [(e & Hh) | (e & Hv)])].
  - exfalso. destruct (used_count_room _ Hroom) as (i & e & Hs & Hu).
    assert (Hi : 0 <= Z.of_nat i < cap hm).
    { apply lookup_lt_Some in Hs. destruct Hw as [_ Hlen]. lia. }
    destruct (probe_surj hm k (Z.of_nat i) Hw Hi) as (d & Hd & Hpd).
    destruct (passes_used _ _ _ (Hall d Hd)) as (e' & Hs' & Hu').
    rewrite Hpd in Hs'. unfold slot in Hs'. rewrite Nat2Z.id in Hs'.
    congruence.
  - rewrite (set_update alloc_ok hm k v d e Hd Hp Hh). simpl. eauto.
  - destruct (set_insert alloc_ok hm k v d e Hd Hp Hv) as (t & _ & _ & E).
    rewrite E. simpl. eauto.
Qed.

Lemma decimal_inj n m : decimal n = decimal m -> n = m.
Proof.
  unfold decimal. intros H.
  apply (f_equal NilEmpty.uint_of_string) in H.
  rewrite !NilEmpty.usu in H. injection H as H.
  apply (f_equal Nat.of_uint) in H.
  now rewrite !DecimalNat.Unsigned.of_to in H.
Qed.

Lemma bench_key_inj n m : bench_key n = bench_key m -> n = m.
Proof. unfold bench_key. simpl. intros H. injection H as H. now apply decimal_inj. Qed.

Lemma warm_up_ok : forall m i hm f,
  inv hm -> (used_count (entries hm) <= i)%nat ->
  (i + m <= length (entries hm))%nat ->
  (forall j, (j < i)%nat -> bound hm (bench_key j) (bench_val j)) ->
  exists hm', StandaloneMain.warm_up m i hm f = Some (hm', f) /\
    inv hm' /\ cap hm' = cap hm /\
    forall j, (j < i + m)%nat -> bound hm' (bench_key j) (bench_val j).
Proof.
  induction m as [|m IH]; intros i hm f Hinv Hu Hlen Hb; simpl.
  - exists hm. split; [reflexivity|]. split; [assumption|].
    split; [reflexivity|]. intros j Hj. apply Hb. lia.
  - destruct (room_set hm (bench_key i) (bench_val i) Hinv ltac:(lia))
      as (hm1 & E).
    rewrite E. change (0 <? 0) with false. cbv iota.
    destruct (set_ok_result alloc_ok hm _ _ hm1 Hinv E) as [Hinv1 Hb1].
    assert (Hstep : step hm (OSet (bench_key i) (bench_val i)) = Some hm1)
      by (simpl; now rewrite E).
    pose proof (step_used_count hm _ hm1 Hinv Hstep) as Hc. simpl in Hc.
    assert (Hlen1 : length (entries hm1) = length (entries hm)).
    { destruct (set_frame hm _ _ hm1 0 Hinv E)
        as [-> | (p & e0 & _ & _ & _ & ->)];
        [reflexivity | simpl; apply length_store]. }
    destruct (IH (S i) hm1 f Hinv1) as (hm' & Ew & Hi' & Hcap & Hb').
    + lia.
    + lia.
    + intros j Hj. destruct (Nat.eq_dec j i) as [->|Hne]; [exact Hb1|].
      apply (bound_step hm _ _ (OSet (bench_key i) (bench_val i)));
        try assumption.
      * apply Hb. lia.
      * simpl. intros Heq. apply bench_key_inj in Heq. lia.
    + exists hm'. split; [exact Ew|]. split; [exact Hi'|].
      split; [|intros j Hj; apply Hb'; lia].
      rewrite Hcap. destruct (set_frame hm _ _ hm1 0 Hinv E)
        as [-> | (p & e0 & _ & _ & _ & ->)]; reflexivity.
Qed.

End Room.

(** X7.  Standalone table, copies succeeding: once no slot is Empty, a key
    the table does not hold can never be stored again.  Whatever sets and
    deletes follow, of this key or of others, the run is defined, the table
    still has no Empty slot and does not hold the key, [hashmap_get] of it
    finds nothing and [hashmap_set] of it returns -1 and changes nothing:
    tombstones are reused only by a probe that reaches an Empty slot. *)
Theorem standalone_no_empty_slot_rejects hm k ops :
  StandaloneSpec.reachable hm -> no_empty (Standalone.entries hm) ->
  StandaloneSpec.absent hm k ->
  exists hm',
    StandaloneSpec.run ops hm = Some hm' /\
    no_empty (Standalone.entries hm') /\
    StandaloneSpec.absent hm' k /\
    Standalone.hashmap_get hm' k = Some Null /\
    forall a v, Standalone.hashmap_set a hm' k v = Some (hm', -1).
Proof.
  intros Hr Hn Ha. apply StandaloneInv.reachable_inv in Hr.
  destruct (Room.stuck_run k ops hm Hr Hn Ha) as (hm' & E & Hi & Hn' & Ha').
  pose proof Hi as (Hw & Hl & _).
  exists hm'. split; [exact E|]. split; [exact Hn'|]. split; [exact Ha'|].
  split.
  - apply (StandaloneInv.absent_lookup hm' k Hw Hl Ha').
  - intros a v. apply StandaloneLoops.set_exhausted.
    now apply Room.all_pass.
Qed.

Lemma reachable_small_tombs : StandaloneSpec.reachable small_tombs.
Proof.
  exists 1, [OSet "a" "1"; OSet "b" "2"; OSet "c" "3"; OSet "d" "4";
             ODel "a"; ODel "b"; ODel "c"; ODel "d"], small.
  split; reflexivity.
Qed.

Lemma standalone_no_empty_slot_rejects_witness :
  exists hm',
    StandaloneSpec.run [ODel "b"; OSet "a" "1"] small_tombs = Some hm' /\
    no_empty (Standalone.entries hm') /\
    StandaloneSpec.absent hm' "a" /\
    Standalone.hashmap_get hm' "a" = Some Null /\
    forall a v, Standalone.hashmap_set a hm' "a" v = Some (hm', -1).
Proof.
  apply (standalone_no_empty_slot_rejects small_tombs "a"
           [ODel "b"; OSet "a" "1"]).
  - exact reachable_small_tombs.
  - intros p e _ Hs. unfold slot, small_tombs in Hs.
    cbn [Standalone.entries] in Hs.
    apply lookup_replicate in Hs as [-> _]. reflexivity.
  - apply absentb_absent. reflexivity.
Defined.

(** X8.  Standalone table, copies succeeding: a used slot is added only by
    a set, so while fewer sets have been made than the table has slots,
    every set finds room: it returns 0 and the get that follows returns the
    value. *)
Theorem standalone_set_succeeds_below_capacity n hm0 ops hm k v :
  Standalone.hashmap_create true n = Standalone.Table hm0 ->
  StandaloneSpec.run ops hm0 = Some hm ->
  Z.of_nat (count_sets ops) < Standalone.cap hm0 ->
  exists hm',
    Standalone.hashmap_set alloc_ok hm k v = Some (hm', 0) /\
    Standalone.hashmap_get hm' k = Some (Live v).
Proof.
  intros Hc Hrun Hlt.
  pose proof (StandaloneInv.create_fresh _ _ _ Hc) as Hf.
  pose proof (StandaloneInv.inv_fresh hm0 Hf) as Hinv0.
  destruct (StandaloneInv.run_inv ops hm0 Hinv0) as (hm1 & E & Hinv).
  rewrite Hrun in E. injection E as <-.
  pose proof (Room.run_used_count ops hm0 hm Hinv0 Hrun) as Hu.
  destruct Hf as [Hp He]. rewrite He, Room.used_count_replicate in Hu.
  assert (Hlen : Z.of_nat (length (Standalone.entries hm)) = Standalone.cap hm0).
  { rewrite (Room.run_length ops hm0 hm Hinv0 Hrun). apply Hinv0. }
  destruct (Room.room_set hm k v Hinv ltac:(lia)) as (hm' & Es).
  exists hm'. split; [exact Es|].
  destruct (StandaloneInv.set_ok_result alloc_ok hm k v hm' Hinv Es) as [_ Hb].
  now apply StandaloneInv.bound_get.
Qed.

Lemma standalone_set_succeeds_below_capacity_witness :
  exists hm',
    Standalone.hashmap_set alloc_ok
      (Standalone.put small 0 (mk_entry Null Null true true)) "e" "5"
    = Some (hm', 0) /\
    Standalone.hashmap_get hm' "e" = Some (Live "5").
Proof.
  apply (standalone_set_succeeds_below_capacity 1 small
           [OSet "a" "1"; ODel "a"]).
  - reflexivity.
  - reflexivity.
  - vm_compute. reflexivity.
Defined.

(** X9.  The warm-up loop of the standalone [main]: for a keyspace below
    2^62, on the table [hashmap_create] returns for it and with every copy
    succeeding, the loop counts no failure, and afterwards every key
    k0 .. k(keyspace-1) is found with its value. *)
Theorem standalone_warm_up_never_fails (keyspace : nat) hm0 :
  Z.of_nat keyspace < 2 ^ 62 ->
  Standalone.hashmap_create true (Z.of_nat keyspace) = Standalone.Table hm0 ->
  exists hm,
    StandaloneMain.warm_up keyspace 0 hm0 0 = Some (hm, 0) /\
    forall i, (i < keyspace)%nat ->
      Standalone.hashmap_get hm (bench_key i) = Some (Live (bench_val i)).
Proof.
  intros Hk Hc.
  destruct (StandaloneInv.create_total (Z.of_nat keyspace) ltac:(lia))
    as (hm & E & Hcap).
  rewrite Hc in E. injection E as <-.
  pose proof (StandaloneInv.create_fresh _ _ _ Hc) as Hf.
  pose proof (proj2 Hf) as He.
  pose proof (StandaloneInv.inv_fresh hm0 Hf) as Hinv0.
  assert (Hlen : Z.of_nat (length (Standalone.entries hm0)) = Standalone.cap hm0)
    by apply Hinv0.
  destruct (Room.warm_up_ok keyspace 0 hm0 0 Hinv0) as (hm & Ew & _ & _ & Hb).
  - rewrite He, Room.used_count_replicate. lia.
  - lia.
  - intros j Hj. lia.
  - exists hm. split; [exact Ew|].
    intros i Hi. apply StandaloneInv.bound_get. apply Hb. lia.
Qed.

Lemma standalone_warm_up_never_fails_witness :
  exists hm,
    StandaloneMain.warm_up 1 0 small 0 = Some (hm, 0) /\
    forall i, (i < 1)%nat ->
      Standalone.hashmap_get hm (bench_key i) = Some (Live (bench_val i)).
Proof.
  apply (standalone_warm_up_never_fails 1 small).
  - vm_compute. reflexivity.
  - reflexivity.
Defined.

(** ** The server table before its first delete, and at shutdown *)

Module ServerMore.
Import Server ServerSpec ServerLoops.

Lemma lift_put hm p e :
  lift (put hm p e) = Standalone.put (lift hm) p e.
Proof. reflexivity. Qed.

(** Without tombstones the server's set is the standalone set. *)
Lemma set_loop_tombless hm k v idx :
  tombless (entries hm) -> forall n i, 0 <= i ->
  set_loop alloc_ok hm k v idx n i =
  match Standalone.set_loop alloc_ok (lift hm) k v idx (-1) n i with
  | Some (h, _) => Some (mk_hashmap (Standalone.entries h))
  | None => None
  end.
Proof.
  intros Ht. induction n as [|n IH]; intros i Hi.
  - simpl. now destruct hm.
  - rewrite srv_set_loop_S, StandaloneLoops.set_loop_S.
    change (Standalone.probe_at (lift hm) idx i) with (probe_at idx i).
    change (Standalone.entries (lift hm)) with (entries hm).
    destruct (slot (entries hm) (probe_at idx i)) as [e|] eqn:Hs;
      [|reflexivity].
    rewrite (Ht _ e (srv_probe_at_nonneg idx i) Hs).
    destruct (used e) eqn:Hu; simpl.
    + destruct (strcmp (key e) k) as [[]|]; [reflexivity | | reflexivity].
      apply IH. lia.
    + reflexivity.
Qed.

Lemma set_tombless hm k v :
  tombless (entries hm) ->
  hashmap_set alloc_ok hm k v =
  match Standalone.hashmap_set alloc_ok (lift hm) k v with
  | Some (h, _) => Some (mk_hashmap (Standalone.entries h))
  | None => None
  end.
Proof.
  intros Ht. unfold hashmap_set, Standalone.hashmap_set.
  rewrite <- (home_lift hm k).
  now apply set_loop_tombless.
Qed.

Lemma tombless_store es p e0 e' :
  tombless es -> 0 <= p -> slot es p = Some e0 -> deleted e' = false ->
  tombless (store es p e').
Proof.
  intros Ht Hp Hs0 Hd q e Hq Hs.
  destruct (Z.eq_dec p q) as [<-|Hne].
  - rewrite StandaloneLoops.slot_store_eq in Hs.
    + now injection Hs as <-.
    + apply slot_range in Hs0. lia.
  - rewrite StandaloneLoops.slot_store_ne in Hs by assumption. eauto.
Qed.

Lemma sound_fresh hm0 : hashmap_create true = Some hm0 -> sets_only_state hm0.
Proof.
  intros H.
  assert (E : hm0 = mk_hashmap (replicate (Z.to_nat TABLE_SIZE) zero_entry))
    by (unfold hashmap_create in H; congruence).
  subst hm0. clear H. split.
  - apply StandaloneInv.inv_fresh. split; [apply pow2_table_size | reflexivity].
  - intros p e _ Hs. unfold slot in Hs. cbn [entries] in Hs.
    apply lookup_replicate in Hs as [-> _]. reflexivity.
Qed.

Lemma sound_set hm k v :
  sets_only_state hm -> exists hm', hashmap_set alloc_ok hm k v = Some hm' /\ sets_only_state hm'.
Proof.
  intros [Hinv Ht]. rewrite (set_tombless hm k v Ht).
  destruct (StandaloneInv.set_inv (lift hm) k v Hinv) as (h & r & E & Hinv').
  rewrite E. eexists. split; [reflexivity|].
  destruct (StandaloneInv.set_frame (lift hm) k v h r Hinv E)
    as [-> | (p & e0 & Hp & Hs & _ & ->)].
  - split; assumption.
  - split; [exact Hinv'|]. simpl.
    apply (tombless_store _ p e0); try assumption; [lia | reflexivity].
Qed.

Lemma sound_run ops : forall hm,
  sets_only_state hm -> Forall is_set ops ->
  exists hm', run ops hm = Some hm' /\ sets_only_state hm'.
Proof.
  induction ops as [|o ops IH]; intros hm Hs Hall; simpl.
  - eauto.
  - apply Forall_cons in Hall as [Ho Hall].
    destruct o as [k v|k]; [|destruct Ho]. simpl.
    destruct (sound_set hm k v Hs) as (hm1 & E & Hs1). rewrite E.
    now apply IH.
Qed.

(** The server's delete on a table without tombstones, against the
    standalone delete. *)
Lemma delete_loop_tombless hm k idx :
  tombless (entries hm) -> forall n i h, 0 <= i ->
  Standalone.delete_loop (lift hm) k idx n i = Some h ->
  (h = lift hm /\ delete_loop hm k idx n i = Some hm) \/
  exists p e0, 0 <= p /\ slot (entries hm) p = Some e0 /\
    h = Standalone.put (lift hm) p (mk_entry Null Null true true) /\
    delete_loop hm k idx n i =
      Some (put hm p (mk_entry Freed Freed true true)).
Proof.
  intros Ht. induction n as [|n IH]; intros i h Hi H.
  - simpl in *. injection H as <-. now left.
  - rewrite StandaloneLoops.delete_loop_S in H. rewrite srv_delete_loop_S.
    change (Standalone.probe_at (lift hm) idx i) with (probe_at idx i) in H.
    change (Standalone.entries (lift hm)) with (entries hm) in H.
    destruct (slot (entries hm) (probe_at idx i)) as [e|] eqn:Hs;
      [|discriminate].
    rewrite (Ht _ e (srv_probe_at_nonneg idx i) Hs) in H.
    destruct (used e) eqn:Hu; simpl in *.
    + destruct (strcmp (key e) k) as [[]|]; [| |discriminate].
      * injection H as <-. right. exists (probe_at idx i), e.
        split; [apply srv_probe_at_nonneg|]. auto.
      * apply IH; [lia | exact H].
    + injection H as <-. now left.
Qed.

Lemma delete_tombless hm k h :
  tombless (entries hm) ->
  Standalone.hashmap_delete (lift hm) k = Some h ->
  (h = lift hm /\ hashmap_delete hm k = Some hm) \/
  exists p e0, 0 <= p /\ slot (entries hm) p = Some e0 /\
    h = Standalone.put (lift hm) p (mk_entry Null Null true true) /\
    hashmap_delete hm k = Some (put hm p (mk_entry Freed Freed true true)).
Proof.
  intros Ht. unfold hashmap_delete, Standalone.hashmap_delete.
  rewrite <- (home_lift hm k).
  apply delete_loop_tombless; [exact Ht | lia].
Qed.

Lemma sound_delete_get hm k :
  sets_only_state hm ->
  exists hm', hashmap_delete hm k = Some hm' /\
    hashmap_get hm' k = Some Null.
Proof.
  intros [Hinv Ht].
  destruct (StandaloneInv.delete_inv (lift hm) k Hinv) as (h & E & _).
  destruct (StandaloneInv.delete_absent (lift hm) k h Hinv E)
    as ((Hw & Hl & _) & Ha).
  destruct (delete_tombless hm k h Ht E)
    as [(-> & Ed) | (p & e0 & Hp & Hs & -> & Ed)].
  - exists hm. split; [exact Ed|]. rewrite get_lift.
    now apply StandaloneInv.absent_lookup.
  - eexists. split; [exact Ed|]. rewrite get_lift, lift_put.
    pose proof Hinv as (Hw0 & Hl0 & _).
    assert (Hr : 0 <= p < Standalone.cap (lift hm)).
    { apply slot_range in Hs. destruct Hw0 as (_ & L).
      change (Standalone.cap (lift hm)) with TABLE_SIZE in L |- *.
      change (Standalone.entries (lift hm)) with (entries hm) in L. lia. }
    apply StandaloneInv.absent_lookup.
    + now apply StandaloneInv.wf_put.
    + simpl. apply (live_store _ p e0); try assumption. discriminate.
    + intros q e Hq Hsq Ho Hk.
      destruct (Z.eq_dec p q) as [<-|Hne].
      * rewrite StandaloneInv.slot_put_eq in Hsq by assumption.
        injection Hsq as <-. discriminate.
      * rewrite StandaloneInv.slot_put_ne in Hsq by lia.
        apply (Ha q e Hq); try assumption.
        rewrite StandaloneInv.slot_put_ne by lia. exact Hsq.
Qed.

(** *** [hashmap_destroy] *)

Lemma destroy_loop_freed hm p e : forall n i,
  slot (entries hm) p = Some e -> used e = true -> key e = Freed ->
  0 <= i <= p -> p < i + Z.of_nat n ->
  destroy_loop hm n i = None.
Proof.
  induction n as [|n IH]; intros i Hs Hu Hk Hi Hp; [lia|].
  simpl. destruct (Z.eq_dec i p) as [->|Hne].
  - now rewrite Hs, Hu, Hk.
  - rewrite (IH (i + 1)); try assumption; try lia.
    destruct (slot (entries hm) i) as [e1|]; [|reflexivity].
    destruct (used e1); [|reflexivity].
    destruct (free (key e1)); [|reflexivity].
    destruct (free (val e1)); reflexivity.
Qed.

Lemma used_count_cons e es :
  used_count (e :: es) =
  if used e then S (used_count es) else used_count es.
Proof. unfold used_count. simpl. now destruct (used e). Qed.

(** On a table without tombstones the loop of [hashmap_destroy] releases
    the two buffers of every used slot from [i] on. *)
Lemma destroy_loop_tombless hm : forall n i,
  live (entries hm) -> tombless (entries hm) -> 0 <= i ->
  (Z.to_nat i + n = length (entries hm))%nat ->
  destroy_loop hm n i =
    Some (2 * used_count (drop (Z.to_nat i) (entries hm)))%nat.
Proof.
  induction n as [|n IH]; intros i Hl Ht Hi Hlen.
  - simpl. rewrite drop_ge by lia. reflexivity.
  - simpl destroy_loop.
    destruct (slot (entries hm) i) as [e|] eqn:Hs.
    2:{ unfold slot in Hs. apply lookup_ge_None in Hs. lia. }
    pose proof Hs as Hs'. unfold slot in Hs'.
    rewrite (drop_S _ _ _ Hs'), used_count_cons.
    rewrite (IH (i + 1)); try assumption; try lia.
    replace (Z.to_nat (i + 1)) with (S (Z.to_nat i)) by lia.
    destruct (used e) eqn:Hu; [|reflexivity].
    destruct (Hl i e Hi Hs) as (k & v & -> & ->).
    { apply occupied_iff. split; [exact Hu | now apply (Ht i e)]. }
    simpl free. f_equal. lia.
Qed.

Lemma sound_destroy hm :
  sets_only_state hm ->
  hashmap_destroy hm = Some (2 * used_count (entries hm))%nat.
Proof.
  intros [((_ & Hlen) & Hl & _) Ht]. unfold hashmap_destroy.
  change (Standalone.entries (lift hm)) with (entries hm) in Hlen, Hl.
  change (Standalone.cap (lift hm)) with TABLE_SIZE in Hlen.
  rewrite (destroy_loop_tombless hm _ 0); try assumption; try lia.
  reflexivity.
Qed.

Lemma srv_step_used_count hm o hm' :
  step hm o = Some hm' ->
  (used_count (entries hm') <= used_count (entries hm) + count_sets [o])%nat /\
  length (entries hm') = length (entries hm).
Proof.
  intros Hstep. destruct o as [k v|k]; simpl in *.
  - destruct (set_loop_frame _ _ _ _ _ _ _ Hstep)
      as [-> | (p & e0 & _ & _ & _ & ->)]; [lia|].
    simpl. unfold store. split; [|apply length_insert].
    pose proof (Room.used_count_insert_le
      (mk_entry (Live k) (Live v) true false) (entries hm) (Z.to_nat p)). lia.
  - destruct (delete_loop_frame _ _ _ _ _ _ Hstep)
      as [-> | (p & e0 & _ & Hs & Hu & _ & ->)]; [lia|].
    simpl. unfold store. split; [|apply length_insert].
    rewrite (Room.used_count_insert_same _ _ _ e0); [lia | exact Hs|].
    now rewrite Hu.
Qed.

Lemma srv_run_used_count ops : forall hm hm',
  run ops hm = Some hm' ->
  (used_count (entries hm') <= used_count (entries hm) + count_sets ops)%nat /\
  length (entries hm') = length (entries hm).
Proof.
  induction ops as [|o ops IH]; intros hm hm' Hrun; simpl in Hrun.
  - injection Hrun as <-. simpl. lia.
  - destruct (step hm o) as [hm1|] eqn:E; [|discriminate].
    destruct (srv_step_used_count hm o hm1 E) as [H1 L1].
    destruct (IH hm1 hm' Hrun) as [H2 L2].
    destruct o; simpl in *; lia.
Qed.

Lemma room_has_room hm k :
  wf hm -> (used_count (entries hm) < length (entries hm))%nat ->
  has_room hm k.
Proof.
  intros Hw Hroom.
  destruct (Room.used_count_room _ Hroom) as (i & e & Hs & Hu).
  assert (Hi : 0 <= Z.of_nat i < Standalone.cap (lift hm)).
  { apply lookup_lt_Some in Hs. unfold wf in Hw. simpl. lia. }
  destruct (StandaloneLoops.probe_surj (lift hm) k (Z.of_nat i)
              (wf_lift hm Hw) Hi) as (d & Hd & Hpd).
  rewrite <- (home_lift hm k) in Hpd.
  exists d, e. split; [exact Hd|]. split; [|now left].
  change (Standalone.probe_at (lift hm) (home k) d)
    with (probe_at (home k) d) in Hpd.
  rewrite Hpd. unfold slot. now rewrite Nat2Z.id.
Qed.

End ServerMore.

(** X10.  Server table: as long as only sets have been made (every copy
    succeeding) it behaves as the standalone table does.  Every such run
    from the created table is defined, no two Occupied slots hold the same
    key, and a delete of any key is then defined and is followed by a get
    that finds nothing. *)
Theorem server_sound_before_first_delete hm0 ops :
  Server.hashmap_create true = Some hm0 -> Forall is_set ops ->
  exists hm,
    ServerSpec.run ops hm0 = Some hm /\
    uniq (Server.entries hm) /\
    forall k, exists hm',
      Server.hashmap_delete hm k = Some hm' /\
      Server.hashmap_get hm' k = Some Null.
Proof.
  intros Hc Hall.
  destruct (ServerMore.sound_run ops hm0 (ServerMore.sound_fresh hm0 Hc) Hall)
    as (hm & E & Hs).
  exists hm. split; [exact E|]. split.
  - apply Hs.
  - intros k. now apply ServerMore.sound_delete_get.
Qed.

Lemma server_sound_before_first_delete_witness :
  exists hm,
    ServerSpec.run [OSet "k0" "v0"; OSet "k109" "v109"; OSet "k109" "w109"]
      fresh_server = Some hm /\
    uniq (Server.entries hm) /\
    forall k, exists hm',
      Server.hashmap_delete hm k = Some hm' /\
      Server.hashmap_get hm' k = Some Null.
Proof.
  apply (server_sound_before_first_delete fresh_server
           [OSet "k0" "v0"; OSet "k109" "v109"; OSet "k109" "w109"]).
  - reflexivity.
  - repeat constructor.
Defined.

(** X11.  Server table, copies succeeding: in every reachable state
    [hashmap_set] and [hashmap_get] are defined for every key (they compare
    keys of Occupied slots only), the set leads to a reachable state and the
    get returns NULL or a value. *)
Theorem server_set_get_defined hm k v :
  ServerSpec.reachable hm ->
  (exists hm', Server.hashmap_set alloc_ok hm k v = Some hm' /\
               ServerSpec.reachable hm') /\
  (exists r, Server.hashmap_get hm k = Some r /\
             (r = Null \/ exists w, r = Live w)).
Proof.
  intros Hr. destruct (ServerLoops.reachable_keeps hm Hr) as [Hw Hl].
  split.
  - assert (Hd : exists hm', Server.hashmap_set alloc_ok hm k v = Some hm').
    { destruct (ServerLoops.set_cases hm k Hw Hl)
        as [Hall | (d & e & Hd & Hp & Hs & [Hwr | Hh])].
      - exists hm. now apply ServerLoops.set_full.
      - rewrite (ServerLoops.set_write alloc_ok hm k v d e Hd Hp Hs Hwr). eauto.
      - rewrite (ServerLoops.srv_set_update alloc_ok hm k v d e Hd Hp Hh). eauto. }
    destruct Hd as (hm' & E). exists hm'. split; [exact E|].
    destruct Hr as (ops & hm0 & Hc & Hrun).
    exists (ops ++ [OSet k v])%list, hm0. split; [exact Hc|].
    clear Hc Hw Hl. revert hm0 Hrun.
    induction ops as [|o ops IH]; intros hm0 Hrun; simpl in *.
    + injection Hrun as ->. now rewrite E.
    + destruct (ServerSpec.step hm0 o); [|discriminate]. now apply IH.
  - rewrite ServerLoops.get_lift.
    apply Tidy.get_defined; [now apply ServerLoops.wf_lift | exact Hl].
Qed.

Lemma server_set_get_defined_witness :
  (exists hm', Server.hashmap_set alloc_ok warmed_up "k1024" "v" = Some hm' /\
               ServerSpec.reachable hm') /\
  (exists r, Server.hashmap_get warmed_up "k1024" = Some r /\
             (r = Null \/ exists w, r = Live w)).
Proof.
  apply (server_set_get_defined warmed_up "k1024" "v").
  exact reachable_warmed_up.
Defined.

(** X12.  Server table: [hashmap_destroy] frees the key and value of every
    used slot, tombstones included.  After a [hashmap_delete] that removed a
    key the destroy frees the key of that slot a second time: it is
    undefined. *)
Theorem server_destroy_after_delete hm k hm' :
  ServerSpec.wf hm ->
  Server.hashmap_delete hm k = Some hm' -> hm' <> hm ->
  Server.hashmap_destroy hm' = None.
Proof.
  intros Hw Hd Hne.
  destruct (ServerLoops.delete_loop_frame _ _ _ _ _ _ Hd)
    as [-> | (p & e0 & Hp & Hs & _ & _ & ->)]; [congruence|].
  assert (Hr : 0 <= p < Server.TABLE_SIZE).
  { apply ServerLoops.slot_range in Hs. unfold ServerSpec.wf in Hw. lia. }
  unfold Server.hashmap_destroy.
  apply (ServerMore.destroy_loop_freed _ p (mk_entry Freed Freed true true));
    try reflexivity; try lia.
  simpl. apply StandaloneLoops.slot_store_eq. unfold ServerSpec.wf in Hw. lia.
Qed.

Lemma server_destroy_after_delete_witness :
  Server.hashmap_destroy
    (Server.put (Server.put fresh_server 782
                   (mk_entry (Live "k0") (Live "v0") true false))
       782 (mk_entry Freed Freed true true)) = None.
Proof.
  apply (server_destroy_after_delete
           (Server.put fresh_server 782
              (mk_entry (Live "k0") (Live "v0") true false)) "k0").
  - vm_compute. reflexivity.
  - vm_compute. reflexivity.
  - intros H. apply (f_equal (fun h => slot (Server.entries h) 782)) in H.
    vm_compute in H. discriminate.
Defined.

(** X13.  Server table, copies succeeding: a used slot is added only by a
    set.  So in every state reached from the created table by a run that is
    defined (no delete in it compares the freed key of a tombstone) and
    that holds fewer than [TABLE_SIZE] sets, a set of any key is stored and
    the get that follows returns its value.  Runs that are not defined are
    not covered. *)
Theorem server_set_succeeds_below_capacity hm0 ops hm k v :
  Server.hashmap_create true = Some hm0 ->
  ServerSpec.run ops hm0 = Some hm ->
  Z.of_nat (count_sets ops) < Server.TABLE_SIZE ->
  exists hm',
    Server.hashmap_set alloc_ok hm k v = Some hm' /\
    Server.hashmap_get hm' k = Some (Live v).
Proof.
  intros Hc Hrun Hlt.
  destruct (ServerLoops.create_keeps hm0 Hc) as [Hw0 Hl0].
  destruct (ServerLoops.run_keeps ops hm0 hm Hw0 Hl0 Hrun) as [Hw Hl].
  destruct (ServerMore.srv_run_used_count ops hm0 hm Hrun) as [Hu Hlen].
  assert (E0 : used_count (Server.entries hm0) = 0%nat).
  { assert (E : hm0 = fresh_server)
      by (unfold Server.hashmap_create in Hc; unfold fresh_server; congruence).
    subst hm0. apply Room.used_count_replicate. }
  unfold ServerSpec.wf in Hw, Hw0.
  destruct (ServerLoops.set_binds hm k v Hw Hl) as (hm' & E & Hb).
  { apply ServerMore.room_has_room; [exact Hw | lia]. }
  exists hm'. split; [exact E|]. now apply ServerLoops.srv_bound_get.
Qed.

Lemma server_set_succeeds_below_capacity_witness :
  exists hm',
    Server.hashmap_set alloc_ok
      (Server.put fresh_server 782 (mk_entry (Live "k0") (Live "v0") true false))
      "k109" "v109" = Some hm' /\
    Server.hashmap_get hm' "k109" = Some (Live "v109").
Proof.
  apply (server_set_succeeds_below_capacity fresh_server [OSet "k0" "v0"]).
  - reflexivity.
  - vm_compute. reflexivity.
  - vm_compute. reflexivity.
Defined.

(** X20.  Server table: as long as only sets have been made (every copy
    succeeding) [hashmap_destroy] is defined and releases exactly the key
    and the value of every used slot, two buffers per slot. *)
Theorem server_destroy_before_first_delete hm0 ops :
  Server.hashmap_create true = Some hm0 -> Forall is_set ops ->
  exists hm,
    ServerSpec.run ops hm0 = Some hm /\
    Server.hashmap_destroy hm =
      Some (2 * used_count (Server.entries hm))%nat.
Proof.
  intros Hc Hall.
  destruct (ServerMore.sound_run ops hm0 (ServerMore.sound_fresh hm0 Hc) Hall)
    as (hm & E & Hs).
  exists hm. split; [exact E|]. now apply ServerMore.sound_destroy.
Qed.

Lemma server_destroy_before_first_delete_witness :
  exists hm,
    ServerSpec.run [OSet "k0" "v0"; OSet "k109" "v109"] fresh_server
      = Some hm /\
    Server.hashmap_destroy hm =
      Some (2 * used_count (Server.entries hm))%nat.
Proof.
  apply (server_destroy_before_first_delete fresh_server
           [OSet "k0" "v0"; OSet "k109" "v109"]).
  - reflexivity.
  - repeat constructor.
Defined.

(** ** The wire format between client and server *)

Module Framing.
Import Server.

(** *** Strings *)

Lemma string_length_app s : forall t,
  String.length (s ++ t) = (String.length s + String.length t)%nat.
Proof. induction s as [|c s IH]; intros t; simpl; [reflexivity | now rewrite IH]. Qed.

Lemma string_app_empty s : s ++ "" = s.
Proof. induction s as [|c s IH]; simpl; congruence. Qed.

Lemma string_app_assoc s : forall t u, (s ++ t) ++ u = s ++ t ++ u.
Proof. induction s as [|c s IH]; intros t u; simpl; [reflexivity | now rewrite IH]. Qed.

Lemma no_colon_app s : forall t,
  no_colon (s ++ t) = no_colon s && no_colon t.
Proof.
  induction s as [|c s IH]; intros t; simpl; [reflexivity|].
  rewrite IH. now rewrite andb_assoc.
Qed.

Lemma no_nul_app s : forall t, no_nul (s ++ t) = no_nul s && no_nul t.
Proof.
  induction s as [|c s IH]; intros t; simpl; [reflexivity|].
  rewrite IH. now rewrite andb_assoc.
Qed.

Lemma substring_all s : forall m,
  (String.length s <= m)%nat -> String.substring 0 m s = s.
Proof.
  induction s as [|c s IH]; intros [|m] H; simpl in *; try reflexivity; try lia.
  rewrite IH by lia. reflexivity.
Qed.

Lemma substring_length s : forall m,
  (String.length (String.substring 0 m s) <= m)%nat.
Proof.
  induction s as [|c s IH]; intros [|m]; simpl; try lia.
  specialize (IH m). lia.
Qed.

Lemma substring_no_colon s : forall m,
  no_colon s = true -> no_colon (String.substring 0 m s) = true.
Proof.
  induction s as [|c s IH]; intros [|m] H; simpl in *; try reflexivity.
  apply andb_prop in H as [Hc Hs]. rewrite Hc. simpl. now apply IH.
Qed.

Lemma substring_no_nul s : forall m,
  no_nul s = true -> no_nul (String.substring 0 m s) = true.
Proof.
  induction s as [|c s IH]; intros [|m] H; simpl in *; try reflexivity.
  apply andb_prop in H as [Hc Hs]. rewrite Hc. simpl. now apply IH.
Qed.

Lemma snprintf_fits size s :
  (String.length s < size)%nat -> Client.snprintf size s = s.
Proof. intros H. unfold Client.snprintf. apply substring_all. lia. Qed.

Lemma tokenb_spec s :
  tokenb s = true -> s <> "" /\ no_colon s = true /\ no_nul s = true.
Proof.
  unfold tokenb. intros H.
  apply andb_prop in H as [H Hn]. apply andb_prop in H as [He Hc].
  apply negb_true_iff in He. apply String.eqb_neq in He. auto.
Qed.

(** *** The length field *)

Lemma read_length_colon d : forall n rest,
  no_colon d = true -> (String.length d < n)%nat ->
  read_length n (d ++ String colon rest) = Some (d, rest).
Proof.
  induction d as [|c d IH]; intros [|n] rest Hc Hn; simpl in *; try lia.
  - reflexivity.
  - apply andb_prop in Hc as [Hc Hd]. apply negb_true_iff in Hc.
    rewrite Hc, IH by (assumption || lia). reflexivity.
Qed.

Lemma read_length_short s : forall n,
  no_colon s = true -> (String.length s < n)%nat -> read_length n s = None.
Proof.
  induction s as [|c s IH]; intros [|n] Hc Hn; simpl in *; try lia.
  - reflexivity.
  - apply andb_prop in Hc as [Hc Hs]. apply negb_true_iff in Hc.
    rewrite Hc, IH by (assumption || lia). reflexivity.
Qed.

Lemma digits_cons c s acc :
  isdigit c = true ->
  digits (String c s) acc = digits s (acc * 10 + (byte_of c - 48)).
Proof. intros H. simpl. now rewrite H. Qed.

Ltac digit_case IH :=
  cbn [NilEmpty.string_of_uint Nat.of_uint_acc];
  rewrite digits_cons by reflexivity; rewrite <- IH; f_equal;
  rewrite Nat.tail_mul_spec;
  match goal with
  | |- context [byte_of ?c] =>
      let v := eval vm_compute in (byte_of c) in change (byte_of c) with v
  end; lia.

Lemma digits_of_uint d : forall acc,
  digits (NilEmpty.string_of_uint d) (Z.of_nat acc) =
  Z.of_nat (Nat.of_uint_acc d acc).
Proof.
  induction d as [|d IH|d IH|d IH|d IH|d IH|d IH|d IH|d IH|d IH|d IH];
    intros acc; [reflexivity | digit_case IH ..].
Qed.

Lemma atol_of_uint d :
  atol (NilEmpty.string_of_uint d) = Z.of_nat (Nat.of_uint d).
Proof.
  unfold Nat.of_uint. rewrite <- digits_of_uint.
  destruct d; reflexivity.
Qed.

Lemma atol_decimal n : atol (decimal n) = Z.of_nat n.
Proof.
  unfold decimal. now rewrite atol_of_uint, DecimalNat.Unsigned.of_to.
Qed.

Lemma no_colon_of_uint d : no_colon (NilEmpty.string_of_uint d) = true.
Proof. induction d; simpl; auto. Qed.

Lemma no_nul_of_uint d : no_nul (NilEmpty.string_of_uint d) = true.
Proof. induction d; simpl; auto. Qed.

Lemma digits_bound s : forall acc, 0 <= acc ->
  0 <= digits s acc < (acc + 1) * 10 ^ Z.of_nat (String.length s).
Proof.
  induction s as [|c s IH]; intros acc Ha.
  - simpl. lia.
  - change (String.length (String c s)) with (S (String.length s)).
    rewrite Nat2Z.inj_succ, Z.pow_succ_r by lia.
    assert (Hp : 0 < 10 ^ Z.of_nat (String.length s))
      by (apply Z.pow_pos_nonneg; lia).
    simpl. destruct (isdigit c) eqn:Hd.
    + unfold isdigit in Hd. apply andb_prop in Hd as [H1 H2].
      apply Z.leb_le in H1, H2.
      specialize (IH (acc * 10 + (byte_of c - 48)) ltac:(lia)). nia.
    + nia.
Qed.

Lemma decimal_value n :
  (String.length (decimal n) < 8)%nat -> Z.of_nat n < 10 ^ 7.
Proof.
  intros H. rewrite <- atol_decimal.
  assert (E : atol (decimal n) = digits (decimal n) 0).
  { rewrite atol_decimal. unfold decimal. unfold decimal in H.
    rewrite <- (DecimalNat.Unsigned.of_to n) at 1. unfold Nat.of_uint.
    now rewrite <- digits_of_uint. }
  rewrite E. pose proof (digits_bound (decimal n) 0 ltac:(lia)) as Hb.
  assert (10 ^ Z.of_nat (String.length (decimal n)) <= 10 ^ 7)
    by (apply Z.pow_le_mono_r; lia).
  lia.
Qed.

(** *** The body *)

Lemma read_body_all body : forall extra,
  read_body (String.length body) (body ++ extra) = body.
Proof. induction body as [|c b IH]; intros extra; simpl; [reflexivity | now rewrite IH]. Qed.

Lemma read_body_short body : forall n,
  (String.length body <= n)%nat -> read_body n body = body.
Proof.
  induction body as [|c b IH]; intros [|n] H; simpl in *; try reflexivity; try lia.
  rewrite IH by lia. reflexivity.
Qed.

Lemma cstr_no_nul s : no_nul s = true -> cstr s = s.
Proof.
  induction s as [|c s IH]; simpl; intros H; [reflexivity|].
  apply andb_prop in H as [Hc Hs]. apply negb_true_iff in Hc.
  now rewrite Hc, IH.
Qed.

(** [handle_pkt] on a request with a length field of at most seven digits:
    the body it hands to the commands. *)
Lemma handle_pkt_header a n rest hm :
  (String.length (decimal n) < 8)%nat ->
  handle_pkt true a (decimal n ++ String colon rest) hm =
  dispatch a (cstr (read_body n rest)) hm.
Proof.
  intros Hd. unfold handle_pkt.
  rewrite read_length_colon by (apply no_colon_of_uint || exact Hd).
  rewrite atol_decimal. pose proof (decimal_value n Hd) as Hv.
  cbv zeta. rewrite wrap64_small by lia.
  assert (E : (2 ^ 63 <=? Z.of_nat n) = false) by (apply Z.leb_gt; lia).
  rewrite E, Nat2Z.id. reflexivity.
Qed.

(** *** Requests of the client *)

Lemma decimal_short : forall n,
  (n < 512)%nat -> (String.length (decimal n) <= 3)%nat.
Proof.
  assert (H : forallb (fun n => String.length (decimal n) <=? 3)%nat
                (seq 0 512) = true) by (vm_compute; reflexivity).
  intros n Hn. rewrite forallb_forall in H.
  apply Nat.leb_le. apply H. apply in_seq. lia.
Qed.

Lemma packet_sent body :
  (String.length body < 256)%nat ->
  Client.packet body =
    Some (decimal (String.length body) ++ String colon body) /\
  (String.length (decimal (String.length body)) < 8)%nat.
Proof.
  intros H. pose proof (decimal_short (String.length body) ltac:(lia)) as Hd.
  split; [|lia]. unfold Client.packet. cbv zeta.
  change (":" ++ body) with (String colon body).
  rewrite string_length_app.
  change (String.length (String colon body)) with (S (String.length body)).
  destruct (_ <=? 0) eqn:E1; [apply Z.leb_le in E1; lia|].
  destruct (512 <=? _) eqn:E2; [apply Z.leb_le in E2; lia|].
  reflexivity.
Qed.

Lemma served body a hm :
  (String.length body < 256)%nat -> no_nul body = true ->
  exists p, Client.packet body = Some p /\
    handle_pkt true a p hm = dispatch a body hm.
Proof.
  intros Hl Hn. destruct (packet_sent body Hl) as [E Hd].
  eexists. split; [exact E|].
  rewrite handle_pkt_header by exact Hd.
  rewrite read_body_short by lia. now rewrite cstr_no_nul.
Qed.

Lemma dispatch_get a k hm :
  k <> "" -> no_colon k = true ->
  dispatch a ("get" ++ String colon k) hm =
  match hashmap_get hm k with
  | None => Aborted
  | Some reply => write_reply hm reply
  end.
Proof.
  intros Hk Hc. unfold dispatch.
  rewrite (HandlerFacts.strtok_app "get" _ ltac:(discriminate) eq_refl).
  change (String.eqb "get" "get") with true. cbv iota.
  now rewrite (HandlerFacts.strtok_end k Hk Hc).
Qed.

Lemma dispatch_del a k hm :
  k <> "" -> no_colon k = true ->
  dispatch a ("del" ++ String colon k) hm =
  match hashmap_delete hm k with
  | None => Aborted
  | Some hm' => Returned hm' ""
  end.
Proof.
  intros Hk Hc. unfold dispatch.
  rewrite (HandlerFacts.strtok_app "del" _ ltac:(discriminate) eq_refl).
  change (String.eqb "del" "get") with false.
  change (String.eqb "del" "set") with false.
  change (String.eqb "del" "del") with true. cbv iota.
  now rewrite (HandlerFacts.strtok_end k Hk Hc).
Qed.

Lemma dispatch_set_pair a k v hm :
  k <> "" -> no_colon k = true -> v <> "" -> no_colon v = true ->
  dispatch a ("set" ++ String colon (k ++ String colon v)) hm =
  match hashmap_set a hm k v with
  | None => Aborted
  | Some hm' => Returned hm' ""
  end.
Proof.
  intros Hk Hc Hv Hcv. rewrite HandlerFacts.dispatch_set by assumption.
  now rewrite (HandlerFacts.strtok_end v Hv Hcv).
Qed.

Lemma set_served a hm k v :
  tokenb k = true -> tokenb v = true ->
  (String.length k < Client.KEY_MAX)%nat ->
  (String.length v < Client.VAL_MAX)%nat ->
  exists p, Client.packet (Client.set_body k v) = Some p /\
    handle_pkt true a p hm =
      match hashmap_set a hm k v with
      | None => Aborted
      | Some hm' => Returned hm' ""
      end.
Proof.
  intros Hk Hv Lk Lv. unfold Client.KEY_MAX in Lk. unfold Client.VAL_MAX in Lv.
  apply tokenb_spec in Hk as (Hk & Hck & Hnk).
  apply tokenb_spec in Hv as (Hv & Hcv & Hnv).
  assert (Hlen : String.length ("set:" ++ k ++ ":" ++ v) =
                 (5 + String.length k + String.length v)%nat).
  { change ("set:" ++ k ++ ":" ++ v)
      with (String "s" (String "e" (String "t" (String ":" (k ++ String ":" v))))).
    cbn [String.length]. rewrite string_length_app. simpl. lia. }
  unfold Client.set_body. rewrite snprintf_fits by lia.
  destruct (served ("set:" ++ k ++ ":" ++ v) a hm) as (p & E & H).
  - lia.
  - change ("set:" ++ k ++ ":" ++ v)
      with (String "s" (String "e" (String "t" (String ":" (k ++ String ":" v))))).
    cbn [no_nul]. rewrite no_nul_app. cbn [no_nul]. rewrite Hnk, Hnv. reflexivity.
  - exists p. split; [exact E|]. rewrite H.
    now apply dispatch_set_pair.
Qed.

Lemma get_served a hm k :
  tokenb k = true -> (String.length k < Client.KEY_MAX)%nat ->
  exists p, Client.packet (Client.get_body k) = Some p /\
    handle_pkt true a p hm =
      match hashmap_get hm k with
      | None => Aborted
      | Some reply => write_reply hm reply
      end.
Proof.
  intros Hk Lk. unfold Client.KEY_MAX in Lk.
  apply tokenb_spec in Hk as (Hk & Hck & Hnk).
  unfold Client.get_body.
  rewrite snprintf_fits by (simpl; lia).
  destruct (served ("get:" ++ k) a hm) as (p & E & H).
  - simpl. lia.
  - simpl. exact Hnk.
  - exists p. split; [exact E|]. rewrite H. now apply dispatch_get.
Qed.

Lemma del_served a hm k :
  tokenb k = true -> (String.length k < Client.KEY_MAX)%nat ->
  exists p, Client.packet (Client.del_body k) = Some p /\
    handle_pkt true a p hm =
      match hashmap_delete hm k with
      | None => Aborted
      | Some hm' => Returned hm' ""
      end.
Proof.
  intros Hk Lk. unfold Client.KEY_MAX in Lk.
  apply tokenb_spec in Hk as (Hk & Hck & Hnk).
  unfold Client.del_body.
  rewrite snprintf_fits by (simpl; lia).
  destruct (served ("del:" ++ k) a hm) as (p & E & H).
  - simpl. lia.
  - simpl. exact Hnk.
  - exists p. split; [exact E|]. rewrite H. now apply dispatch_del.
Qed.

End Framing.

(** ** Client and server *)

Module Transport.
Import Server ServerSpec ServerLoops.

Lemma fits_set k v :
  fits (OSet k v) = true ->
  tokenb k = true /\ tokenb v = true /\
  (String.length k < Client.KEY_MAX)%nat /\
  (String.length v < Client.VAL_MAX)%nat.
Proof.
  unfold fits. intros H.
  apply andb_prop in H as [H Hv]. apply andb_prop in H as [H Hk].
  apply andb_prop in H as [H1 H2].
  apply Nat.ltb_lt in Hv, Hk. auto.
Qed.

Lemma fits_del k :
  fits (ODel k) = true ->
  tokenb k = true /\ (String.length k < Client.KEY_MAX)%nat.
Proof.
  unfold fits. intros H. apply andb_prop in H as [H Hk].
  apply Nat.ltb_lt in Hk. auto.
Qed.

(** One request of the client, served by [handle_pkt]. *)
Lemma op_served o hm :
  fits o = true ->
  exists p, Client.packet (Client.body_of o) = Some p /\
    handle_pkt true alloc_ok p hm =
      match step hm o with
      | Some hm' => Returned hm' ""
      | None => Aborted
      end.
Proof.
  intros Hf. destruct o as [k v|k]; cbn [Client.body_of step].
  - apply fits_set in Hf as (Hk & Hv & Lk & Lv).
    destruct (Framing.set_served alloc_ok hm k v Hk Hv Lk Lv) as (p & E & H).
    exists p. split; [exact E|]. rewrite H.
    destruct (hashmap_set alloc_ok hm k v); reflexivity.
  - apply fits_del in Hf as (Hk & Lk).
    destruct (Framing.del_served alloc_ok hm k Hk Lk) as (p & E & H).
    exists p. split; [exact E|]. rewrite H.
    destruct (hashmap_delete hm k); reflexivity.
Qed.

Lemma ops_served ops :
  Forall (fun o => fits o = true) ops ->
  exists ps, Client.packets (List.map Client.body_of ops) = Some ps /\
    forall hm,
      serve alloc_ok ps hm =
      match run ops hm with
      | Some hm' => Some (List.map (fun _ => "") ops, hm')
      | None => None
      end.
Proof.
  induction ops as [|o ops IH]; intros Hall.
  - exists []. split; reflexivity.
  - apply Forall_cons in Hall as [Ho Hall].
    destruct (IH Hall) as (ps & Eps & Hs).
    destruct (op_served o (mk_hashmap []) Ho) as (p & Ep & _).
    exists (p :: ps). split.
    + cbn [List.map Client.packets]. now rewrite Ep, Eps.
    + intros hm. destruct (op_served o hm Ho) as (p' & Ep' & Hp).
      assert (p' = p) by congruence. subst p'.
      cbn [serve run List.map]. rewrite Hp.
      destruct (step hm o) as [hm1|]; [|reflexivity].
      rewrite Hs. destruct (run ops hm1); reflexivity.
Qed.

(** *** The warm-up of the client *)

Lemma tokenb_intro s :
  s <> "" -> no_colon s = true -> no_nul s = true -> tokenb s = true.
Proof.
  intros Hne Hc Hn. unfold tokenb. rewrite Hc, Hn.
  apply String.eqb_neq in Hne. now rewrite Hne.
Qed.

Lemma prefixed_token size c d :
  no_colon (String c "") = true -> no_nul (String c "") = true ->
  tokenb (Client.snprintf (S (S size)) (String c "" ++ decimal d)) = true /\
  (String.length (Client.snprintf (S (S size)) (String c "" ++ decimal d))
     < S (S size))%nat.
Proof.
  intros Hc Hn. unfold Client.snprintf. split.
  - apply tokenb_intro.
    + simpl. discriminate.
    + apply Framing.substring_no_colon. rewrite Framing.no_colon_app, Hc.
      apply Framing.no_colon_of_uint.
    + apply Framing.substring_no_nul. rewrite Framing.no_nul_app, Hn.
      apply Framing.no_nul_of_uint.
  - pose proof (Framing.substring_length (String c "" ++ decimal d)
                  (S (S size) - 1)). lia.
Qed.

Lemma warm_up_fits n : Forall (fun o => fits o = true) (Client.warm_up n).
Proof.
  unfold Client.warm_up. apply Stdlib.Lists.List.Forall_forall. intros o Ho.
  apply in_map_iff in Ho as (i & <- & _).
  destruct (prefixed_token 62 "k" i eq_refl eq_refl) as [Hk Lk].
  destruct (prefixed_token 126 "v" i eq_refl eq_refl) as [Hv Lv].
  unfold fits, Client.key_of, Client.val_of, bench_key, bench_val,
    Client.KEY_MAX, Client.VAL_MAX.
  rewrite Hk, Hv. apply Nat.ltb_lt in Lk, Lv. now rewrite Lk, Lv.
Qed.

Lemma warm_up_populate n : (n <= 1024)%nat -> Client.warm_up n = populate n.
Proof.
  assert (H : forallb
                (fun i => String.eqb (Client.key_of i) (bench_key i) &&
                          String.eqb (Client.val_of i) (bench_val i))
                (seq 0 1024) = true) by (vm_compute; reflexivity).
  intros Hn. unfold Client.warm_up, populate. apply map_ext_in.
  intros i Hi. apply in_seq in Hi. rewrite forallb_forall in H.
  specialize (H i ltac:(apply in_seq; lia)).
  apply andb_prop in H as [Hk Hv].
  apply String.eqb_eq in Hk, Hv. now rewrite Hk, Hv.
Qed.

(** The sets of the warm-up on a table with room for them. *)
Lemma warm_ok : forall m i hm,
  wf hm -> live (entries hm) ->
  (used_count (entries hm) <= i)%nat -> (i + m <= 1024)%nat ->
  (forall j, (j < i)%nat ->
     StandaloneSpec.bound (lift hm) (bench_key j) (bench_val j)) ->
  exists hm',
    run (List.map (fun i => OSet (bench_key i) (bench_val i)) (seq i m)) hm
      = Some hm' /\
    forall j, (j < i + m)%nat ->
      StandaloneSpec.bound (lift hm') (bench_key j) (bench_val j).
Proof.
  induction m as [|m IH]; intros i hm Hw Hl Hu Hlen Hb.
  - exists hm. split; [reflexivity|]. intros j Hj. apply Hb. lia.
  - cbn [seq List.map run step].
    pose proof Hw as Hw'. unfold wf in Hw'.
    assert (HT : TABLE_SIZE = 1024) by reflexivity.
    destruct (set_binds hm (bench_key i) (bench_val i) Hw Hl)
      as (hm1 & E & Hb1).
    { apply ServerMore.room_has_room; [exact Hw | lia]. }
    rewrite E.
    assert (Hstep : step hm (OSet (bench_key i) (bench_val i)) = Some hm1)
      by exact E.
    destruct (step_keeps hm _ hm1 Hw Hl Hstep) as [Hw1 Hl1].
    destruct (ServerMore.srv_step_used_count hm _ hm1 Hstep) as [Hc _].
    cbn [count_sets] in Hc.
    destruct (IH (S i) hm1 Hw1 Hl1) as (hm' & Er & Hb').
    + lia.
    + lia.
    + intros j Hj. destruct (Nat.eq_dec j i) as [->|Hne]; [exact Hb1|].
      apply (srv_bound_step hm _ _ (OSet (bench_key i) (bench_val i)));
        try assumption.
      * apply Hb. lia.
      * simpl. intros Heq. apply Room.bench_key_inj in Heq. lia.
    + exists hm'. split; [exact Er|]. intros j Hj. apply Hb'. lia.
Qed.

End Transport.

(** X14.  [handle_pkt], framing: for a length field of at most seven
    digits, written as the client's "%zu" writes it, the handler runs the
    command on exactly the declared number of bytes after the ':' (up to
    their first NUL); bytes sent after them are never read, and when the
    peer closes before sending them all, the command runs on what
    arrived. *)
Theorem handle_pkt_framing a n body extra hm :
  (String.length (decimal n) < 8)%nat ->
  String.length body = n \/ ((String.length body < n)%nat /\ extra = "") ->
  Server.handle_pkt true a (decimal n ++ ":" ++ body ++ extra) hm =
  Server.dispatch a (Server.cstr body) hm.
Proof.
  intros Hd H.
  change (":" ++ body ++ extra) with (String Server.colon (body ++ extra)).
  rewrite Framing.handle_pkt_header by exact Hd.
  destruct H as [<- | [Hl ->]].
  - now rewrite Framing.read_body_all.
  - rewrite Framing.string_app_empty, Framing.read_body_short by lia.
    reflexivity.
Qed.

Lemma handle_pkt_framing_witness :
  Server.handle_pkt true alloc_ok (decimal 5 ++ ":" ++ "get:a" ++ "xyz")
    fresh_server =
  Server.dispatch alloc_ok (Server.cstr "get:a") fresh_server.
Proof.
  apply (handle_pkt_framing alloc_ok 5 "get:a" "xyz" fresh_server).
  - vm_compute. lia.
  - left. reflexivity.
Defined.

(** X15.  Client to server: for a key and a value that are tokens (not
    empty, no ':' and no NUL) and fit the client's buffers, [send_cmd]
    formats the packet of each of the three request bodies without
    truncating or refusing it, and [handle_pkt] on that packet does
    exactly the table operation: the set of the pair, the get of the key
    with its result written back, the delete of the key. *)
Theorem client_request_served a hm k v :
  tokenb k = true -> tokenb v = true ->
  (String.length k < Client.KEY_MAX)%nat ->
  (String.length v < Client.VAL_MAX)%nat ->
  (exists p, Client.packet (Client.set_body k v) = Some p /\
     Server.handle_pkt true a p hm =
       match Server.hashmap_set a hm k v with
       | None => Server.Aborted
       | Some hm' => Server.Returned hm' ""
       end) /\
  (exists p, Client.packet (Client.get_body k) = Some p /\
     Server.handle_pkt true a p hm =
       match Server.hashmap_get hm k with
       | None => Server.Aborted
       | Some reply => Server.write_reply hm reply
       end) /\
  (exists p, Client.packet (Client.del_body k) = Some p /\
     Server.handle_pkt true a p hm =
       match Server.hashmap_delete hm k with
       | None => Server.Aborted
       | Some hm' => Server.Returned hm' ""
       end).
Proof.
  intros Hk Hv Lk Lv. split; [|split].
  - now apply Framing.set_served.
  - now apply Framing.get_served.
  - now apply Framing.del_served.
Qed.

Lemma client_request_served_witness :
  (exists p, Client.packet (Client.set_body "k7" "v7") = Some p /\
     Server.handle_pkt true alloc_ok p fresh_server =
       match Server.hashmap_set alloc_ok fresh_server "k7" "v7" with
       | None => Server.Aborted
       | Some hm' => Server.Returned hm' ""
       end) /\
  (exists p, Client.packet (Client.get_body "k7") = Some p /\
     Server.handle_pkt true alloc_ok p fresh_server =
       match Server.hashmap_get fresh_server "k7" with
       | None => Server.Aborted
       | Some reply => Server.write_reply fresh_server reply
       end) /\
  (exists p, Client.packet (Client.del_body "k7") = Some p /\
     Server.handle_pkt true alloc_ok p fresh_server =
       match Server.hashmap_delete fresh_server "k7" with
       | None => Server.Aborted
       | Some hm' => Server.Returned hm' ""
       end).
Proof.
  apply (client_request_served alloc_ok fresh_server "k7" "v7").
  - reflexivity.
  - reflexivity.
  - vm_compute. lia.
  - vm_compute. lia.
Defined.

(** X16.  The accept loop over the connections of a client: for sets and
    deletes whose keys and values are tokens that fit the client's
    buffers, [send_cmd] refuses no packet, and serving the packets one
    connection each is the run of the operations on the table, with
    nothing written back; the loop stops exactly where the run is
    undefined. *)
Theorem client_requests_served ops :
  Forall (fun o => fits o = true) ops ->
  exists ps,
    Client.packets (List.map Client.body_of ops) = Some ps /\
    forall hm,
      Server.serve alloc_ok ps hm =
      match ServerSpec.run ops hm with
      | Some hm' => Some (List.map (fun _ => "") ops, hm')
      | None => None
      end.
Proof. apply Transport.ops_served. Qed.

Lemma client_requests_served_witness :
  exists ps,
    Client.packets
      (List.map Client.body_of [OSet "k0" "v0"; ODel "k0"]) = Some ps /\
    forall hm,
      Server.serve alloc_ok ps hm =
      match ServerSpec.run [OSet "k0" "v0"; ODel "k0"] hm with
      | Some hm' => Some (List.map (fun _ => "") [OSet "k0" "v0"; ODel "k0"], hm')
      | None => None
      end.
Proof.
  apply (client_requests_served [OSet "k0" "v0"; ODel "k0"]).
  repeat constructor.
Defined.

(** X17.  [handle_pkt], early close: when the peer closes after fewer than
    eight bytes with no ':' among them, the handler returns at once; the
    table is unchanged and nothing is written, whatever the bytes are and
    whether or not allocation would succeed. *)
Theorem short_header_ignored m a input hm :
  no_colon input = true -> (String.length input < 8)%nat ->
  Server.handle_pkt m a input hm = Server.Returned hm "".
Proof.
  intros Hc Hl. unfold Server.handle_pkt.
  now rewrite Framing.read_length_short.
Qed.

Lemma short_header_ignored_witness :
  Server.handle_pkt false alloc_ok "11" fresh_server =
  Server.Returned fresh_server "".
Proof.
  apply (short_header_ignored false alloc_ok "11" fresh_server).
  - reflexivity.
  - vm_compute. lia.
Defined.

(** X18.  A get request of the client on a reachable server table: the
    handler returns, the table is unchanged, and what it writes back is
    the stored value when [hashmap_get] finds the key and nothing when it
    returns NULL. *)
Theorem get_request_answered a hm k :
  ServerSpec.reachable hm -> tokenb k = true ->
  (String.length k < Client.KEY_MAX)%nat ->
  exists p reply,
    Client.packet (Client.get_body k) = Some p /\
    Server.handle_pkt true a p hm = Server.Returned hm reply /\
    ((Server.hashmap_get hm k = Some Null /\ reply = "") \/
     Server.hashmap_get hm k = Some (Live reply)).
Proof.
  intros Hr Hk Lk.
  destruct (ServerLoops.reachable_keeps hm Hr) as [Hw Hl].
  destruct (Framing.get_served a hm k Hk Lk) as (p & E & H).
  destruct (Tidy.get_defined (ServerSpec.lift hm) k
              (ServerLoops.wf_lift hm Hw) Hl) as (r & Eg & Hcase).
  rewrite <- ServerLoops.get_lift in Eg. rewrite Eg in H.
  destruct Hcase as [-> | (v & ->)].
  - exists p, "". split; [exact E|]. split; [exact H|]. left. auto.
  - exists p, v. split; [exact E|]. split; [exact H|]. right. exact Eg.
Qed.

Lemma get_request_answered_witness :
  exists p reply,
    Client.packet (Client.get_body "k0") = Some p /\
    Server.handle_pkt true alloc_ok p warmed_up =
      Server.Returned warmed_up reply /\
    ((Server.hashmap_get warmed_up "k0" = Some Null /\ reply = "") \/
     Server.hashmap_get warmed_up "k0" = Some (Live reply)).
Proof.
  apply (get_request_answered alloc_ok warmed_up "k0").
  - exact reachable_warmed_up.
  - reflexivity.
  - vm_compute. lia.
Defined.

(** X19.  The warm-up loop of the client against a freshly started server,
    for a keyspace of at most [TABLE_SIZE] keys and with every copy
    succeeding: [send_cmd] refuses no packet, every connection is served
    with nothing written back, and afterwards every key
    k0 .. k(keyspace-1) is found with its value. *)
Theorem client_warm_up_stored (keyspace : nat) hm0 :
  Server.hashmap_create true = Some hm0 ->
  Z.of_nat keyspace <= Server.TABLE_SIZE ->
  exists ps hm,
    Client.packets (List.map Client.body_of (Client.warm_up keyspace))
      = Some ps /\
    Server.serve alloc_ok ps hm0 = Some (repeat "" keyspace, hm) /\
    forall i, (i < keyspace)%nat ->
      Server.hashmap_get hm (bench_key i) = Some (Live (bench_val i)).
Proof.
  intros Hc Hk. assert (HT : Server.TABLE_SIZE = 1024) by reflexivity.
  destruct (Transport.ops_served (Client.warm_up keyspace)
              (Transport.warm_up_fits keyspace)) as (ps & Eps & Hs).
  destruct (ServerLoops.create_keeps hm0 Hc) as [Hw0 Hl0].
  assert (E0 : used_count (Server.entries hm0) = 0%nat).
  { assert (E : hm0 = fresh_server)
      by (unfold Server.hashmap_create in Hc; unfold fresh_server; congruence).
    subst hm0. apply Room.used_count_replicate. }
  destruct (Transport.warm_ok keyspace 0 hm0 Hw0 Hl0) as (hm & Er & Hb).
  - lia.
  - lia.
  - intros j Hj. lia.
  - exists ps, hm. split; [exact Eps|]. split.
    + rewrite Hs, Transport.warm_up_populate by lia.
      unfold populate. rewrite Er. f_equal. f_equal.
      rewrite List.map_map.
      clear. generalize 0%nat. induction keyspace as [|n IH]; intros s;
        [reflexivity|]. simpl. now rewrite IH.
    + intros i Hi. apply ServerLoops.srv_bound_get. apply Hb. lia.
Qed.

Lemma client_warm_up_stored_witness :
  exists ps hm,
    Client.packets (List.map Client.body_of (Client.warm_up 2)) = Some ps /\
    Server.serve alloc_ok ps fresh_server = Some (repeat "" 2, hm) /\
    forall i, (i < 2)%nat ->
      Server.hashmap_get hm (bench_key i) = Some (Live (bench_val i)).
Proof.
  apply (client_warm_up_stored 2 fresh_server).
  - reflexivity.
  - vm_compute. discriminate.
Defined.
